(** * mongo-go-driver: connection pool, legacy dispatch and operation engine

    A shallow embedding of the Go sources of the driver core:
    - [Pool]: package topology, the connection pool ([newPool], [drain],
      [expired], [connect], [disconnect], [get], [close], [put]);
    - [Legacy]: x/mongo/driverlegacy, the dispatch functions ([Read],
      [Write], [CountDocuments], [DropIndexes], [ListDatabases],
      [DropCollection]) and their helpers;
    - [Driver]: x/mongo/driver, the helpers of [Operation] that
      operation_test.go exercises.

    Go pointers are addresses into an explicit heap, uint64 counters are
    integers reduced modulo 2^64, instants and durations are integers of
    nanoseconds, and calls into other packages are recorded as events of
    a trace.  The definitions come first; [PoolFacts], [LegacyFacts] and
    [DriverFacts] hold the lemmas, [PoolClaims], [LegacyClaims] and
    [DriverClaims] the properties of the specification. *)

From Stdlib Require Import ZArith List String Bool Lia.
From stdpp Require Import base gmap strings list fin_maps.

Local Open Scope Z_scope.

(** ** Machine integers *)

(** [atomic.AddUint64(&x, d)]: the sum, reduced to 64 bits. *)
Definition uint64_max : Z := 2 ^ 64 - 1.
Definition AddUint64 (x d : Z) : Z := (x + d) mod 2 ^ 64.

Module Pool.

(** A [*connection]: an address of the heap. *)
Definition addr := positive.

(** Modelled from the spec: the "three-state connectivity flag
    (disconnected / connected / disconnecting)", the constants that
    [pool.connected] is compared with (declared outside pool.go). *)
Inductive connectivity := disconnected | disconnecting | connected.

#[global] Instance connectivity_eq_dec : EqDecision connectivity.
Proof. solve_decision. Defined.

(** [context.Canceled] and [context.DeadlineExceeded]. *)
Inductive ctxError := Canceled | DeadlineExceeded.

(** Errors the pool hands out.  [PoolError] values are the three
    sentinels of the source; [ConnectionError] carries the id, the wrapped
    error and the message; [ContextError] is [ctx.Err()]; [DialError] is
    whatever [newConnection] reports. *)
Inductive error :=
| ErrPoolConnected
| ErrPoolDisconnected
| ErrWrongPool
| ConnectionError (ConnectionID : string) (Wrapped : string) (message : string)
| ContextError (e : ctxError)
| DialError (msg : string).

(** Modelled from the spec: the "live transport handle" [c.nc], a
    [net.Conn], as far as the pool uses it: what [Close()] returns. *)
Record netConn := mkNetConn { nc_Close : option string }.

(** Modelled from the spec: [connection] (connection.go is not among the
    sources), "a pool-scoped numeric id, a string id for diagnostics, a
    generation token, ... and a live transport handle": the fields that
    pool.go reads and writes. *)
Record connection := mkConnection {
  c_pool : option addr;       (* c.pool, nil until get sets it *)
  c_poolID : Z;               (* c.poolID *)
  c_generation : Z;           (* c.generation *)
  c_id : string;              (* c.id *)
  c_nc : option netConn       (* c.nc, nil once closed *)
}.

(** [type pool struct].  [p_conns] is the buffered channel of idle
    connections (oldest first) and [p_size] its capacity; [opts] is only
    handed to [newConnection] and left out. *)
Record pool := mkPool {
  p_nextid : Z;
  p_address : string;
  p_conns : list addr;
  p_size : nat;
  p_generation : Z;
  p_connected : connectivity;
  p_opened : gmap Z addr
}.

(** The pool [p] (at address [w_self]) and the connections on the heap. *)
Record world := mkWorld {
  w_self : addr;
  w_pool : pool;
  w_heap : gmap addr connection
}.

Definition with_pool (f : pool -> pool) (w : world) : world :=
  mkWorld (w_self w) (f (w_pool w)) (w_heap w).

Definition set_conns (q : list addr) (p : pool) : pool :=
  mkPool (p_nextid p) (p_address p) q (p_size p) (p_generation p)
         (p_connected p) (p_opened p).

Definition set_generation (g : Z) (p : pool) : pool :=
  mkPool (p_nextid p) (p_address p) (p_conns p) (p_size p) g
         (p_connected p) (p_opened p).

Definition set_connected (s : connectivity) (p : pool) : pool :=
  mkPool (p_nextid p) (p_address p) (p_conns p) (p_size p) (p_generation p)
         s (p_opened p).

Definition set_opened (o : gmap Z addr) (p : pool) : pool :=
  mkPool (p_nextid p) (p_address p) (p_conns p) (p_size p) (p_generation p)
         (p_connected p) o.

Definition set_nextid (n : Z) (p : pool) : pool :=
  mkPool n (p_address p) (p_conns p) (p_size p) (p_generation p)
         (p_connected p) (p_opened p).

Definition set_nc (nc : option netConn) (c : connection) : connection :=
  mkConnection (c_pool c) (c_poolID c) (c_generation c) (c_id c) nc.

(** [newPool(addr, size, opts...)]. *)
Definition newPool (self : addr) (address : string) (size : nat) : world :=
  mkWorld self (mkPool 0 address [] size 0 disconnected ∅) ∅.

(** [func (p *pool) drain()]. *)
Definition drain (w : world) : world :=
  with_pool (fun p => set_generation (AddUint64 (p_generation p) 1) p) w.

(** [func (p *pool) expired(generation uint64) bool]. *)
Definition expired (w : world) (generation : Z) : bool :=
  generation <? p_generation (w_pool w).

(** Modelled from the spec: the [expired] method of [connection]
    (connection.go is not among the sources).  "A connection is expired
    iff its recorded generation is less than the pool's current
    generation": the connection asks its pool.  An address without an
    object is not expired. *)
Definition conn_expired (w : world) (c : addr) : bool :=
  match w_heap w !! c with
  | Some co => expired w (c_generation co)
  | None => false
  end.

(** [func (p *pool) connect() error]. *)
Definition connect (w : world) : world * option error :=
  if decide (p_connected (w_pool w) = disconnected) then
    let w1 := with_pool (set_connected connected) w in
    (with_pool (fun p => set_generation (AddUint64 (p_generation p) 1) p) w1, None)
  else (w, Some ErrPoolConnected).

(** [func (p *pool) close(c *connection) error].  An address without an
    object stands for a connection that is not this pool's. *)
Definition close (c : addr) (w : world) : world * option error :=
  match w_heap w !! c with
  | None => (w, Some ErrWrongPool)
  | Some co =>
      if decide (c_pool co = Some (w_self w)) then
        let w1 := with_pool (fun p => set_opened (delete (c_poolID co) (p_opened p)) p) w in
        match c_nc co with
        | None => (w1, None)
        | Some nc =>
            let w2 := mkWorld (w_self w1) (w_pool w1)
                              (<[c := set_nc None co]> (w_heap w1)) in
            match nc_Close nc with
            | Some err =>
                (w2, Some (ConnectionError (c_id co) err "failed to close net.Conn"))
            | None => (w2, None)
            end
        end
      else (w, Some ErrWrongPool)
  end.

(** [func (p *pool) put(c *connection) error]. *)
Definition put (c : addr) (w : world) : world * option error :=
  match w_heap w !! c with
  | None => (w, Some ErrWrongPool)
  | Some co =>
      if decide (c_pool co = Some (w_self w)) then
        if negb (bool_decide (p_connected (w_pool w) = connected)) || conn_expired w c
        then close c w
        else if (length (p_conns (w_pool w)) <? p_size (w_pool w))%nat
             then (with_pool (fun p => set_conns (p_conns p ++ [c]) p) w, None)
             else close c w
      else (w, Some ErrWrongPool)
  end.

(** The [context.Context] of a call: [ctx.Err()] once [ctx.Done()] is
    closed, and [ctx.Deadline()]. *)
Record context := mkContext {
  ctx_Err : option ctxError;
  ctx_Deadline : option Z
}.

(** Modelled from the spec: what [newConnection(ctx, p.address,
    p.opts...)] (connection.go) comes back with, an error or a connected
    connection. *)
Inductive dialResult :=
| DialFail (e : error)
| DialOk (id : string) (nc : netConn).

(** What a call of [get] does not control: [pick n] is the choice of the
    [n]-th [select] when both the channel and [ctx.Done()] are ready
    ([true]: the receive); [during_dial] is what the other goroutines do
    to the pool while [newConnection] is running; [newConnection] is its
    result. *)
Record getEnv := mkGetEnv {
  pick : nat -> bool;
  during_dial : world -> world;
  newConnection : world -> dialResult
}.

Definition getResult : Type := option addr * option error.

(** The [default:] case of the [select] in [get]. *)
Definition get_new (E : getEnv) (w : world) : world * getResult :=
  let w1 := during_dial E w in
  match newConnection E w1 with
  | DialFail e => (w1, (None, Some e))
  | DialOk id nc =>
      let c := fresh (dom (w_heap w1)) in
      let poolID := AddUint64 (p_nextid (w_pool w1)) 1 in
      let co := mkConnection (Some (w_self w1)) poolID
                             (p_generation (w_pool w1)) id (Some nc) in
      let w2 := mkWorld (w_self w1) (set_nextid poolID (w_pool w1))
                        (<[c := co]> (w_heap w1)) in
      if decide (p_connected (w_pool w2) = connected) then
        (with_pool (fun p => set_opened (<[poolID := c]> (p_opened p)) p) w2,
         (Some c, None))
      else ((close c w2).1, (None, Some ErrPoolDisconnected))
  end.

(** [func (p *pool) get(ctx)], which returns a connection or an error.
    Every recursive call of the source has taken one connection off the
    channel, so the recursion is on the channel's contents [q];
    [go p.close(c)] is run at once. *)
Fixpoint get_loop (E : getEnv) (ctx : context) (n : nat) (q : list addr)
    (w : world) {struct q} : world * getResult :=
  if decide (p_connected (w_pool w) = connected) then
    match q with
    | c :: q' =>
        let w1 := with_pool (set_conns q') w in
        let receive :=
          if conn_expired w1 c
          then get_loop E ctx (S n) q' (close c w1).1
          else (w1, (Some c, None)) in
        match ctx_Err ctx with
        | Some e => if pick E n then receive else (w, (None, Some (ContextError e)))
        | None => receive
        end
    | [] =>
        match ctx_Err ctx with
        | Some e => (w, (None, Some (ContextError e)))
        | None => get_new E w
        end
    end
  else (w, (None, Some ErrPoolDisconnected)).

Definition get (E : getEnv) (ctx : context) (w : world) : world * getResult :=
  get_loop E ctx 0 (p_conns (w_pool w)) w.

(** *** [disconnect] *)

(** [1 * time.Second], in nanoseconds. *)
Definition Second : Z := 1000000000.

(** What a call of [disconnect] does not control: [now] is [time.Now()]
    when the timer is made, and [returned k] are the connections their
    holders [put] back during the [k]-th second of the wait. *)
Record disconnectEnv := mkDisconnectEnv {
  now : Z;
  returned : nat -> list addr
}.

(** The first loop: receive from [p.conns] until it is empty, closing
    each connection received. *)
Fixpoint closeIdle (q : list addr) (w : world) : world :=
  match q with
  | [] => w
  | pc :: q' => closeIdle q' (close pc (with_pool (set_conns q') w)).1
  end.

Definition putAll (l : list addr) (w : world) : world :=
  foldl (fun w c => (put c w).1) w l.

(** The loop around [select { case <-timer.C: case <-ticker.C: ... }].
    [ticks] is the number of ticks that come strictly before the timer
    fires and [k] the next tick; a tick finds the opened map empty and
    leaves the loop, or goes round again; with no tick left the timer
    fires at [fires].  The result is the pool and the instant at which
    the loop is left. *)
Fixpoint waitLoop (E : disconnectEnv) (fires : Z) (ticks k : nat) (w : world)
    : world * Z :=
  let w1 := putAll (returned E k) w in
  match ticks with
  | O => (w1, fires)
  | S n =>
      if (0 <? size (p_opened (w_pool w1)))%nat
      then waitLoop E fires n (S k) w1
      else (w1, now E + Z.of_nat k * Second)
  end.

(** [if dl, ok := ctx.Deadline(); ok { ... }].  The timer is
    [time.NewTimer(time.Now().Sub(dl))]: a timer of a duration that is
    not positive fires at once, before the first tick of the ticker. *)
Definition gracefulWait (E : disconnectEnv) (dl : Z) (w : world) : world * Z :=
  let d := now E - dl in
  if d <=? 0 then (w, now E)
  else waitLoop E (now E + d) (Z.to_nat ((d - 1) / Second)) 1 w.

(** The pool at the moment [disconnect] starts to copy [p.opened] into
    [toClose], and that moment. *)
Definition beforeForceClose (E : disconnectEnv) (ctx : context) (w : world)
    : world * Z :=
  let w1 := with_pool (set_connected disconnecting) w in
  let w2 := closeIdle (p_conns (w_pool w1)) w1 in
  match ctx_Deadline ctx with
  | Some dl => gracefulWait E dl w2
  | None => (w2, now E)
  end.

(** [toClose]: the values of [p.opened]. *)
Definition toClose (w : world) : list addr :=
  (map_to_list (p_opened (w_pool w))).*2.

Definition closeAll (l : list addr) (w : world) : world :=
  foldl (fun w pc => (close pc w).1) w l.

(** [func (p *pool) disconnect(ctx context.Context) error]. *)
Definition disconnect (E : disconnectEnv) (ctx : context) (w : world)
    : world * option error :=
  if decide (p_connected (w_pool w) = connected) then
    let w3 := (beforeForceClose E ctx w).1 in
    let w4 := closeAll (toClose w3) w3 in
    (with_pool (set_connected disconnected) w4, None)
  else (w, Some ErrPoolDisconnected).

(** The calls of the pool's interface, and the pool after a call. *)
Inductive call :=
| Connect
| Drain
| Disconnect (E : disconnectEnv) (ctx : context)
| Get (E : getEnv) (ctx : context)
| Put (c : addr)
| Close (c : addr).

Definition run (k : call) (w : world) : world :=
  match k with
  | Connect => (connect w).1
  | Drain => drain w
  | Disconnect E ctx => (disconnect E ctx w).1
  | Get E ctx => (get E ctx w).1
  | Put c => (put c w).1
  | Close c => (close c w).1
  end.

(** The generation of the pool. *)
Definition gen (w : world) : Z := p_generation (w_pool w).

(** The invariant of the bookkeeping: an idle connection is an object of
    this pool, and no connection of this pool carries a generation the
    pool has not reached. *)
Definition wf (w : world) : Prop :=
  (∀ c, c ∈ p_conns (w_pool w) →
        ∃ co, w_heap w !! c = Some co ∧ c_pool co = Some (w_self w))
  ∧ (∀ c co, w_heap w !! c = Some co → c_pool co = Some (w_self w) →
             c_generation co <= p_generation (w_pool w)).

(** From [w] to [w'] the pool has stayed where it is and every
    connection has kept its pool, its id and its generation: these are
    written once, by the [get] that made the connection. *)
Definition keeps_objects (w w' : world) : Prop :=
  w_self w' = w_self w
  ∧ ∀ a co, w_heap w !! a = Some co →
      ∃ co', w_heap w' !! a = Some co' ∧ c_pool co' = c_pool co
             ∧ c_poolID co' = c_poolID co ∧ c_generation co' = c_generation co.

(** What is relied on of the goroutines that run while [get] is inside
    [newConnection]: they are calls of this interface too, so they keep
    the invariant, do not lower the generation and keep the objects. *)
Definition steady (E : getEnv) : Prop :=
  ∀ w, (wf w → wf (during_dial E w))
       ∧ p_generation (w_pool w) <= p_generation (w_pool (during_dial E w))
       ∧ keeps_objects w (during_dial E w).

Definition relies (k : call) : Prop :=
  match k with
  | Get E _ => steady E
  | _ => True
  end.

(** A sequence of calls, and the condition under which none of them
    meets the end of the 64-bit counter. *)
Definition runs (ks : list call) (w : world) : world :=
  foldl (fun w k => run k w) w ks.

Fixpoint safe (ks : list call) (w : world) : Prop :=
  match ks with
  | [] => True
  | k :: ks => p_generation (w_pool w) < uint64_max ∧ relies k ∧ safe ks (run k w)
  end.

(** A step that keeps the invariant, the generation, the connectivity
    flag and the pool's own address. *)
Definition quiet_step (f : world -> world) : Prop :=
  ∀ w, (wf w -> wf (f w)) ∧ gen (f w) = gen w
       ∧ p_connected (w_pool (f w)) = p_connected (w_pool w)
       ∧ w_self (f w) = w_self w.

(** *** A pool at work *)

Definition quiet : getEnv :=
  mkGetEnv (fun _ => true) (fun w => w) (fun _ => DialOk "conn" (mkNetConn None)).

Definition background : context := mkContext None None.

(** A connected pool of idle capacity 1 one connection of which is
    checked out. *)
Definition oneCheckedOut : world :=
  (get quiet background (connect (newPool 1%positive "localhost:27017" 1)).1).1.

(** The pool of the examples: connected, idle capacity 1, nothing open. *)
Definition fresh_pool : world := (connect (newPool 1%positive "localhost:27017" 1)).1.

(** A pool whose generation counter stands at its last 64-bit value. *)
Definition last_generation : world := with_pool (set_generation uint64_max) fresh_pool.

(** A [get] during whose [newConnection] another goroutine disconnects
    the pool. *)
Definition racing_disconnect : getEnv :=
  mkGetEnv (fun _ => true)
           (fun w => (disconnect (mkDisconnectEnv 0 (fun _ => [])) background w).1)
           (fun _ => DialOk "late" (mkNetConn None)).

End Pool.

(** ** Packages the dispatch functions and [Operation] draw on

    None of these packages is among the sources; what is used of them is
    written down from the specification and from the way the sources and
    their tests use them. *)

Module description.

(** Modelled from the spec: the kinds of topology and of server
    ("server kind/topology kind"); [TopologyKind0] and [Unknown] are the
    zero values that [description.SelectedServer{}] carries. *)
Inductive TopologyKind := TopologyKind0 | Single | ReplicaSet | Sharded.

Inductive ServerKind :=
| Unknown | Standalone | RSMember | RSPrimary | RSSecondary | RSArbiter
| RSGhost | Mongos.

#[global] Instance TopologyKind_eq_dec : EqDecision TopologyKind.
Proof. solve_decision. Defined.
#[global] Instance ServerKind_eq_dec : EqDecision ServerKind.
Proof. solve_decision. Defined.

Record VersionRange := mkVersionRange { Min : Z; Max : Z }.

Record Server := mkServer {
  Kind : ServerKind;
  WireVersion : option VersionRange      (* a pointer, nil when unset *)
}.

Record SelectedServer := mkSelectedServer {
  Server_ : Server;
  TopologyKind_ : TopologyKind
}.

(** Modelled from the spec: [description.SessionsSupported], "the
    server's wire version range meets the minimum required".  The retry
    table of operation_test.go has a range up to 5 fail and a range up to
    7 pass; the minimum is wire version 6. *)
Definition SessionsSupported (wireVersion : option VersionRange) : bool :=
  match wireVersion with
  | Some v => 6 <=? Max v
  | None => false
  end.

End description.

Module readpref.

(** Modelled from the spec: the five modes, as read.go and
    operation_test.go name them. *)
Inductive Mode :=
| PrimaryMode | PrimaryPreferredMode | SecondaryMode | SecondaryPreferredMode
| NearestMode.

#[global] Instance Mode_eq_dec : EqDecision Mode.
Proof. solve_decision. Defined.

(** Modelled from the spec: a read preference, its mode, its tag sets,
    and the maximum staleness (nanoseconds) when one was set. *)
Record ReadPref := mkReadPref {
  Mode_ : Mode;
  TagSets : list (list (string * string));
  MaxStaleness : option Z
}.

Definition Primary : ReadPref := mkReadPref PrimaryMode [] None.
Definition PrimaryPreferred : ReadPref := mkReadPref PrimaryPreferredMode [] None.
Definition Secondary : ReadPref := mkReadPref SecondaryMode [] None.
Definition SecondaryPreferred : ReadPref := mkReadPref SecondaryPreferredMode [] None.
Definition Nearest : ReadPref := mkReadPref NearestMode [] None.

End readpref.

Module writeconcern.

(** Modelled from the spec: the [w] of a write concern, a number of
    nodes or a tag such as "majority". *)
Inductive W := WNumber (n : Z) | WTag (tag : string).

Record WriteConcern := mkWriteConcern { w : option W }.

Definition New (w : W) : WriteConcern := mkWriteConcern (Some w).
Definition WMajority : W := WTag "majority".

(** Modelled from the spec: [writeconcern.AckWrite].  "Unacknowledged
    writes (w:0)": a write concern is unacknowledged when its [w] is the
    number 0; no write concern at all is acknowledged. *)
Definition AckWrite (wc : option WriteConcern) : bool :=
  match wc with
  | Some (mkWriteConcern (Some (WNumber 0))) => false
  | _ => true
  end.

End writeconcern.

Module session.

(** Modelled from the spec: "current transaction phase (none / starting /
    in-progress)". *)
Inductive state := None_ | Starting | InProgress.

#[global] Instance state_eq_dec : EqDecision state.
Proof. solve_decision. Defined.

(** Modelled from the spec: explicit sessions and the implicit ones the
    dispatch functions make. *)
Inductive Type_ := Explicit | Implicit.

(** Modelled from the spec: a cluster-time document
    [{$clusterTime: {clusterTime: Timestamp(T, I), ...}}], the two 32-bit
    halves of the timestamp and whatever else the document holds (a
    signature). *)
Record ClusterTime := mkClusterTime { T : Z; I : Z; rest : list Z }.

(** Modelled from the spec: [session.Client], "current transaction
    phase, pinned server, ... and last-known cluster time"; the fields
    that are used.  [PinnedServer] is a server selector, written as its
    name. *)
Record Client := mkClient {
  SessionID : Z;
  SessionType : Type_;
  PinnedServer : option string;
  state_ : state;
  CurrentRp : option readpref.ReadPref;
  ClusterTime_ : option ClusterTime
}.

(** Modelled from the spec: the "transaction phase queries" of a
    session.  A nil session has no transaction. *)
Definition TransactionStarting (c : option Client) : bool :=
  match c with Some c => bool_decide (state_ c = Starting) | None => false end.

Definition TransactionInProgress (c : option Client) : bool :=
  match c with Some c => bool_decide (state_ c = InProgress) | None => false end.

(** Modelled from the spec: [TransactionRunning].  A transaction is
    running from its start until it is committed or aborted: it is
    starting or in progress. *)
Definition TransactionRunning (c : Client) : bool :=
  bool_decide (state_ c = Starting) || bool_decide (state_ c = InProgress).

(** Modelled from the spec: the order of cluster times.  "Newer" is the
    order of the timestamps, first [T], then [I]. *)
Definition newer (a b : ClusterTime) : bool :=
  (T b <? T a) || ((T a =? T b) && (I b <? I a)).

(** Modelled from the spec: [session.MaxClusterTime].  "Cluster time only
    ever advances to the maximum of the currently held value and any
    newly observed value"; "replaced only if the incoming value is
    strictly newer". *)
Definition MaxClusterTime (held : option ClusterTime) (observed : ClusterTime)
    : option ClusterTime :=
  match held with
  | None => Some observed
  | Some h => if newer observed h then Some observed else Some h
  end.

(** The held value is absent or older than [b]. *)
Definition behind (held : option ClusterTime) (b : ClusterTime) : Prop :=
  match held with
  | None => True
  | Some h => newer b h = true
  end.

(** The held value has not gone back from [before] to [after]. *)
Definition not_regressed (before after : option ClusterTime) : Prop :=
  match before, after with
  | None, _ => True
  | Some a, Some b => newer a b = false
  | Some _, None => False
  end.

(** Modelled from the spec: [session.ClusterClock], "the highest cluster
    time observed across any operation sharing that clock". *)
Record ClusterClock := mkClusterClock { clusterTime : option ClusterTime }.

(** Modelled from the spec: [(cc *ClusterClock) AdvanceClusterTime] and
    [GetClusterTime]. *)
Definition AdvanceClusterTime (cc : ClusterClock) (ct : ClusterTime) : ClusterClock :=
  mkClusterClock (MaxClusterTime (clusterTime cc) ct).

Definition GetClusterTime (cc : ClusterClock) : option ClusterTime := clusterTime cc.

(** Modelled from the spec: [(c *Client) AdvanceClusterTime], the
    "cluster-time read/advance" of a session. *)
Definition Client_AdvanceClusterTime (c : Client) (ct : ClusterTime) : Client :=
  mkClient (SessionID c) (SessionType c) (PinnedServer c) (state_ c) (CurrentRp c)
           (MaxClusterTime (ClusterTime_ c) ct).

End session.

(** ** x/mongo/driverlegacy: the dispatch functions *)

Module Legacy.
Import description.

(** [bson.Raw]: the bytes of a document, nil when empty. *)
Definition Raw := list Z.

(** The errors of the dispatch functions: the sentinels of package
    [command] and of this package, and whatever a collaborator reports. *)
Inductive error :=
| ErrUnacknowledgedWrite
| ErrNonPrimaryRP
| ErrCollation
| Reported (msg : string).

(** A server selector, by name; a connection of the topology, by
    identity. *)
Definition ServerSelector := string.
Definition Connection := nat.

(** [bsonx.Elem]: a key and a value. *)
Inductive Val := Boolean (b : bool) | Int64 (z : Z) | Document (d : Raw).
Definition Elem : Type := string * Val.

(** Modelled from the spec: the selected server, which "exposes get a
    connection and describe yourself": [Description()] and
    [ConnectionLegacy(ctx)]. *)
Record SelectedServer := mkSelectedServer {
  Description : description.SelectedServer;
  ConnectionLegacy : error + Connection
}.

(** Modelled from the spec: the topology, which "exposes select a
    server matching a selector and does this deployment support
    sessions": [SelectServerLegacy(ctx, selector)] and
    [SupportsSessions()]. *)
Record Topology := mkTopology {
  SelectServerLegacy : option ServerSelector -> error + SelectedServer;
  SupportsSessions : bool
}.

(** How a call ends: it returns a value and an error, or it panics. *)
Inductive outcome (R : Type) :=
| Returns (r : R) (err : option error)
| Panics.
Arguments Returns {R} r err.
Arguments Panics {R}.

(** Modelled from the spec: a command of package [command], the fields
    the dispatch functions read and write, and its [RoundTrip] method,
    which sees the fields as they are when it is called and may return or
    panic. *)
Record Command (R : Type) := mkCommand {
  Session : option session.Client;
  ReadPref : option readpref.ReadPref;
  WriteConcern : option writeconcern.WriteConcern;
  Opts : list Elem;
  RoundTrip : option session.Client -> option readpref.ReadPref -> list Elem ->
              description.SelectedServer -> Connection -> outcome R
}.
Arguments mkCommand {R}.
Arguments Session {R}.
Arguments ReadPref {R}.
Arguments WriteConcern {R}.
Arguments Opts {R}.
Arguments RoundTrip {R}.

Definition set_Session {R} (s : option session.Client) (cmd : Command R) : Command R :=
  mkCommand s (ReadPref cmd) (WriteConcern cmd) (Opts cmd) (RoundTrip cmd).
Definition set_ReadPref {R} (rp : option readpref.ReadPref) (cmd : Command R) : Command R :=
  mkCommand (Session cmd) rp (WriteConcern cmd) (Opts cmd) (RoundTrip cmd).
Definition append_Opts {R} (e : Elem) (cmd : Command R) : Command R :=
  mkCommand (Session cmd) (ReadPref cmd) (WriteConcern cmd) (Opts cmd ++ [e]) (RoundTrip cmd).

(** What a call does to its collaborators, in order.  [Go task] is a
    [go func() {...}()] statement: the goroutine is started, and [task]
    is what it does, on its own. *)
#[warnings="-register-all"]
Inductive event :=
| SelectServerLegacy_ (selector : option ServerSelector)
| ConnectionLegacy_
| NewClientSession_ (t : session.Type_)
| EndSession_ (s : session.Client)
| Close_ (conn : Connection)
| RoundTrip_ (s : option session.Client) (rp : option readpref.ReadPref)
             (opts : list Elem) (desc : description.SelectedServer) (conn : Connection)
| Go (task : list event).

(** A call in progress: how it ends and what it has done. *)
Definition run (R : Type) : Type := outcome R * list event.

Definition ret {R} (r : R) (err : option error) : run R := (Returns r err, []).
Definition panic {R} : run R := (Panics, []).
(** [e] is done, then [k]. *)
Definition after {R} (e : event) (k : run R) : run R := (k.1, e :: k.2).
(** [defer d] before [body]: [d] runs when [body] is over, also when it
    panics. *)
Definition defer {R} (d : event) (body : run R) : run R := (body.1, body.2 ++ [d]).
(** [defer func() { _ = recover() }()]: a panic of [body] ends there. *)
Definition defer_recover (body : run unit) : run unit :=
  (Returns tt None, body.2).

(** [_, _ = f()]: the results are dropped. *)
Definition discard {R} (r : run R) : run unit :=
  (match r.1 with Returns _ _ => Returns tt None | Panics => Panics end, r.2).

(** [cmd.RoundTrip(ctx, desc, conn)]. *)
Definition roundTrip {R} (cmd : Command R) (desc : description.SelectedServer)
    (conn : Connection) : run R :=
  after (RoundTrip_ (Session cmd) (ReadPref cmd) (Opts cmd) desc conn)
        (RoundTrip cmd (Session cmd) (ReadPref cmd) (Opts cmd) desc conn, []).

(** Modelled from the spec: what the session package answers to
    [session.NewClientSession(pool, clientID, session.Implicit)]. *)
Record Env := mkEnv {
  NewClientSession : session.Type_ -> error + session.Client
}.

(** [if cmd.Session != nil && cmd.Session.PinnedServer != nil
    { selector = cmd.Session.PinnedServer }]. *)
Definition pinned {R} (cmd : Command R) (selector : option ServerSelector)
    : option ServerSelector :=
  match Session cmd with
  | Some s => match session.PinnedServer s with
              | Some ps => Some ps
              | None => selector
              end
  | None => selector
  end.

(** The block every dispatch function ends with:
    [if cmd.Session == nil && topo.SupportsSessions() { ... defer
    cmd.Session.EndSession() }] and the statements [rest] after it. *)
Definition withImplicitSession {R} (env : Env) (topo : Topology) (zero : R)
    (cmd : Command R) (rest : Command R -> run R) : run R :=
  match Session cmd with
  | None =>
      if SupportsSessions topo then
        after (NewClientSession_ session.Implicit)
          match NewClientSession env session.Implicit with
          | inl err => ret zero (Some err)
          | inr s => defer (EndSession_ s) (rest (set_Session (Some s) cmd))
          end
      else rest cmd
  | Some _ => rest cmd
  end.

(** [func checkTransactionReadPref(pref *readpref.ReadPref) error]. *)
Definition checkTransactionReadPref (pref : option readpref.ReadPref) : option error :=
  match pref with
  | Some pref =>
      if bool_decide (readpref.Mode_ pref = readpref.SecondaryMode)
         || bool_decide (readpref.Mode_ pref = readpref.SecondaryPreferredMode)
         || bool_decide (readpref.Mode_ pref = readpref.NearestMode)
         || bool_decide (readpref.Mode_ pref = readpref.PrimaryPreferredMode)
      then Some ErrNonPrimaryRP
      else None
  | None => None
  end.

(** [func getReadPrefBasedOnTransaction(current, sess)]. *)
Definition getReadPrefBasedOnTransaction (current : option readpref.ReadPref)
    (sess : option session.Client) : option readpref.ReadPref * option error :=
  match sess with
  | Some s =>
      if session.TransactionRunning s then
        let current := session.CurrentRp s in
        match checkTransactionReadPref current with
        | Some err => (None, Some err)
        | None => (current, None)
        end
      else (current, None)
  | None => (current, None)
  end.

(** [func retrySupported(topo, desc, sess, wc) bool]. *)
Definition retrySupported (topo : Topology) (desc : description.SelectedServer)
    (sess : option session.Client) (wc : option writeconcern.WriteConcern) : bool :=
  SupportsSessions topo
  && SessionsSupported (WireVersion (Server_ desc))
  && negb (session.TransactionInProgress sess || session.TransactionStarting sess)
  && writeconcern.AckWrite wc.

(** [func Read(ctx, cmd, topo, selector, clientID, pool)]. *)
Definition Read (env : Env) (cmd : Command Raw) (topo : Topology)
    (selector : option ServerSelector) : run Raw :=
  let selector := pinned cmd selector in
  after (SelectServerLegacy_ selector)
  match SelectServerLegacy topo selector with
  | inl err => ret [] (Some err)
  | inr ss =>
    after ConnectionLegacy_
    match ConnectionLegacy ss with
    | inl err => ret [] (Some err)
    | inr conn =>
      defer (Close_ conn)
        match
          match Session cmd with
          | Some s => if session.TransactionRunning s
                      then checkTransactionReadPref (ReadPref cmd) else None
          | None => None
          end
        with
        | Some err => ret [] (Some err)
        | None =>
          withImplicitSession env topo [] cmd (fun cmd =>
            roundTrip cmd (Description ss) conn)
        end
    end
  end.

(** The function literal that [Write] starts as a goroutine:
    [defer func() { _ = recover() }(); defer conn.Close();
     _, _ = cmd.RoundTrip(ctx, desc, conn)]. *)
Definition Write_goroutine (cmd : Command Raw) (desc : description.SelectedServer)
    (conn : Connection) : run unit :=
  defer_recover (defer (Close_ conn) (discard (roundTrip cmd desc conn))).

(** [func Write(ctx, cmd, topo, selector, clientID, pool)]. *)
Definition Write (env : Env) (cmd : Command Raw) (topo : Topology)
    (selector : option ServerSelector) : run Raw :=
  let selector := pinned cmd selector in
  after (SelectServerLegacy_ selector)
  match SelectServerLegacy topo selector with
  | inl err => ret [] (Some err)
  | inr ss =>
    let desc := Description ss in
    after ConnectionLegacy_
    match ConnectionLegacy ss with
    | inl err => ret [] (Some err)
    | inr conn =>
      if negb (writeconcern.AckWrite (WriteConcern cmd)) then
        after (Go (Write_goroutine cmd desc conn).2)
              (ret [] (Some ErrUnacknowledgedWrite))
      else
        defer (Close_ conn)
          (withImplicitSession env topo [] cmd (fun cmd =>
             roundTrip cmd desc conn))
    end
  end.

(** Modelled from the spec: package [options], the options a call is
    given, already merged
    ([options.MergeCountOptions] and the like are not among the sources).
    A collation carries what [bsonx.ReadDoc(collation.ToDocument())]
    gives, a hint what [interfaceToElement("hint", hint, registry)]
    gives. *)
Module DropIndexesOptions.
Record t := mk { MaxTime : option Z }.
End DropIndexesOptions.

Module ListDatabasesOptions.
Record t := mk { NameOnly : option bool }.
End ListDatabasesOptions.

Module CountOptions.
Record t := mk {
  MaxTime : option Z;
  Collation : option (error + Raw);
  Hint : option (error + Elem)
}.
End CountOptions.

(** [time.Millisecond], and the division of Go's [int64]. *)
Definition Millisecond : Z := 1000000.

(** Modelled from the spec: [result.ListDatabases]. *)
Record ListDatabasesResult := mkListDatabasesResult {
  Databases : list string;
  TotalSize : Z
}.

(** [func ListDatabases(ctx, cmd, topo, selector, clientID, pool, opts...)]. *)
Definition ListDatabases (env : Env) (cmd : Command ListDatabasesResult)
    (topo : Topology) (selector : option ServerSelector)
    (ld : ListDatabasesOptions.t) : run ListDatabasesResult :=
  let zero := mkListDatabasesResult [] 0 in
  after (SelectServerLegacy_ selector)
  match SelectServerLegacy topo selector with
  | inl err => ret zero (Some err)
  | inr ss =>
    after ConnectionLegacy_
    match ConnectionLegacy ss with
    | inl err => ret zero (Some err)
    | inr conn =>
      defer (Close_ conn)
        (withImplicitSession env topo zero cmd (fun cmd =>
           let cmd := match ListDatabasesOptions.NameOnly ld with
                      | Some b => append_Opts ("nameOnly"%string, Boolean b) cmd
                      | None => cmd
                      end in
           roundTrip cmd (Description ss) conn))
    end
  end.

(** [func DropCollection(ctx, cmd, topo, selector, clientID, pool)]. *)
Definition DropCollection (env : Env) (cmd : Command Raw) (topo : Topology)
    (selector : option ServerSelector) : run Raw :=
  after (SelectServerLegacy_ selector)
  match SelectServerLegacy topo selector with
  | inl err => ret [] (Some err)
  | inr ss =>
    after ConnectionLegacy_
    match ConnectionLegacy ss with
    | inl err => ret [] (Some err)
    | inr conn =>
      defer (Close_ conn)
        (withImplicitSession env topo [] cmd (fun cmd =>
           roundTrip cmd (Description ss) conn))
    end
  end.

(** [func DropIndexes(ctx, cmd, topo, selector, clientID, pool, opts...)]. *)
Definition DropIndexes (env : Env) (cmd : Command Raw) (topo : Topology)
    (selector : option ServerSelector) (dio : DropIndexesOptions.t) : run Raw :=
  after (SelectServerLegacy_ selector)
  match SelectServerLegacy topo selector with
  | inl err => ret [] (Some err)
  | inr ss =>
    after ConnectionLegacy_
    match ConnectionLegacy ss with
    | inl err => ret [] (Some err)
    | inr conn =>
      defer (Close_ conn)
        (let cmd := match DropIndexesOptions.MaxTime dio with
                    | Some d => append_Opts ("maxTimeMS"%string, Int64 (d ÷ Millisecond)) cmd
                    | None => cmd
                    end in
         withImplicitSession env topo [] cmd (fun cmd =>
           roundTrip cmd (Description ss) conn))
    end
  end.

(** [func CountDocuments(ctx, cmd, topo, selector, clientID, pool,
    registry, opts...)]. *)
Definition CountDocuments (env : Env) (cmd : Command Z) (topo : Topology)
    (selector : option ServerSelector) (countOpts : CountOptions.t) : run Z :=
  let selector := pinned cmd selector in
  after (SelectServerLegacy_ selector)
  match SelectServerLegacy topo selector with
  | inl err => ret 0 (Some err)
  | inr ss =>
    let desc := Description ss in
    after ConnectionLegacy_
    match ConnectionLegacy ss with
    | inl err => ret 0 (Some err)
    | inr conn =>
      defer (Close_ conn)
        match getReadPrefBasedOnTransaction (ReadPref cmd) (Session cmd) with
        | (_, Some err) => ret 0 (Some err)
        | (rp, None) =>
          let cmd := set_ReadPref rp cmd in
          withImplicitSession env topo 0 cmd (fun cmd =>
            let cmd := match CountOptions.MaxTime countOpts with
                       | Some d => append_Opts ("maxTimeMS"%string, Int64 (d ÷ Millisecond)) cmd
                       | None => cmd
                       end in
            let hint (cmd : Command Z) : run Z :=
              match CountOptions.Hint countOpts with
              | Some (inl err) => ret 0 (Some err)
              | Some (inr hintElem) => roundTrip (append_Opts hintElem cmd) desc conn
              | None => roundTrip cmd desc conn
              end in
            match CountOptions.Collation countOpts with
            | Some collation =>
                match WireVersion (Server_ desc) with
                | None => panic        (* desc.WireVersion is nil *)
                | Some v =>
                    if Max v <? 5 then ret 0 (Some ErrCollation)
                    else match collation with
                         | inl err => ret 0 (Some err)
                         | inr collDoc =>
                             hint (append_Opts ("collation"%string, Document collDoc) cmd)
                         end
                end
            | None => hint cmd
            end)
        end
    end
  end.

(** The dispatch functions, each with its arguments. *)
Inductive dispatch :=
| CallRead (cmd : Command Raw) (selector : option ServerSelector)
| CallWrite (cmd : Command Raw) (selector : option ServerSelector)
| CallCountDocuments (cmd : Command Z) (selector : option ServerSelector)
                     (countOpts : CountOptions.t)
| CallDropIndexes (cmd : Command Raw) (selector : option ServerSelector)
                  (dio : DropIndexesOptions.t)
| CallListDatabases (cmd : Command ListDatabasesResult)
                    (selector : option ServerSelector) (ld : ListDatabasesOptions.t)
| CallDropCollection (cmd : Command Raw) (selector : option ServerSelector).

(** What a call does, the session the command came with, and its write
    concern. *)
Definition trace (env : Env) (topo : Topology) (d : dispatch) : list event :=
  match d with
  | CallRead cmd selector => (Read env cmd topo selector).2
  | CallWrite cmd selector => (Write env cmd topo selector).2
  | CallCountDocuments cmd selector o => (CountDocuments env cmd topo selector o).2
  | CallDropIndexes cmd selector o => (DropIndexes env cmd topo selector o).2
  | CallListDatabases cmd selector o => (ListDatabases env cmd topo selector o).2
  | CallDropCollection cmd selector => (DropCollection env cmd topo selector).2
  end.

Definition session_of (d : dispatch) : option session.Client :=
  match d with
  | CallRead cmd _ | CallWrite cmd _ | CallDropIndexes cmd _ _
  | CallDropCollection cmd _ => Session cmd
  | CallCountDocuments cmd _ _ => Session cmd
  | CallListDatabases cmd _ _ => Session cmd
  end.

(** [Write] alone looks at the write concern before the session. *)
Definition acknowledged (d : dispatch) : bool :=
  match d with
  | CallWrite cmd _ => writeconcern.AckWrite (WriteConcern cmd)
  | _ => true
  end.

(** The round trips of a trace run under the implicit session: the
    session is made just before, and ended, and the connection closed,
    just after; and no goroutine is started. *)
Definition session_bracketed (env : Env) (t : list event) : Prop :=
  (∀ task, Go task ∉ t)
  ∧ ∀ s rp opts desc conn,
      RoundTrip_ s rp opts desc conn ∈ t ->
      ∃ sess pre,
        NewClientSession env session.Implicit = inr sess
        ∧ s = Some sess
        ∧ t = pre ++ [NewClientSession_ session.Implicit;
                      RoundTrip_ (Some sess) rp opts desc conn;
                      EndSession_ sess; Close_ conn].

(** The read preference modes a transaction does not allow. *)
Definition nonPrimary (m : readpref.Mode) : Prop :=
  m = readpref.SecondaryMode ∨ m = readpref.SecondaryPreferredMode
  ∨ m = readpref.NearestMode ∨ m = readpref.PrimaryPreferredMode.

(** *** Calls to try the functions on *)

(** A replica-set primary that hands out connection 1, a topology that
    selects it and supports sessions, a topology that finds no server,
    and a session package that answers with session 7. *)
Definition primary1 : SelectedServer :=
  mkSelectedServer
    (description.mkSelectedServer
       (description.mkServer description.RSPrimary
          (Some (description.mkVersionRange 0 7)))
       description.ReplicaSet)
    (inr 1%nat).

Definition topo1 : Topology := mkTopology (fun _ => inr primary1) true.

Definition noServer : Topology :=
  mkTopology (fun _ => inl (Reported "no suitable server")) true.

Definition env1 : Env :=
  mkEnv (fun t => inr (session.mkClient 7 t None session.None_ None None)).

(** A command whose round trip answers with three bytes, and one whose
    round trip panics. *)
Definition answering (s : option session.Client) (rp : option readpref.ReadPref)
    (wc : option writeconcern.WriteConcern) : Command Raw :=
  mkCommand s rp wc [] (fun _ _ _ _ _ => Returns [1; 2; 3] None).

Definition panicking (wc : option writeconcern.WriteConcern) : Command Raw :=
  mkCommand None None wc [] (fun _ _ _ _ _ => Panics).

Definition w0 : option writeconcern.WriteConcern :=
  Some (writeconcern.New (writeconcern.WNumber 0)).

(** A session with a transaction in progress. *)
Definition inTxn : session.Client :=
  session.mkClient 3 session.Explicit None session.InProgress None None.

End Legacy.

(** ** x/mongo/driver: [Operation]

    operation.go is not among the sources; operation_test.go and its
    mocks are.  The methods of [Operation] are written down from the
    specification and checked against the tables of the tests. *)

Module Driver.
Import description.

(** [[]byte]. *)
Definition bytes := list Z.

(** Modelled from the spec: [driver.Error], "error values carry an
    optional list of string labels". *)
Record Error := mkError { Message : string; Labels : list string }.

Definition TransientTransactionError : string := "TransientTransactionError".
Definition NetworkError : string := "NetworkError".

(** Modelled from the spec: the [Connection] interface, of which a
    round trip uses the write and the read of a wire message.  A call may
    change the connection; an [error] is its message. *)
Class Connection (C : Type) := {
  WriteWireMessage : C -> bytes -> C * option string;
  ReadWireMessage : C -> bytes -> C * (bytes * option string);
  Description : C -> Server;
  Close : C -> option string;
  ID : C -> string;
  Address : C -> string
}.

(** [type mockConnection struct] of operation_test.go and its methods:
    the two calls record their parameter and answer with the [r]
    fields. *)
Record mockConnection := mkMockConnection {
  pWriteWM : bytes;
  pReadDst : bytes;
  rWriteErr : option string;
  rReadWM : bytes;
  rReadErr : option string;
  rDesc : Server;
  rCloseErr : option string;
  rID : string;
  rAddr : string
}.

#[global] Instance mockConnection_Connection : Connection mockConnection := {
  WriteWireMessage m wm :=
    (mkMockConnection wm (pReadDst m) (rWriteErr m) (rReadWM m) (rReadErr m)
       (rDesc m) (rCloseErr m) (rID m) (rAddr m),
     rWriteErr m);
  ReadWireMessage m dst :=
    (mkMockConnection (pWriteWM m) dst (rWriteErr m) (rReadWM m) (rReadErr m)
       (rDesc m) (rCloseErr m) (rID m) (rAddr m),
     (rReadWM m, rReadErr m));
  Description m := rDesc m;
  Close m := rCloseErr m;
  ID m := rID m;
  Address m := rAddr m
}.

(** Modelled from the spec: the [Deployment] interface,
    [SelectServer(ctx, selector)], [SupportsRetry()] and [Kind()].  A
    selector and a server are written as their names. *)
Class Deployment (D : Type) := {
  SelectServer : D -> option string -> D * (option string * option string);
  SupportsRetry : D -> bool;
  Kind : D -> TopologyKind
}.

(** [type mockDeployment struct] of operation_test.go and its methods:
    [SelectServer] records the selector. *)
Record mockDeployment := mkMockDeployment {
  params_selector : option string;
  returns_server : option string;
  returns_err : option string;
  returns_retry : bool;
  returns_kind : TopologyKind
}.

#[global] Instance mockDeployment_Deployment : Deployment mockDeployment := {
  SelectServer m desc :=
    (mkMockDeployment desc (returns_server m) (returns_err m) (returns_retry m)
       (returns_kind m),
     (returns_server m, returns_err m));
  SupportsRetry m := returns_retry m;
  Kind m := returns_kind m
}.

(** Modelled from the spec: [RetryType], "an enumeration: none,
    retryable-read, retryable-write". *)
Inductive RetryType := RetryNone | RetryRead | RetryWrite.

#[global] Instance RetryType_eq_dec : EqDecision RetryType.
Proof. solve_decision. Defined.

(** Modelled from the spec: [Operation], the fields used here. *)
Record Operation (D : Type) := mkOperation {
  Deployment_ : option D;
  ReadPreference : option readpref.ReadPref;
  WriteConcern : option writeconcern.WriteConcern;
  Client : option session.Client;
  Clock : option session.ClusterClock;
  RetryType_ : RetryType
}.
Arguments mkOperation {D}.
Arguments Deployment_ {D}.
Arguments ReadPreference {D}.
Arguments WriteConcern {D}.
Arguments Client {D}.
Arguments Clock {D}.
Arguments RetryType_ {D}.

(** The four conditions of the retry decision. *)
Definition supportsRetry `{Deployment D} (op : Operation D) : bool :=
  match Deployment_ op with
  | Some d => SupportsRetry d
  | None => false
  end.

Definition inTransaction {D} (op : Operation D) : bool :=
  session.TransactionInProgress (Client op) || session.TransactionStarting (Client op).

(** Modelled from the spec: [(op Operation) retryable(desc)].  "Retryable
    only if the Deployment advertises retry support, AND the server's
    wire version range meets the minimum required for the classified
    RetryType, AND no transaction is currently starting or in progress on
    the session, AND - for writes - the write concern is acknowledged.  A
    configured RetryType of none never retries regardless of these
    conditions."  The write concern is looked at for a retryable write
    only; the minimum wire version is the one the retry table shows, for
    reads as for writes. *)
Definition retryable `{Deployment D} (op : Operation D) (desc : Server) : RetryType :=
  match RetryType_ op with
  | RetryNone => RetryNone
  | RetryRead =>
      if supportsRetry op
         && SessionsSupported (WireVersion desc)
         && negb (inTransaction op)
      then RetryRead
      else RetryNone
  | RetryWrite =>
      if supportsRetry op
         && SessionsSupported (WireVersion desc)
         && negb (inTransaction op)
         && writeconcern.AckWrite (WriteConcern op)
      then RetryWrite
      else RetryNone
  end.

(** Modelled from the spec: [(Operation) roundTrip(ctx, conn, wm)].
    "Writes the fully encoded command as one wire message and reads
    exactly one response wire message on the same connection.  Any write
    or read failure is wrapped into a uniform error carrying both a
    TransientTransactionError label and a NetworkError label"; "result
    value is the zero value on any error path". *)
Definition networkError (err : string) : Error :=
  mkError err [TransientTransactionError; NetworkError].

Definition roundTrip `{Connection C} (conn : C) (wm : bytes)
    : C * (bytes * option Error) :=
  let '(conn, err) := WriteWireMessage conn wm in
  match err with
  | Some err => (conn, ([], Some (networkError err)))
  | None =>
      let '(conn, (res, err)) := ReadWireMessage conn [] in
      match err with
      | Some err => (conn, ([], Some (networkError err)))
      | None => (conn, (res, None))
      end
  end.

(** Modelled from the spec: [updateClusterTimes(response)], "updates the
    cluster clock/session cluster time from response fields (no-op if
    the field is absent from the response or no session/clock is
    attached)". *)
Definition updateClusterTimes {D} (op : Operation D)
    (response : option session.ClusterTime) : Operation D :=
  match response with
  | None => op
  | Some ct =>
      mkOperation (Deployment_ op) (ReadPreference op) (WriteConcern op)
        ((fun c => session.Client_AdvanceClusterTime c ct) <$> Client op)
        ((fun cc => session.AdvanceClusterTime cc ct) <$> Clock op)
        (RetryType_ op)
  end.

(** Modelled from the spec: the cluster time a command is given, "the
    maximum of the clock's and the session's last-known value". *)
Definition addClusterTime {D} (op : Operation D) : option session.ClusterTime :=
  match Client op ≫= session.ClusterTime_, Clock op ≫= session.GetClusterTime with
  | Some a, Some b => session.MaxClusterTime (Some a) b
  | Some a, None => Some a
  | None, b => b
  end.

(** Modelled from the spec: [bsoncore] documents, elements in order
    (the byte encoding is outside the core). *)
#[warnings="-register-all"]
Inductive Value :=
| String_ (s : string)
| Int32 (n : Z)
| Array (l : list Value)
| EmbeddedDocument (d : list (string * Value)).

Definition Document := list (string * Value).

Definition modeDocument (mode : string) (rp : readpref.ReadPref) : Document :=
  [("mode"%string, String_ mode)]
  ++ match readpref.TagSets rp with
     | [] => []
     | sets =>
         [("tags"%string,
           Array (map (fun set => EmbeddedDocument
                                    (map (fun t => (t.1, String_ t.2)) set)) sets))]
     end
  ++ match readpref.MaxStaleness rp with
     | Some d => [("maxStalenessSeconds"%string, Int32 (d ÷ 1000000000))]
     | None => []
     end.

(** Modelled from the spec: [(op Operation) createReadPref(serverKind,
    topologyKind, isOpQuery)], which gives a document or nil.  The shape
    "depends on server kind/topology kind and whether the legacy query
    opcode or the modern message opcode is in use"; the cases are those
    of the table of TestOperation/createReadPref, every row of which is
    checked below. *)
Definition createReadPref {D} (op : Operation D) (serverKind : ServerKind)
    (topologyKind : TopologyKind) (isOpQuery : bool) : option Document :=
  match ReadPreference op with
  | None =>
      if bool_decide (topologyKind = Single) && negb (bool_decide (serverKind = Mongos))
      then Some [("mode"%string, String_ "primaryPreferred")]
      else None
  | Some rp =>
      match readpref.Mode_ rp with
      | readpref.PrimaryMode =>
          if bool_decide (serverKind = Mongos) then None
          else if bool_decide (topologyKind = Single)
          then Some [("mode"%string, String_ "primaryPreferred")]
          else Some (modeDocument "primary" rp)
      | readpref.PrimaryPreferredMode => Some (modeDocument "primaryPreferred" rp)
      | readpref.SecondaryPreferredMode =>
          if bool_decide (serverKind = Mongos) && isOpQuery
             && negb (bool_decide (is_Some (readpref.MaxStaleness rp)))
             && bool_decide (readpref.TagSets rp = [])
          then None
          else Some (modeDocument "secondaryPreferred" rp)
      | readpref.SecondaryMode => Some (modeDocument "secondary" rp)
      | readpref.NearestMode => Some (modeDocument "nearest" rp)
      end
  end.

(** *** The values of operation_test.go *)

Definition deploymentRetry : mockDeployment :=
  mkMockDeployment None None None true TopologyKind0.
Definition deploymentNoRetry : mockDeployment :=
  mkMockDeployment None None None false TopologyKind0.

Definition sess : session.Client :=
  session.mkClient 1 session.Explicit None session.None_ None None.
Definition sessStartingTransaction : session.Client :=
  session.mkClient 2 session.Explicit None session.Starting None None.
Definition sessInProgressTransaction : session.Client :=
  session.mkClient 3 session.Explicit None session.InProgress None None.

Definition wcAck : writeconcern.WriteConcern := writeconcern.New writeconcern.WMajority.
Definition wcUnack : writeconcern.WriteConcern := writeconcern.New (writeconcern.WNumber 0).

Definition descRetryable : Server := mkServer Unknown (Some (mkVersionRange 0 7)).
Definition descNotRetryable : Server := mkServer Unknown (Some (mkVersionRange 0 5)).

Definition operation (d : option mockDeployment) (client : option session.Client)
    (wc : option writeconcern.WriteConcern) (rt : RetryType) : Operation mockDeployment :=
  mkOperation d None wc client None rt.

Definition mock (rWriteErr : option string) (rReadWM : bytes)
    (rReadErr : option string) : mockConnection :=
  mkMockConnection [] [] rWriteErr rReadWM rReadErr (mkServer Unknown None) None
                   EmptyString EmptyString.

(** The cluster times of TestOperation/addClusterTime. *)
Definition older : session.ClusterTime := session.mkClusterTime 1234 5670 [].
Definition newer : session.ClusterTime := session.mkClusterTime 1234 5678 [].

Definition withPref (rp : option readpref.ReadPref) : Operation mockDeployment :=
  mkOperation None rp None None None RetryNone.

Definition rp (mode : string) : option Document :=
  Some [("mode"%string, String_ mode)].

End Driver.

(** ** The bookkeeping of the pool *)

Module PoolBook.
Import Pool.

(** [co] is a connection of the pool [w]: [co.pool == p]. *)
Definition own (w : world) (co : connection) : Prop := c_pool co = Some (w_self w).

(** The opened map accounts for the open connections: an entry is an
    open connection of the pool under its own id; an open connection of
    the pool has its entry; the ids handed out so far are those up to
    [p.nextid], one per connection. *)
Definition accounting (w : world) : Prop :=
  (∀ k c, p_opened (w_pool w) !! k = Some c →
          ∃ co, w_heap w !! c = Some co ∧ own w co ∧ c_poolID co = k
                ∧ c_nc co ≠ None)
  ∧ (∀ c co, w_heap w !! c = Some co → own w co → c_nc co ≠ None →
             p_opened (w_pool w) !! c_poolID co = Some c)
  ∧ (∀ c co, w_heap w !! c = Some co → own w co →
             c_poolID co <= p_nextid (w_pool w))
  ∧ (∀ c c' co co', w_heap w !! c = Some co → w_heap w !! c' = Some co' →
                    own w co → own w co' → c_poolID co = c_poolID co' → c = c')
  ∧ 0 <= p_nextid (w_pool w).

(** The idle channel holds no more connections than its capacity. *)
Definition bounded (w : world) : Prop :=
  (length (p_conns (w_pool w)) <= p_size (w_pool w))%nat.

(** What is relied on of the goroutines that run while a [get] is inside
    [newConnection], for a property [P] of the pool: they keep it. *)
Definition keeps (P : world -> Prop) (k : call) : Prop :=
  match k with
  | Get E _ => ∀ w, P w → P (during_dial E w)
  | _ => True
  end.

(** The id counter has not reached its last 64-bit value when a [get]
    called in [w] makes a connection ([get] itself leaves the counter
    alone until then). *)
Definition ids_left (k : call) (w : world) : Prop :=
  match k with
  | Get E _ => ∀ w', p_nextid (w_pool w') = p_nextid (w_pool w) →
                     p_nextid (w_pool (during_dial E w')) < uint64_max
  | _ => True
  end.

(** A sequence of calls each of which keeps the accounts and finds an id
    left. *)
Fixpoint orderly (ks : list call) (w : world) : Prop :=
  match ks with
  | [] => True
  | k :: ks => keeps accounting k ∧ ids_left k w ∧ orderly ks (run k w)
  end.

(** No connection of the pool is open. *)
Definition all_closed (w : world) : Prop :=
  ∀ c co, w_heap w !! c = Some co → own w co → c_nc co = None.

(** A context that has been cancelled. *)
Definition cancelled : context := mkContext (Some Canceled) None.

End PoolBook.

(** ** What a dispatched call does, as a whole *)

Module LegacyBook.
Import Legacy.

(** What an event does, the events of the goroutine it starts in place
    of a [Go]; and everything a trace does, its goroutines included. *)
Fixpoint inside (e : event) : list event :=
  match e with
  | Go task => flat_map inside task
  | _ => [e]
  end.

Definition everything (t : list event) : list event := flat_map inside t.

(** The connections a trace closes, one entry for each [conn.Close()]. *)
Definition closes (t : list event) : list Connection :=
  omap (fun e => match e with Close_ conn => Some conn | _ => None end) (everything t).

(** The round trips of a trace: the server description and the
    connection of each. *)
Definition roundTrips (t : list event) : list (description.SelectedServer * Connection) :=
  omap (fun e => match e with
                 | RoundTrip_ _ _ _ desc conn => Some (desc, conn)
                 | _ => None
                 end) (everything t).

(** The events by which a session is made or ended. *)
Definition sessionEvent (e : event) : Prop :=
  match e with
  | NewClientSession_ _ | EndSession_ _ => True
  | _ => False
  end.

(** The selector a call was given. *)
Definition given (d : dispatch) : option ServerSelector :=
  match d with
  | CallRead _ selector | CallWrite _ selector | CallDropCollection _ selector => selector
  | CallCountDocuments _ selector _ => selector
  | CallDropIndexes _ selector _ => selector
  | CallListDatabases _ selector _ => selector
  end.

(** The selector a call hands to [topo.SelectServerLegacy]: [Read],
    [Write] and [CountDocuments] replace the one they were given by the
    pinned server of the session; the other three have no such
    statement. *)
Definition selects (d : dispatch) : option ServerSelector :=
  match d with
  | CallRead cmd selector | CallWrite cmd selector => pinned cmd selector
  | CallCountDocuments cmd selector _ => pinned cmd selector
  | CallDropIndexes _ selector _ => selector
  | CallListDatabases _ selector _ => selector
  | CallDropCollection _ selector => selector
  end.

(** The server and the connection a call gets, when it gets them. *)
Definition obtained (topo : Topology) (d : dispatch) : option (SelectedServer * Connection) :=
  match SelectServerLegacy topo (selects d) with
  | inr ss => match ConnectionLegacy ss with
              | inr conn => Some (ss, conn)
              | inl _ => None
              end
  | inl _ => None
  end.

(** How a call ends: the error it returns ([None]: it returns nil), or
    a panic. *)
Inductive ending := Panicked | Returned (err : option error).

Definition how {R} (r : run R) : ending :=
  match r.1 with
  | Returns _ err => Returned err
  | Panics => Panicked
  end.

Definition ends (env : Env) (topo : Topology) (d : dispatch) : ending :=
  match d with
  | CallRead cmd selector => how (Read env cmd topo selector)
  | CallWrite cmd selector => how (Write env cmd topo selector)
  | CallCountDocuments cmd selector o => how (CountDocuments env cmd topo selector o)
  | CallDropIndexes cmd selector o => how (DropIndexes env cmd topo selector o)
  | CallListDatabases cmd selector o => how (ListDatabases env cmd topo selector o)
  | CallDropCollection cmd selector => how (DropCollection env cmd topo selector)
  end.

(** Where [CountDocuments] returns between the session block and the
    round trip: at a collation for a server whose wire versions end
    below 5 (or whose description has none, where it panics), and at a
    collation or a hint that cannot be encoded. *)
Definition optionsStop (o : CountOptions.t) (desc : description.SelectedServer) : Prop :=
  match CountOptions.Collation o with
  | Some collation =>
      match description.WireVersion (description.Server_ desc) with
      | None => True
      | Some v => description.Max v < 5 ∨ ∃ err, collation = inl err
      end
  | None => False
  end
  ∨ ∃ err, CountOptions.Hint o = Some (inl err).

(** *** More calls to try the functions on *)

(** A session pinned to a server, and a session whose transaction is in
    progress with a read preference of its own. *)
Definition pinnedTo (ps : string) : session.Client :=
  session.mkClient 3 session.Explicit (Some ps) session.None_ None None.

Definition txnWith (rp : option readpref.ReadPref) : session.Client :=
  session.mkClient 3 session.Explicit None session.InProgress rp None.

(** A session package that fails to make a session. *)
Definition noSession : Env := mkEnv (fun _ => inl (Reported "no session")).

(** A server whose wire versions end at 4, and a topology that selects
    it. *)
Definition oldServer : SelectedServer :=
  mkSelectedServer
    (description.mkSelectedServer
       (description.mkServer description.Standalone
          (Some (description.mkVersionRange 0 4)))
       description.Single)
    (inr 1%nat).

Definition topoOld : Topology := mkTopology (fun _ => inr oldServer) true.

End LegacyBook.

(** ** x/mongo/driver: [CommandOperation] *)

Module CommandOperation.

(** [bsoncore.Document] and [[]byte]. *)
Definition bytes := list Z.

(** [type CommandOperation struct], the fields its own methods read and
    write; [d] is the Deployment, nil until it is set. *)
Record t (D : Type) := mk {
  cmd : bytes;
  database : string;
  d : option D;
  result : bytes
}.
Arguments mk {D}.
Arguments cmd {D}.
Arguments database {D}.
Arguments d {D}.
Arguments result {D}.

(** The slice expression [s[lo:hi]] of Go: the elements from index [lo]
    up to, not including, index [hi]; it panics ([None]) unless
    [0 <= lo <= hi <= len(s)] (no slice here is longer than its
    capacity allows). *)
Definition slice (s : bytes) (lo hi : Z) : option bytes :=
  if (0 <=? lo) && (lo <=? hi) && (hi <=? Z.of_nat (length s))
  then Some (take (Z.to_nat hi - Z.to_nat lo) (drop (Z.to_nat lo) s))
  else None.

(** [func (co *CommandOperation) Result() bsoncore.Document]. *)
Definition Result {D} (co : t D) : bytes := result co.

(** [func (co *CommandOperation) processResponse(response, _) error]. *)
Definition processResponse {D} (co : t D) (response : bytes) : t D * option string :=
  (mk (cmd co) (database co) (d co) response, None).

(** [func (co *CommandOperation) command(dst, _) ([]byte, error)]:
    [return append(dst, co.cmd[4:len(co.cmd)-1]...), nil]. *)
Definition command {D} (co : t D) (dst : bytes) : option (bytes * option string) :=
  match slice (cmd co) 4 (Z.of_nat (length (cmd co)) - 1) with
  | Some elems => Some (dst ++ elems, None)
  | None => None
  end.

(** The empty document: a length of 5 in four bytes and the closing 0. *)
Definition emptyDocument : bytes := [5; 0; 0; 0; 0].

End CommandOperation.

(** * Properties of the pool *)

Module PoolFacts.
Import Pool.

Lemma AddUint64_grows (g : Z) : g < uint64_max -> g < AddUint64 g 1.
Proof.
  unfold AddUint64, uint64_max. intros H.
  destruct (Z_lt_le_dec g 0) as [Hneg | Hpos].
  - pose proof (Z.mod_pos_bound (g + 1) (2 ^ 64)). lia.
  - rewrite Z.mod_small; lia.
Qed.

(** **** [close] *)

(** [close] touches the opened map and the transport of [c], nothing
    else. *)
Lemma close_pool_fields c w :
  let w' := (close c w).1 in
  w_self w' = w_self w
  ∧ p_generation (w_pool w') = p_generation (w_pool w)
  ∧ p_connected (w_pool w') = p_connected (w_pool w)
  ∧ p_conns (w_pool w') = p_conns (w_pool w)
  ∧ p_nextid (w_pool w') = p_nextid (w_pool w)
  ∧ p_size (w_pool w') = p_size (w_pool w).
Proof.
  unfold close. destruct (w_heap w !! c) as [co|]; [|done].
  destruct (decide _); [|done].
  destruct (c_nc co) as [nc|]; [|done].
  destruct (nc_Close nc); done.
Qed.

Lemma close_heap c w a :
  w_heap (close c w).1 !! a = w_heap w !! a
  ∨ ∃ co, a = c ∧ w_heap w !! c = Some co
          ∧ c_pool co = Some (w_self w)
          ∧ w_heap (close c w).1 !! a = Some (set_nc None co).
Proof.
  unfold close. destruct (w_heap w !! c) as [co|] eqn:Hc; [|by left].
  destruct (decide _) as [Hp|]; [|by left].
  destruct (c_nc co) as [nc|]; [|by left].
  destruct (decide (a = c)) as [->|Hne].
  - right. exists co. destruct (nc_Close nc); simpl; by rewrite lookup_insert_eq.
  - left. destruct (nc_Close nc); simpl; by rewrite lookup_insert_ne.
Qed.

(** Of every object [close] keeps the pool, the id and the generation. *)
Lemma close_heap_static c w a co :
  w_heap w !! a = Some co ->
  ∃ co', w_heap (close c w).1 !! a = Some co'
         ∧ c_pool co' = c_pool co ∧ c_poolID co' = c_poolID co
         ∧ c_generation co' = c_generation co
         ∧ (c_nc co = None -> c_nc co' = None).
Proof.
  intros Ha. destruct (close_heap c w a) as [Heq | (co0 & -> & Hc & _ & Hnew)].
  - exists co. by rewrite Heq.
  - exists (set_nc None co0). rewrite Hnew. rewrite Ha in Hc. by inversion Hc.
Qed.

Lemma close_heap_back c w a co' :
  w_heap (close c w).1 !! a = Some co' ->
  ∃ co, w_heap w !! a = Some co
        ∧ c_pool co' = c_pool co ∧ c_poolID co' = c_poolID co
        ∧ c_generation co' = c_generation co.
Proof.
  intros Ha. destruct (close_heap c w a) as [Heq | (co0 & -> & Hc & _ & Hnew)].
  - exists co'. by rewrite <- Heq.
  - exists co0. rewrite Hnew in Ha. inversion Ha. by subst.
Qed.

(** A connection of the pool is closed and unregistered by [close]. *)
Lemma close_closes c w co :
  w_heap w !! c = Some co -> c_pool co = Some (w_self w) ->
  ∃ co', w_heap (close c w).1 !! c = Some co' ∧ c_nc co' = None
         ∧ c_poolID co' = c_poolID co
         ∧ p_opened (w_pool (close c w).1) = delete (c_poolID co) (p_opened (w_pool w)).
Proof.
  intros Hc Hp. unfold close. rewrite Hc. rewrite decide_True by done.
  destruct (c_nc co) as [nc|] eqn:Hnc.
  - exists (set_nc None co).
    destruct (nc_Close nc); simpl; by rewrite lookup_insert_eq.
  - exists co. by simpl.
Qed.

Lemma close_wf c w : wf w -> wf (close c w).1.
Proof.
  intros [Hidle Hgen].
  destruct (close_pool_fields c w) as (Hs & Hg & _ & Hq & _). split.
  - intros a Ha. rewrite Hq in Ha. destruct (Hidle a Ha) as (co & Hco & Hp).
    destruct (close_heap_static c w a co Hco) as (co' & Hco' & Hp' & _).
    exists co'. split; [done|]. by rewrite Hp', Hs.
  - intros a co' Ha Hp.
    destruct (close_heap_back c w a co' Ha) as (co & Hco & Hp' & _ & Hg').
    rewrite Hg, Hg'. apply (Hgen a co Hco). by rewrite <- Hp', <- Hs.
Qed.

(** **** Folds of [close] and [put] *)

Lemma close_quiet c : quiet_step (fun w => (close c w).1).
Proof.
  intros w. destruct (close_pool_fields c w) as (Hs & Hg & Hc & _).
  split; [apply close_wf | done].
Qed.

Lemma set_conns_sub_wf q w :
  (∀ c, c ∈ q -> c ∈ p_conns (w_pool w)) -> wf w -> wf (with_pool (set_conns q) w).
Proof.
  intros Hsub [Hidle Hgen]. split; [|exact Hgen].
  intros c Hc. apply Hidle, Hsub, Hc.
Qed.

Lemma put_cases c w :
  (put c w).1 = w ∨ (put c w).1 = (close c w).1
  ∨ (∃ co, w_heap w !! c = Some co ∧ c_pool co = Some (w_self w)
           ∧ p_connected (w_pool w) = connected ∧ conn_expired w c = false
           ∧ (put c w).1 = with_pool (fun p => set_conns (p_conns p ++ [c]) p) w).
Proof.
  unfold put. destruct (w_heap w !! c) as [co|] eqn:Hc; [|by left].
  destruct (decide _) as [Hp|]; [|by left].
  destruct (bool_decide _) eqn:Hconn; simpl; [|by right; left].
  destruct (conn_expired w c) eqn:Hexp; [by right; left|].
  destruct (_ <? _)%nat; [|by right; left].
  right; right. exists co. apply bool_decide_eq_true in Hconn. done.
Qed.

Lemma put_quiet c : quiet_step (fun w => (put c w).1).
Proof.
  intros w. destruct (put_cases c w) as [-> | [-> | (co & Hc & Hp & _ & _ & ->)]].
  - done.
  - apply close_quiet.
  - split; [|done]. intros [Hidle Hgen]. split; [|exact Hgen].
    intros a Ha. simpl in Ha. apply elem_of_app in Ha as [Ha | Ha].
    + by apply Hidle.
    + apply list_elem_of_singleton in Ha as ->. by exists co.
Qed.

Lemma foldl_quiet (f : addr -> world -> world) l :
  (∀ c, quiet_step (f c)) -> quiet_step (fun w => foldl (fun w c => f c w) w l).
Proof.
  intros Hf. induction l as [|c l IH] using rev_ind; intros w; [done|].
  rewrite foldl_app. simpl.
  destruct (IH w) as (H1 & H2 & H3 & H4).
  destruct (Hf c (foldl (fun w c => f c w) w l)) as (G1 & G2 & G3 & G4).
  cbv beta in *. split_and!; [auto | congruence ..].
Qed.

Lemma putAll_quiet l : quiet_step (putAll l).
Proof. apply (foldl_quiet (fun c w => (put c w).1)), put_quiet. Qed.

Lemma closeAll_quiet l : quiet_step (closeAll l).
Proof. apply (foldl_quiet (fun c w => (close c w).1)), close_quiet. Qed.

Lemma closeIdle_quiet q w :
  (∀ c, c ∈ q -> c ∈ p_conns (w_pool w)) ->
  (wf w -> wf (closeIdle q w)) ∧ gen (closeIdle q w) = gen w
  ∧ p_connected (w_pool (closeIdle q w)) = p_connected (w_pool w)
  ∧ w_self (closeIdle q w) = w_self w
  ∧ p_conns (w_pool (closeIdle q w)) = match q with [] => p_conns (w_pool w) | _ => [] end.
Proof.
  revert w. induction q as [|pc q IH]; intros w Hsub; [done|]. simpl.
  set (w1 := with_pool (set_conns q) w).
  destruct (close_pool_fields pc w1) as (Hs & Hg & Hc & Hq & _).
  destruct (IH (close pc w1).1) as (H1 & H2 & H3 & H4 & H5).
  { intros c Hc'. rewrite Hq. exact Hc'. }
  split_and!.
  - intros Hwf. apply H1, close_wf, set_conns_sub_wf; [|done].
    intros c Hc'. apply Hsub. by right.
  - unfold gen in *. rewrite H2, Hg. reflexivity.
  - rewrite H3, Hc. reflexivity.
  - rewrite H4, Hs. reflexivity.
  - rewrite H5, Hq. simpl. by destruct q.
Qed.

Lemma waitLoop_quiet E fires ticks k : quiet_step (fun w => (waitLoop E fires ticks k w).1).
Proof.
  revert k. induction ticks as [|n IH]; intros k w; simpl.
  - apply putAll_quiet.
  - destruct (putAll_quiet (returned E k) w) as (H1 & H2 & H3 & H4).
    destruct (_ <? _)%nat; [|done].
    destruct (IH (S k) (putAll (returned E k) w)) as (G1 & G2 & G3 & G4).
    cbv beta in *. split_and!; [auto | congruence ..].
Qed.

Lemma gracefulWait_quiet E dl : quiet_step (fun w => (gracefulWait E dl w).1).
Proof.
  intros w. unfold gracefulWait. destruct (_ <=? _); [done|].
  apply waitLoop_quiet.
Qed.

(** **** [get] *)

Lemma fresh_heap (h : gmap addr connection) : h !! fresh (dom h) = None.
Proof. apply not_elem_of_dom, is_fresh. Qed.

(** The outcomes of the [default:] case. *)
Lemma get_new_cases E w :
  let w1 := during_dial E w in
  (∃ e, newConnection E w1 = DialFail e ∧ get_new E w = (w1, (None, Some e)))
  ∨ (∃ id nc,
       newConnection E w1 = DialOk id nc ∧
       let c := fresh (dom (w_heap w1)) in
       let poolID := AddUint64 (p_nextid (w_pool w1)) 1 in
       let co := mkConnection (Some (w_self w1)) poolID (gen w1) id (Some nc) in
       let w2 := mkWorld (w_self w1) (set_nextid poolID (w_pool w1))
                         (<[c := co]> (w_heap w1)) in
       (p_connected (w_pool w1) = connected ∧
        get_new E w =
          (with_pool (fun p => set_opened (<[poolID := c]> (p_opened p)) p) w2,
           (Some c, None)))
       ∨ (p_connected (w_pool w1) ≠ connected ∧
          get_new E w = ((close c w2).1, (None, Some ErrPoolDisconnected)))).
Proof.
  unfold get_new. cbv zeta. destruct (newConnection E (during_dial E w)) as [e | id nc].
  - left. by exists e.
  - right. exists id, nc. split; [done|]. simpl.
    destruct (decide _) as [Hc | Hc]; [left | right]; done.
Qed.

(** Allocating the new connection keeps the invariant. *)
Lemma alloc_wf w id nc poolID :
  wf w ->
  wf (mkWorld (w_self w) (set_nextid poolID (w_pool w))
        (<[fresh (dom (w_heap w)) :=
             mkConnection (Some (w_self w)) poolID (gen w) id (Some nc)]> (w_heap w))).
Proof.
  intros [Hidle Hgen]. pose proof (fresh_heap (w_heap w)) as Hfresh.
  split; simpl.
  - intros a Ha. destruct (Hidle a Ha) as (co & Hco & Hp). exists co.
    split; [|done]. rewrite lookup_insert_ne; [done|]. congruence.
  - intros a co Ha Hp. destruct (decide (a = fresh (dom (w_heap w)))) as [->|Hne].
    + rewrite lookup_insert_eq in Ha. inversion Ha. simpl. unfold gen. lia.
    + rewrite lookup_insert_ne in Ha by done. by apply (Hgen a co).
Qed.

Lemma set_opened_wf o w : wf w -> wf (with_pool (set_opened o) w).
Proof. intros [Hidle Hgen]. by split. Qed.

Lemma get_new_sound E w :
  steady E ->
  (wf w -> wf (get_new E w).1) ∧ gen w <= gen (get_new E w).1.
Proof.
  intros HE. destruct (HE w) as (Hwf & Hgen & _). fold (gen w) in Hgen.
  fold (gen (during_dial E w)) in Hgen.
  destruct (get_new_cases E w) as [(e & _ & ->) | (id & nc & _ & [[_ ->] | [_ ->]])];
    cbv zeta; simpl fst.
  - done.
  - split; [|exact Hgen]. intros H.
    apply (set_opened_wf _ (mkWorld _ _ _)), alloc_wf, Hwf, H.
  - match goal with |- context [close ?c ?w2] =>
      destruct (close_quiet c w2) as (K1 & K2 & _) end.
    cbv beta in *. split.
    + intros H. apply K1, alloc_wf, Hwf, H.
    + rewrite K2. exact Hgen.
Qed.

Local Ltac unchanged := simpl; split; [done | lia].

Lemma get_loop_sound E ctx q : ∀ n w,
  steady E ->
  (∀ c, c ∈ q -> c ∈ p_conns (w_pool w)) ->
  (wf w -> wf (get_loop E ctx n q w).1) ∧ gen w <= gen (get_loop E ctx n q w).1.
Proof.
  induction q as [|c q IH]; intros n w HE Hsub; simpl.
  - destruct (decide _); [|unchanged].
    destruct (ctx_Err ctx); [unchanged|]. by apply get_new_sound.
  - destruct (decide _); [|unchanged].
    set (w1 := with_pool (set_conns q) w).
    assert (Hw1 : wf w -> wf w1).
    { apply set_conns_sub_wf. intros a Ha. apply Hsub. by right. }
    assert (Hrecv :
      (wf w -> wf (if conn_expired w1 c then get_loop E ctx (S n) q (close c w1).1
                   else (w1, (Some c, None))).1)
      ∧ gen w <= gen (if conn_expired w1 c then get_loop E ctx (S n) q (close c w1).1
                      else (w1, (Some c, None))).1).
    { destruct (conn_expired w1 c).
      - destruct (close_pool_fields c w1) as (_ & Hg & _ & Hq & _).
        destruct (IH (S n) (close c w1).1 HE) as [K1 K2].
        { intros a Ha. rewrite Hq. exact Ha. }
        split.
        + intros H. apply K1, close_wf, Hw1, H.
        + unfold gen in *. rewrite Hg in K2. exact K2.
      - split; [exact Hw1 | unfold gen; simpl; lia]. }
    destruct (ctx_Err ctx); [|exact Hrecv].
    destruct (pick E n); [exact Hrecv | unchanged].
Qed.

(** A connection that [get] hands out is an object of this pool stamped
    with the pool's current generation. *)
Lemma get_loop_returns E ctx q : ∀ n w w1 c,
  (∀ a, a ∈ q -> a ∈ p_conns (w_pool w)) ->
  wf w ->
  get_loop E ctx n q w = (w1, (Some c, None)) ->
  ∃ co, w_heap w1 !! c = Some co ∧ c_pool co = Some (w_self w1)
        ∧ c_generation co = gen w1.
Proof.
  induction q as [|a q IH]; intros n w w1 c Hsub Hwf; simpl.
  - destruct (decide _); [|done]. destruct (ctx_Err ctx); [done|].
    destruct (get_new_cases E w) as [(err & _ & ->) | (id & nc & _ & [[_ ->] | [_ ->]])];
      cbv zeta; [done | | done].
    intros [= <- <-]. eexists. simpl. rewrite lookup_insert_eq. done.
  - destruct (decide _); [|done].
    set (w0 := with_pool (set_conns q) w).
    assert (Hw0 : wf w0).
    { apply set_conns_sub_wf; [|done]. intros b Hb. apply Hsub. by right. }
    assert (Hrecv :
      (if conn_expired w0 a then get_loop E ctx (S n) q (close a w0).1
       else (w0, (Some a, None))) = (w1, (Some c, None)) ->
      ∃ co, w_heap w1 !! c = Some co ∧ c_pool co = Some (w_self w1)
            ∧ c_generation co = gen w1).
    { destruct (conn_expired w0 a) eqn:Hexp.
      - apply IH; [|by apply close_wf].
        destruct (close_pool_fields a w0) as (_ & _ & _ & Hq & _).
        intros b Hb. rewrite Hq. exact Hb.
      - intros [= <- <-]. destruct Hwf as [Hidle Hgen].
        destruct (Hidle a) as (co & Hco & Hp); [apply Hsub; by left|].
        exists co. split_and!; [done | done |].
        unfold conn_expired, expired in Hexp. simpl in Hexp.
        rewrite Hco in Hexp. apply Z.ltb_ge in Hexp.
        pose proof (Hgen a co Hco Hp). unfold gen. simpl. lia. }
    destruct (ctx_Err ctx); [|exact Hrecv].
    destruct (pick E n); [exact Hrecv | done].
Qed.

(** **** The invariant and the generation over every call *)

Lemma newPool_wf self address size : wf (newPool self address size).
Proof. split; [intros c Hc; by apply elem_of_nil in Hc | intros c co Hc; done]. Qed.

Lemma set_connected_wf s w : wf w -> wf (with_pool (set_connected s) w).
Proof. intros [Hidle Hgen]. by split. Qed.

Lemma bump_wf w :
  gen w < uint64_max ->
  wf w -> wf (with_pool (fun p => set_generation (AddUint64 (p_generation p) 1) p) w).
Proof.
  intros Hmax [Hidle Hgen]. split; [exact Hidle|].
  intros c co Hc Hp. simpl. pose proof (Hgen c co Hc Hp).
  pose proof (AddUint64_grows _ Hmax). unfold gen in *. lia.
Qed.

Lemma disconnect_sound E ctx w :
  (wf w -> wf (disconnect E ctx w).1) ∧ gen (disconnect E ctx w).1 = gen w.
Proof.
  unfold disconnect. destruct (decide _) as [Hc|]; [|done]. simpl fst.
  set (w1 := with_pool (set_connected disconnecting) w).
  destruct (closeIdle_quiet (p_conns (w_pool w1)) w1) as (I1 & I2 & _); [done|].
  assert (Hb : (wf w -> wf (beforeForceClose E ctx w).1)
               ∧ gen (beforeForceClose E ctx w).1 = gen w).
  { unfold beforeForceClose. fold w1. destruct (ctx_Deadline ctx) as [dl|].
    - destruct (gracefulWait_quiet E dl (closeIdle (p_conns (w_pool w1)) w1))
        as (G1 & G2 & _). cbv beta in *. split.
      + intros H. by apply G1, I1, set_connected_wf.
      + by rewrite G2, I2.
    - simpl. split; [|done]. intros H. by apply I1, set_connected_wf. }
  destruct Hb as [B1 B2].
  destruct (closeAll_quiet (toClose (beforeForceClose E ctx w).1)
              (beforeForceClose E ctx w).1) as (C1 & C2 & _).
  split.
  - intros H. by apply set_connected_wf, C1, B1.
  - unfold gen in *. simpl. by rewrite C2, B2.
Qed.

(** Every call keeps the invariant and leaves the generation where it was
    or above, as long as the 64-bit counter has not reached its last
    value. *)
Lemma run_sound k w :
  gen w < uint64_max -> relies k ->
  (wf w -> wf (run k w)) ∧ gen w <= gen (run k w).
Proof.
  intros Hmax Hk. destruct k as [| |E ctx|E ctx|c|c]; simpl.
  - unfold connect. destruct (decide _); simpl; [|split; [done | lia]]. split.
    + intros H. by apply (bump_wf (with_pool (set_connected connected) w)),
                         set_connected_wf.
    + pose proof (AddUint64_grows _ Hmax). unfold gen in *. simpl. lia.
  - split; [by apply bump_wf|].
    pose proof (AddUint64_grows _ Hmax). unfold gen in *. simpl. lia.
  - destruct (disconnect_sound E ctx w) as [H1 H2]. split; [done | lia].
  - by apply get_loop_sound.
  - destruct (put_quiet c w) as (H1 & H2 & _). cbv beta in *. split; [done | lia].
  - destruct (close_quiet c w) as (H1 & H2 & _). cbv beta in *. split; [done | lia].
Qed.

(** **** [get] on a pool that is not connected *)

Lemma conn_expired_close a c w :
  conn_expired (close a w).1 c = conn_expired w c.
Proof.
  unfold conn_expired, expired.
  destruct (close_pool_fields a w) as (_ & -> & _).
  destruct (w_heap w !! c) as [co|] eqn:Hc.
  - destruct (close_heap_static a w c co Hc) as (co' & -> & _ & _ & -> & _). done.
  - destruct (w_heap (close a w).1 !! c) as [co'|] eqn:Hc'; [|done].
    destruct (close_heap_back a w c co' Hc') as (co & Hco & _). congruence.
Qed.

(** With nothing usable in the channel and a live context, [get] ends in
    the [default:] case, the expired idle connections closed. *)
Lemma get_loop_all_expired E ctx q : ∀ n w,
  p_connected (w_pool w) = connected ->
  ctx_Err ctx = None ->
  Forall (fun c => conn_expired w c = true) q ->
  get_loop E ctx n q w = get_new E (closeIdle q w).
Proof.
  induction q as [|c q IH]; intros n w Hconn Hctx Hall; simpl.
  - rewrite decide_True by done. by rewrite Hctx.
  - rewrite decide_True by done. rewrite Hctx.
    apply Forall_cons in Hall as [Hc Hq].
    assert (conn_expired (with_pool (set_conns q) w) c = true) as -> by exact Hc.
    apply IH; [|done|].
    + by destruct (close_pool_fields c (with_pool (set_conns q) w)) as (_ & _ & -> & _).
    + eapply Forall_impl; [exact Hq|]. intros a Ha. simpl.
      by rewrite conn_expired_close.
Qed.

(** **** Connections keep their pool, id and generation *)

Lemma keeps_refl w : keeps_objects w w.
Proof. split; [done|]. intros a co Ha. by exists co. Qed.

Lemma keeps_trans w1 w2 w3 :
  keeps_objects w1 w2 -> keeps_objects w2 w3 -> keeps_objects w1 w3.
Proof.
  intros [Hs1 H1] [Hs2 H2]. split; [congruence|].
  intros a co Ha. destruct (H1 a co Ha) as (co' & Ha' & ? & ? & ?).
  destruct (H2 a co' Ha') as (co'' & Ha'' & ? & ? & ?).
  exists co''. split_and!; congruence.
Qed.

Lemma with_pool_keeps f w : keeps_objects w (with_pool f w).
Proof. split; [done|]. intros a co Ha. by exists co. Qed.

Lemma close_keeps c w : keeps_objects w (close c w).1.
Proof.
  split; [by destruct (close_pool_fields c w) as (-> & _)|].
  intros a co Ha.
  destruct (close_heap_static c w a co Ha) as (co' & ? & ? & ? & ? & _).
  by exists co'.
Qed.

Lemma put_keeps c w : keeps_objects w (put c w).1.
Proof.
  destruct (put_cases c w) as [-> | [-> | (co & _ & _ & _ & _ & ->)]].
  - apply keeps_refl.
  - apply close_keeps.
  - apply with_pool_keeps.
Qed.

Lemma foldl_keeps (f : addr -> world -> world) l :
  (∀ c w, keeps_objects w (f c w)) ->
  ∀ w, keeps_objects w (foldl (fun w c => f c w) w l).
Proof.
  intros Hf. induction l as [|c l IH] using rev_ind; intros w; [apply keeps_refl|].
  rewrite foldl_app. simpl. eapply keeps_trans; [apply IH | apply Hf].
Qed.

Lemma closeIdle_keeps q : ∀ w, keeps_objects w (closeIdle q w).
Proof.
  induction q as [|pc q IH]; intros w; simpl; [apply keeps_refl|].
  eapply keeps_trans; [|apply IH].
  eapply keeps_trans; [apply (with_pool_keeps (set_conns q)) | apply close_keeps].
Qed.

Lemma waitLoop_keeps E fires ticks : ∀ k w, keeps_objects w (waitLoop E fires ticks k w).1.
Proof.
  induction ticks as [|n IH]; intros k w; simpl.
  - apply (foldl_keeps (fun c w => (put c w).1)), put_keeps.
  - destruct (_ <? _)%nat.
    + eapply keeps_trans; [|apply IH].
      apply (foldl_keeps (fun c w => (put c w).1)), put_keeps.
    + apply (foldl_keeps (fun c w => (put c w).1)), put_keeps.
Qed.

Lemma disconnect_keeps E ctx w : keeps_objects w (disconnect E ctx w).1.
Proof.
  unfold disconnect. destruct (decide _); [|apply keeps_refl]. simpl fst.
  eapply keeps_trans; [|apply with_pool_keeps].
  eapply keeps_trans; [|apply (foldl_keeps (fun c w => (close c w).1)), close_keeps].
  unfold beforeForceClose.
  set (w1 := with_pool (set_connected disconnecting) w).
  assert (H1 : keeps_objects w (closeIdle (p_conns (w_pool w1)) w1)).
  { eapply keeps_trans; [apply (with_pool_keeps (set_connected disconnecting))|].
    apply closeIdle_keeps. }
  destruct (ctx_Deadline ctx) as [dl|]; [|exact H1].
  eapply keeps_trans; [exact H1|]. unfold gracefulWait.
  destruct (_ <=? _); [apply keeps_refl | apply waitLoop_keeps].
Qed.

Lemma get_new_keeps E w : steady E -> keeps_objects w (get_new E w).1.
Proof.
  intros HE. destruct (HE w) as (_ & _ & Hdial).
  eapply keeps_trans; [exact Hdial|].
  assert (Halloc : ∀ id nc poolID,
    keeps_objects (during_dial E w)
      (mkWorld (w_self (during_dial E w)) (set_nextid poolID (w_pool (during_dial E w)))
         (<[fresh (dom (w_heap (during_dial E w))) :=
              mkConnection (Some (w_self (during_dial E w))) poolID
                (gen (during_dial E w)) id (Some nc)]> (w_heap (during_dial E w))))).
  { intros id nc poolID. split; [done|]. intros a co Ha. exists co. simpl.
    split; [|done]. rewrite lookup_insert_ne; [done|].
    intros <-. by rewrite fresh_heap in Ha. }
  destruct (get_new_cases E w) as [(e & _ & ->) | (id & nc & _ & [[_ ->] | [_ ->]])];
    cbv zeta; simpl fst.
  - apply keeps_refl.
  - eapply keeps_trans; [apply Halloc | apply with_pool_keeps].
  - eapply keeps_trans; [apply Halloc | apply close_keeps].
Qed.

Lemma get_loop_keeps E ctx q : ∀ n w,
  steady E -> keeps_objects w (get_loop E ctx n q w).1.
Proof.
  induction q as [|c q IH]; intros n w HE; simpl.
  - destruct (decide _); [|apply keeps_refl].
    destruct (ctx_Err ctx); [apply keeps_refl | by apply get_new_keeps].
  - destruct (decide _); [|apply keeps_refl].
    set (w1 := with_pool (set_conns q) w).
    assert (Hrecv : keeps_objects w
              (if conn_expired w1 c then get_loop E ctx (S n) q (close c w1).1
               else (w1, (Some c, None))).1).
    { destruct (conn_expired w1 c).
      - eapply keeps_trans; [|by apply IH].
        eapply keeps_trans; [apply (with_pool_keeps (set_conns q)) | apply close_keeps].
      - apply with_pool_keeps. }
    destruct (ctx_Err ctx); [|exact Hrecv].
    destruct (pick E n); [exact Hrecv | apply keeps_refl].
Qed.

Lemma run_keeps k w : relies k -> keeps_objects w (run k w).
Proof.
  intros Hk. destruct k as [| |E ctx|E ctx|c|c]; simpl.
  - unfold connect. destruct (decide _); [|apply keeps_refl]. simpl.
    eapply keeps_trans; apply with_pool_keeps.
  - apply with_pool_keeps.
  - apply disconnect_keeps.
  - by apply get_loop_keeps.
  - apply put_keeps.
  - apply close_keeps.
Qed.

(** Nothing happening during the dial is steady. *)
Lemma quiet_steady : steady quiet.
Proof. intros w. split_and!; [done | simpl; lia | apply keeps_refl]. Qed.

(** A safe sequence of calls keeps the invariant and the objects and
    does not lower the generation. *)
Lemma runs_sound ks : ∀ w,
  safe ks w ->
  (wf w -> wf (runs ks w)) ∧ gen w <= gen (runs ks w) ∧ keeps_objects w (runs ks w).
Proof.
  induction ks as [|k ks IH]; intros w Hsafe; simpl.
  - split_and!; [done | lia | apply keeps_refl].
  - destruct Hsafe as (Hmax & Hk & Hrest).
    destruct (run_sound k w Hmax Hk) as [Hwf Hgen].
    destruct (IH (run k w) Hrest) as (Hwf' & Hgen' & Hkeep').
    split_and!; [auto | unfold runs in *; lia |].
    eapply keeps_trans; [by apply run_keeps | exact Hkeep'].
Qed.

(** **** [put] of an expired connection *)

Lemma put_expired_closes c w co :
  w_heap w !! c = Some co -> c_pool co = Some (w_self w) ->
  c_generation co < gen w ->
  let w' := (put c w).1 in
  p_conns (w_pool w') = p_conns (w_pool w)
  ∧ p_opened (w_pool w') = delete (c_poolID co) (p_opened (w_pool w))
  ∧ ∃ co', w_heap w' !! c = Some co' ∧ c_nc co' = None.
Proof.
  intros Hc Hp Hg. cbv zeta.
  assert (Hput : put c w = close c w).
  { unfold put. rewrite Hc. rewrite decide_True by done.
    assert (conn_expired w c = true) as ->.
    { unfold conn_expired, expired. rewrite Hc. by apply Z.ltb_lt. }
    by rewrite orb_true_r. }
  rewrite Hput.
  destruct (close_pool_fields c w) as (_ & _ & _ & Hq & _).
  destruct (close_closes c w co Hc Hp) as (co' & Hco' & Hnc & _ & Ho).
  split_and!; [by rewrite Hq | by rewrite Ho | by exists co'].
Qed.

(** A connection handed out by [get], the calls [before] a drain, the
    drain, the calls [after] it: the connection is expired. *)
Lemma expired_after_drain E ctx w w1 c before after :
  wf w ->
  get E ctx w = (w1, (Some c, None)) ->
  safe before w1 ->
  gen (runs before w1) < uint64_max ->
  safe after (drain (runs before w1)) ->
  let w2 := runs after (drain (runs before w1)) in
  ∃ co, w_heap w2 !! c = Some co ∧ c_pool co = Some (w_self w2)
        ∧ c_generation co < gen w2.
Proof.
  intros Hwf Hget Hbefore Hmax Hafter. cbv zeta.
  apply (get_loop_returns E ctx _ 0 w w1 c) in Hget as (co & Hco & Hp & Hg);
    [|done|done].
  destruct (runs_sound before w1 Hbefore) as (_ & Hgen1 & Hself1 & Hkeep1).
  destruct (Hkeep1 c co Hco) as (co1 & Hco1 & Hp1 & _ & Hg1).
  destruct (runs_sound after (drain (runs before w1)) Hafter)
    as (_ & Hgen2 & Hself2 & Hkeep2).
  destruct (Hkeep2 c co1 Hco1) as (co2 & Hco2 & Hp2 & _ & Hg2).
  exists co2. split_and!; [done | |].
  - rewrite Hp2, Hp1, Hp, Hself2. simpl. by rewrite Hself1.
  - pose proof (AddUint64_grows _ Hmax) as Hgrow.
    unfold gen in *. simpl in Hgen2. lia.
Qed.

End PoolFacts.

(** * The claims about the pool *)

Module PoolClaims.
Import Pool PoolFacts.

(** C4, as amended.  While the 64-bit generation counter is below its
    last value 2^64-1: no call of the pool's interface lowers the
    generation; a generation, and a connection by its recorded
    generation, is expired exactly when that generation is less than the
    pool's; and a connection handed out by [get] before a [drain] -
    whatever calls are made between the [get] and the [drain] and between
    the [drain] and the [put] - is closed by [put]: taken out of the
    opened map, its transport shut, the idle channel left as it was.
    ([wf] is the invariant that [newPool] sets up and every call keeps.) *)
Theorem generation_only_grows :
  (∀ (k : call) (w : world),
     p_generation (w_pool w) < uint64_max -> relies k ->
     p_generation (w_pool w) <= p_generation (w_pool (run k w)))
  ∧ (∀ (w : world) (g : Z),
       expired w g = true ↔ g < p_generation (w_pool w))
  ∧ (∀ (w : world) (c : addr) (co : connection),
       w_heap w !! c = Some co ->
       conn_expired w c = true ↔ c_generation co < p_generation (w_pool w))
  ∧ (∀ (E : getEnv) (ctx : context) (w w1 : world) (c : addr)
       (before after : list call),
       wf w ->
       get E ctx w = (w1, (Some c, None)) ->
       safe before w1 ->
       p_generation (w_pool (runs before w1)) < uint64_max ->
       safe after (drain (runs before w1)) ->
       let w2 := runs after (drain (runs before w1)) in
       let w' := (put c w2).1 in
       p_conns (w_pool w') = p_conns (w_pool w2)
       ∧ (∃ co, w_heap w2 !! c = Some co
                ∧ p_opened (w_pool w') = delete (c_poolID co) (p_opened (w_pool w2)))
       ∧ (∃ co', w_heap w' !! c = Some co' ∧ c_nc co' = None)).
Proof.
  split_and!.
  - intros k w Hmax Hk. by apply run_sound.
  - intros w g. unfold expired. apply Z.ltb_lt.
  - intros w c co Hc. unfold conn_expired, expired. rewrite Hc. apply Z.ltb_lt.
  - intros E ctx w w1 c before after Hwf Hget Hbefore Hmax Hafter.
    destruct (expired_after_drain E ctx w w1 c before after Hwf Hget Hbefore Hmax Hafter)
      as (co & Hco & Hp & Hg).
    destruct (put_expired_closes c _ co Hco Hp Hg) as (H1 & H2 & H3).
    cbv zeta. split_and!; [done | by exists co | done].
Qed.

Lemma generation_only_grows_witness :
  p_generation (w_pool fresh_pool) <= p_generation (w_pool (run Drain fresh_pool))
  ∧ (expired fresh_pool 0 = true ↔ 0 < p_generation (w_pool fresh_pool))
  ∧ let w1 := (get quiet background fresh_pool).1 in
    let w2 := runs [Connect] (drain (runs [Get quiet background] w1)) in
    let w' := (put 1%positive w2).1 in
    p_conns (w_pool w') = p_conns (w_pool w2)
    ∧ (∃ co', w_heap w' !! 1%positive = Some co' ∧ c_nc co' = None).
Proof.
  destruct generation_only_grows as (Hgrow & Hexp & _ & Hput). split_and!.
  - apply Hgrow; [vm_compute; reflexivity | exact I].
  - apply Hexp.
  - destruct (Hput quiet background fresh_pool (get quiet background fresh_pool).1
                1%positive [Get quiet background] [Connect]) as (H1 & _ & H3).
    + split.
      * intros c Hc. by apply elem_of_nil in Hc.
      * intros c co Hc. change (w_heap fresh_pool) with (∅ : gmap addr connection) in Hc.
        by rewrite lookup_empty in Hc.
    + vm_compute. reflexivity.
    + split_and!; [vm_compute; reflexivity | apply quiet_steady | exact I].
    + vm_compute. reflexivity.
    + split_and!; [vm_compute; reflexivity | exact I | exact I].
    + split; [exact H1 | exact H3].
Defined.

(** C4 as stated fails where the counter wraps: at generation 2^64-1 a
    [drain] takes the generation back to 0, and the connection that [get]
    handed out before the drain is cached by [put], still open and still
    in the opened map. *)
Lemma generation_wraps_around :
  let w1 := (get quiet background last_generation).1 in
  let w' := (put 1%positive (drain w1)).1 in
  (get quiet background last_generation).2 = (Some 1%positive, None)
  ∧ ¬ (p_generation (w_pool w1) <= p_generation (w_pool (run Drain w1)))
  ∧ p_generation (w_pool (run Drain w1)) = 0
  ∧ p_conns (w_pool w') = [1%positive]
  ∧ p_opened (w_pool w') !! 1 = Some 1%positive
  ∧ (c_nc <$> w_heap w' !! 1%positive) = Some (Some (mkNetConn None)).
Proof. vm_compute. split_and!; try reflexivity. intros H. by apply H. Qed.

(** C6.  On a pool that is not connected [get] fails with
    [ErrPoolDisconnected] and leaves the pool and the heap as they were:
    nothing is dialled.  On a connected pool with a live context and no
    usable idle connection [get] dials; if the dial succeeds but the pool
    has left the connected state in the meantime, [get] fails with
    [ErrPoolDisconnected], and the connection just made is closed (its
    transport is nil), is not in the opened map and is not handed out;
    nothing else on the heap and nothing in the idle channel changes. *)
Theorem get_refuses_when_disconnected (E : getEnv) (ctx : context) (w : world) :
  (p_connected (w_pool w) ≠ connected ->
   get E ctx w = (w, (None, Some ErrPoolDisconnected)))
  ∧ (∀ id nc,
       let wd := during_dial E (closeIdle (p_conns (w_pool w)) w) in
       let c := fresh (dom (w_heap wd)) in
       p_connected (w_pool w) = connected ->
       ctx_Err ctx = None ->
       Forall (fun a => conn_expired w a = true) (p_conns (w_pool w)) ->
       newConnection E wd = DialOk id nc ->
       p_connected (w_pool wd) ≠ connected ->
       ∃ w' co,
         get E ctx w = (w', (None, Some ErrPoolDisconnected))
         ∧ w_heap wd !! c = None
         ∧ w_heap w' !! c = Some co
         ∧ c_pool co = Some (w_self wd) ∧ c_id co = id ∧ c_nc co = None
         ∧ p_opened (w_pool w') !! c_poolID co = None
         ∧ p_conns (w_pool w') = p_conns (w_pool wd)
         ∧ ∀ a, a ≠ c -> w_heap w' !! a = w_heap wd !! a).
Proof.
  split.
  - intros Hd. unfold get. destruct (p_conns (w_pool w)); simpl;
      by rewrite decide_False.
  - intros id nc wd c Hconn Hctx Hall Hdial Hleft.
    unfold get. rewrite get_loop_all_expired by done.
    destruct (get_new_cases E (closeIdle (p_conns (w_pool w)) w))
      as [(e & He & _) | (id' & nc' & Hok & [[Hc _] | [_ Hget]])].
    + fold wd in He. congruence.
    + by fold wd in Hc.
    + fold wd in Hok. rewrite Hdial in Hok. injection Hok as <- <-.
      rewrite Hget. clear Hget. fold wd. fold c.
      set (poolID := AddUint64 (p_nextid (w_pool wd)) 1).
      set (co := mkConnection (Some (w_self wd)) poolID (gen wd) id (Some nc)).
      set (w2 := mkWorld (w_self wd) (set_nextid poolID (w_pool wd))
                         (<[c := co]> (w_heap wd))).
      assert (Hco : w_heap w2 !! c = Some co) by apply lookup_insert_eq.
      destruct (close_closes c w2 co Hco eq_refl) as (co' & Hco' & Hnc & Hid & Ho).
      destruct (close_heap_static c w2 c co Hco) as (co2 & Hco2 & Hp2 & _).
      destruct (close_pool_fields c w2) as (_ & _ & _ & Hq & _).
      exists (close c w2).1, co'. split_and!.
      * done.
      * apply fresh_heap.
      * done.
      * rewrite Hco' in Hco2. injection Hco2 as <-. by rewrite Hp2.
      * unfold close in Hco'. rewrite Hco in Hco'. rewrite decide_True in Hco' by done.
        simpl in Hco'. destruct (nc_Close nc); simpl in Hco';
          rewrite lookup_insert_eq in Hco'; by injection Hco' as <-.
      * done.
      * rewrite Ho, Hid. apply lookup_delete_eq.
      * by rewrite Hq.
      * intros a Ha. destruct (close_heap c w2 a) as [-> | (? & -> & _)]; [|done].
        simpl. by rewrite lookup_insert_ne.
Qed.

Lemma get_refuses_when_disconnected_witness :
  get quiet background (newPool 1%positive "localhost:27017" 1)
    = (newPool 1%positive "localhost:27017" 1, (None, Some ErrPoolDisconnected))
  ∧ ∃ w' co,
      get racing_disconnect background fresh_pool
        = (w', (None, Some ErrPoolDisconnected))
      ∧ w_heap w' !! 1%positive = Some co ∧ c_nc co = None
      ∧ p_opened (w_pool w') !! c_poolID co = None.
Proof.
  destruct (get_refuses_when_disconnected quiet background
              (newPool 1%positive "localhost:27017" 1)) as [H1 _].
  destruct (get_refuses_when_disconnected racing_disconnect background fresh_pool)
    as [_ H2].
  split.
  - apply H1. vm_compute. discriminate.
  - destruct (H2 "late"%string (mkNetConn None)) as (w' & co & G1 & _ & G2 & _ & _ & G3 & G4 & _).
    + vm_compute. reflexivity.
    + reflexivity.
    + apply Forall_nil_2.
    + reflexivity.
    + vm_compute. discriminate.
    + exists w', co. split_and!; [exact G1 | exact G2 | exact G3 | exact G4].
Defined.

(** [disconnect] on a connected pool ends with the pool disconnected and
    returns nil, whatever the context. *)
Lemma disconnect_ends_disconnected E ctx w :
  p_connected (w_pool w) = connected ->
  (disconnect E ctx w).2 = None
  ∧ p_connected (w_pool (disconnect E ctx w).1) = disconnected.
Proof. intros Hc. unfold disconnect. by rewrite decide_True. Qed.

(** A deadline that has not passed gives no wait at all: the timer is
    made with the negative duration [now - dl] and fires at once. *)
Lemma gracefulWait_future_deadline E dl w :
  now E <= dl -> gracefulWait E dl w = (w, now E).
Proof.
  intros H. unfold gracefulWait.
  destruct (now E - dl <=? 0) eqn:Hd; [done|]. apply Z.leb_gt in Hd. lia.
Qed.

(** C1, the defect.  A connected pool with one connection checked out is
    disconnected at time 100ns with a deadline 30 seconds later, and
    nobody returns the connection.  The wait is over at time 100ns, 30
    seconds short of the deadline, with the connection still in the opened
    map; the connection is then force-closed.  The call does end with the
    pool disconnected and returns nil. *)
Theorem disconnect_ignores_future_deadline :
  let E := mkDisconnectEnv 100 (fun _ => []) in
  let dl := 100 + 30 * Second in
  let ctx := mkContext None (Some dl) in
  let before := beforeForceClose E ctx oneCheckedOut in
  let after := disconnect E ctx oneCheckedOut in
  p_connected (w_pool oneCheckedOut) = connected
  ∧ before.2 = 100 ∧ before.2 < dl
  ∧ toClose before.1 = [1%positive]
  ∧ (c_nc <$> w_heap before.1 !! 1%positive) = Some (Some (mkNetConn None))
  ∧ (c_nc <$> w_heap after.1 !! 1%positive) = Some None
  ∧ p_opened (w_pool after.1) = ∅
  ∧ after.2 = None
  ∧ p_connected (w_pool after.1) = disconnected.
Proof. vm_compute. split_and!; reflexivity. Qed.

End PoolClaims.

(** * Properties of the dispatch functions *)

Module LegacyFacts.
Import Legacy LegacyBook.

(** A call that came without a session to a topology that supports
    sessions: the session block makes one and defers its end. *)
Lemma withImplicitSession_none {R} env topo (zero : R) cmd rest :
  Session cmd = None -> SupportsSessions topo = true ->
  withImplicitSession env topo zero cmd rest =
  after (NewClientSession_ session.Implicit)
    match NewClientSession env session.Implicit with
    | inl err => ret zero (Some err)
    | inr s => defer (EndSession_ s) (rest (set_Session (Some s) cmd))
    end.
Proof. intros Hs Ht. unfold withImplicitSession. by rewrite Hs, Ht. Qed.

Ltac paths :=
  repeat match goal with
         | |- context [match ?x with _ => _ end] => destruct x eqn:?; simpl in *
         | |- context [if ?b then _ else _] => destruct b eqn:?; simpl in *
         | H : context [match ?x with _ => _ end] |- _ => destruct x eqn:?; simpl in *
         end.

Ltac open_call d :=
  destruct d; unfold obtained, selects, ends, how, trace, Read, Write, CountDocuments,
    DropIndexes, ListDatabases, DropCollection, Write_goroutine, withImplicitSession,
    roundTrip, defer_recover, defer, discard, after, ret, panic; simpl; unfold Raw in *.

Local Ltac members H :=
  repeat (apply elem_of_cons in H as [H | H]; [try discriminate H|]);
  try (by apply elem_of_nil in H).

Local Ltac bracketed Hsess :=
  split;
  [ intros task Hin; members Hin
  | intros ? ? ? ? ? Hin; members Hin;
    injection Hin as -> -> -> -> ->;
    eexists _, [_; _]; split_and!; first [exact Hsess | reflexivity] ].

Lemma Read_bracketed env cmd topo selector :
  Session cmd = None -> SupportsSessions topo = true ->
  session_bracketed env (Read env cmd topo selector).2.
Proof.
  intros Hs Ht. unfold Read. rewrite Hs.
  destruct (SelectServerLegacy topo _) as [err | ss]; simpl; [bracketed I|].
  destruct (ConnectionLegacy ss) as [err | conn]; simpl; [bracketed I|].
  rewrite withImplicitSession_none by done.
  destruct (NewClientSession env session.Implicit) as [err | sess] eqn:Hsess; simpl;
    bracketed Hsess.
Qed.

Lemma Write_bracketed env cmd topo selector :
  Session cmd = None -> SupportsSessions topo = true ->
  writeconcern.AckWrite (WriteConcern cmd) = true ->
  session_bracketed env (Write env cmd topo selector).2.
Proof.
  intros Hs Ht Hack. unfold Write. rewrite Hack.
  destruct (SelectServerLegacy topo _) as [err | ss]; simpl; [bracketed I|].
  destruct (ConnectionLegacy ss) as [err | conn]; simpl; [bracketed I|].
  rewrite withImplicitSession_none by done.
  destruct (NewClientSession env session.Implicit) as [err | sess] eqn:Hsess; simpl;
    bracketed Hsess.
Qed.

Lemma DropCollection_bracketed env cmd topo selector :
  Session cmd = None -> SupportsSessions topo = true ->
  session_bracketed env (DropCollection env cmd topo selector).2.
Proof.
  intros Hs Ht. unfold DropCollection.
  destruct (SelectServerLegacy topo _) as [err | ss]; simpl; [bracketed I|].
  destruct (ConnectionLegacy ss) as [err | conn]; simpl; [bracketed I|].
  rewrite withImplicitSession_none by done.
  destruct (NewClientSession env session.Implicit) as [err | sess] eqn:Hsess; simpl;
    bracketed Hsess.
Qed.

Lemma DropIndexes_bracketed env cmd topo selector dio :
  Session cmd = None -> SupportsSessions topo = true ->
  session_bracketed env (DropIndexes env cmd topo selector dio).2.
Proof.
  intros Hs Ht. unfold DropIndexes.
  destruct (SelectServerLegacy topo _) as [err | ss]; simpl; [bracketed I|].
  destruct (ConnectionLegacy ss) as [err | conn]; simpl; [bracketed I|].
  rewrite withImplicitSession_none; [|by destruct (DropIndexesOptions.MaxTime dio)|done].
  destruct (NewClientSession env session.Implicit) as [err | sess] eqn:Hsess; simpl;
    bracketed Hsess.
Qed.

Lemma ListDatabases_bracketed env cmd topo selector ld :
  Session cmd = None -> SupportsSessions topo = true ->
  session_bracketed env (ListDatabases env cmd topo selector ld).2.
Proof.
  intros Hs Ht. unfold ListDatabases.
  destruct (SelectServerLegacy topo _) as [err | ss]; simpl; [bracketed I|].
  destruct (ConnectionLegacy ss) as [err | conn]; simpl; [bracketed I|].
  rewrite withImplicitSession_none by done.
  destruct (NewClientSession env session.Implicit) as [err | sess] eqn:Hsess;
    destruct (ListDatabasesOptions.NameOnly ld); simpl; bracketed Hsess.
Qed.

Lemma CountDocuments_bracketed env cmd topo selector countOpts :
  Session cmd = None -> SupportsSessions topo = true ->
  session_bracketed env (CountDocuments env cmd topo selector countOpts).2.
Proof.
  intros Hs Ht. unfold CountDocuments, getReadPrefBasedOnTransaction. rewrite Hs.
  destruct (SelectServerLegacy topo _) as [err | ss]; simpl; [bracketed I|].
  destruct (ConnectionLegacy ss) as [err | conn]; simpl; [bracketed I|].
  rewrite withImplicitSession_none by done.
  destruct (NewClientSession env session.Implicit) as [err | sess] eqn:Hsess; simpl;
    [bracketed Hsess|].
  destruct (CountOptions.MaxTime countOpts);
    destruct (CountOptions.Collation countOpts) as [[err | collDoc]|];
    destruct (CountOptions.Hint countOpts) as [[err' | hintElem]|];
    destruct (description.WireVersion (description.Server_ (Description ss))) as [v|];
    try destruct (description.Max v <? 5);
    simpl; bracketed Hsess.
Qed.

End LegacyFacts.

(** * The claims about the dispatch functions *)

Module LegacyClaims.
Import Legacy LegacyBook LegacyFacts.

(** C10.  A call of a dispatch function ([Read], [Write] with an
    acknowledged write concern, [CountDocuments], [DropIndexes],
    [ListDatabases], [DropCollection]) whose command carries no session,
    on a topology that supports sessions, starts no goroutine.  Without a
    server or a connection it does nothing but try to get them.  With
    its connection it calls [session.NewClientSession]; when that fails
    it returns the error and closes the connection; when that gives a
    session, it makes its round trip - one, under that session, to the
    selected server over the connection - then ends the session and
    closes the connection, and that is all it does.  The round trip is
    left out only by [CountDocuments], where its options stop it; the
    session is made, and ended, there too. *)
Theorem implicit_session_around_round_trip (env : Env) (topo : Topology)
    (d : dispatch) :
  session_of d = None ->
  SupportsSessions topo = true ->
  acknowledged d = true ->
  (∀ task, Go task ∉ trace env topo d)
  ∧ (obtained topo d = None ->
     ∀ e, e ∈ trace env topo d ->
          e = SelectServerLegacy_ (selects d) ∨ e = ConnectionLegacy_)
  ∧ ∀ ss conn,
      obtained topo d = Some (ss, conn) ->
      match NewClientSession env session.Implicit with
      | inl err =>
          ends env topo d = Returned (Some err)
          ∧ trace env topo d
            = [SelectServerLegacy_ (selects d); ConnectionLegacy_;
               NewClientSession_ session.Implicit; Close_ conn]
      | inr sess =>
          ∃ body,
            trace env topo d
            = [SelectServerLegacy_ (selects d); ConnectionLegacy_;
               NewClientSession_ session.Implicit]
              ++ body ++ [EndSession_ sess; Close_ conn]
            ∧ (body = []
               ∨ ∃ rp opts, body = [RoundTrip_ (Some sess) rp opts (Description ss) conn])
            ∧ (body = [] ↔
               ∃ cmd selector o, d = CallCountDocuments cmd selector o
                                 ∧ optionsStop o (Description ss))
      end.
Proof.
  intros Hs Ht Hack. split_and!.
  - assert (Hb : session_bracketed env (trace env topo d)).
    { destruct d; simpl in *.
      - by apply Read_bracketed.
      - by apply Write_bracketed.
      - by apply CountDocuments_bracketed.
      - by apply DropIndexes_bracketed.
      - by apply ListDatabases_bracketed.
      - by apply DropCollection_bracketed. }
    exact (proj1 Hb).
  - revert Hs Ht Hack. open_call d; intros Hs Ht Hack Hob e Hin; paths.
    all: try congruence.
    all: repeat (apply elem_of_cons in Hin as [Hin | Hin]; [by auto|]).
    all: try by apply elem_of_nil in Hin.
  - intros ss conn. revert Hs Ht Hack. open_call d; intros Hs Ht Hack Hob; paths.
    all: try congruence.
    all: try (rewrite Hack in *; simpl in *; congruence).
    all: try (rewrite Hs in *; simpl in *; congruence).
    all: try (split; congruence).
    all: try (injection Hob as <- <-).
    all: try (eexists [RoundTrip_ _ _ _ _ _]; split; [reflexivity|];
              split; [right; eauto|]; split; [discriminate|];
              intros (cmd' & sel' & o' & Heq & Hstop); try discriminate Heq).
    all: try (injection Heq as <- <- <-; unfold optionsStop in Hstop;
              repeat match goal with
                     | H : CountOptions.Collation _ = _ |- _ => rewrite H in Hstop; clear H
                     | H : description.WireVersion _ = _ |- _ => rewrite H in Hstop; clear H
                     | H : CountOptions.Hint _ = _ |- _ => rewrite H in Hstop; clear H
                     | H : (_ <? _) = false |- _ => apply Z.ltb_ge in H
                     end; subst;
              destruct Hstop as [Hstop | [err Hstop]]; [|discriminate Hstop];
              first [done | destruct Hstop as [Hstop | [err Hstop]];
                            [lia | discriminate Hstop]]).
    all: try (exists []; split; [reflexivity|]; split; [by left|];
              split; [intros _ | done];
              exists cmd, selector, countOpts; split; [reflexivity|];
              unfold optionsStop;
              repeat match goal with
                     | H : CountOptions.Collation _ = _ |- _ => rewrite H; clear H
                     | H : description.WireVersion _ = _ |- _ => rewrite H; clear H
                     | H : CountOptions.Hint _ = _ |- _ => rewrite H; clear H
                     | H : (_ <? _) = true |- _ => apply Z.ltb_lt in H
                     end; subst; eauto).
Qed.

Lemma implicit_session_around_round_trip_witness :
  ∃ body,
    trace env1 topo1 (CallRead (answering None None None) None)
    = [SelectServerLegacy_ None; ConnectionLegacy_; NewClientSession_ session.Implicit]
      ++ body
      ++ [EndSession_ (session.mkClient 7 session.Implicit None session.None_ None None);
          Close_ 1%nat]
    ∧ (body = []
       ∨ ∃ rp opts,
           body = [RoundTrip_
                     (Some (session.mkClient 7 session.Implicit None session.None_ None None))
                     rp opts (Description primary1) 1%nat])
    ∧ (body = [] ↔
       ∃ cmd selector o,
         CallRead (answering None None None) None = CallCountDocuments cmd selector o
         ∧ optionsStop o (Description primary1)).
Proof.
  destruct (implicit_session_around_round_trip env1 topo1
              (CallRead (answering None None None) None)) as (_ & _ & H);
    [reflexivity | reflexivity | reflexivity |].
  exact (H primary1 1%nat eq_refl).
Defined.

Lemma checkTransactionReadPref_nonPrimary pref :
  nonPrimary (readpref.Mode_ pref) ->
  checkTransactionReadPref (Some pref) = Some ErrNonPrimaryRP.
Proof.
  unfold checkTransactionReadPref. intros [-> | [-> | [-> | ->]]]; reflexivity.
Qed.

(** C9, as amended.  A call of [Read] with a session whose transaction
    is running and a read preference of mode secondary,
    secondaryPreferred, nearest or primaryPreferred never makes the round
    trip (and starts no goroutine); once a server has been selected and a
    connection obtained, it closes the connection and returns
    [ErrNonPrimaryRP]. *)
Theorem Read_in_transaction_wants_primary (env : Env) (cmd : Command Raw)
    (topo : Topology) (selector : option ServerSelector)
    (s : session.Client) (pref : readpref.ReadPref) :
  Session cmd = Some s ->
  session.TransactionRunning s = true ->
  ReadPref cmd = Some pref ->
  nonPrimary (readpref.Mode_ pref) ->
  (∀ ev, ev ∈ (Read env cmd topo selector).2 ->
         (∀ s' rp opts desc conn, ev ≠ RoundTrip_ s' rp opts desc conn)
         ∧ ∀ task, ev ≠ Go task)
  ∧ ∀ ss conn,
      SelectServerLegacy topo (pinned cmd selector) = inr ss ->
      ConnectionLegacy ss = inr conn ->
      Read env cmd topo selector =
        (Returns [] (Some ErrNonPrimaryRP),
         [SelectServerLegacy_ (pinned cmd selector); ConnectionLegacy_; Close_ conn]).
Proof.
  intros Hs Hrun Hrp Hmode. unfold Read. rewrite Hs, Hrun, Hrp.
  rewrite (checkTransactionReadPref_nonPrimary pref Hmode).
  destruct (SelectServerLegacy topo _) as [err | ss]; simpl.
  - split; [|by intros ? ? [=]]. intros ev Hin.
    apply list_elem_of_singleton in Hin as ->. done.
  - destruct (ConnectionLegacy ss) as [err | conn] eqn:Hconn; simpl.
    + split; [|intros ? ? [= <-]; congruence]. intros ev Hin.
      repeat (apply elem_of_cons in Hin as [-> | Hin]; [done|]).
      by apply elem_of_nil in Hin.
    + split.
      * intros ev Hin.
        repeat (apply elem_of_cons in Hin as [-> | Hin]; [done|]).
        by apply elem_of_nil in Hin.
      * intros ss' conn' [= <-] Hc. rewrite Hconn in Hc. by injection Hc as <-.
Qed.

Lemma Read_in_transaction_wants_primary_witness :
  Read env1 (answering (Some inTxn) (Some readpref.Secondary) None) topo1 None =
    (Returns [] (Some ErrNonPrimaryRP),
     [SelectServerLegacy_ None; ConnectionLegacy_; Close_ 1%nat]).
Proof.
  destruct (Read_in_transaction_wants_primary env1
              (answering (Some inTxn) (Some readpref.Secondary) None) topo1 None
              inTxn readpref.Secondary) as [_ H].
  - reflexivity.
  - reflexivity.
  - reflexivity.
  - left. reflexivity.
  - apply (H primary1 1%nat); reflexivity.
Defined.

(** C9 as stated fails when no server can be selected: with a running
    transaction and a secondary read preference [Read] returns what the
    topology reports, not [ErrNonPrimaryRP]. *)
Lemma Read_reports_selection_error_first :
  Session (answering (Some inTxn) (Some readpref.Secondary) None) = Some inTxn
  ∧ session.TransactionRunning inTxn = true
  ∧ Read env1 (answering (Some inTxn) (Some readpref.Secondary) None) noServer None =
      (Returns [] (Some (Reported "no suitable server")), [SelectServerLegacy_ None])
  ∧ (Read env1 (answering (Some inTxn) (Some readpref.Secondary) None) noServer None).1
      ≠ Returns [] (Some ErrNonPrimaryRP).
Proof. split_and!; [reflexivity .. | discriminate]. Qed.

(** C7, as amended.  A call of [Write] whose write concern is
    unacknowledged, once a server has been selected and a connection
    obtained: it returns [ErrUnacknowledgedWrite] after starting one
    goroutine, without a round trip or a close of its own; the goroutine
    makes the round trip on that connection and then closes it, whether
    the round trip returns or panics, and a panic ends in the goroutine. *)
Theorem Write_unacknowledged_is_detached (env : Env) (cmd : Command Raw)
    (topo : Topology) (selector : option ServerSelector)
    (ss : SelectedServer) (conn : Connection) :
  writeconcern.AckWrite (WriteConcern cmd) = false ->
  SelectServerLegacy topo (pinned cmd selector) = inr ss ->
  ConnectionLegacy ss = inr conn ->
  Write env cmd topo selector =
    (Returns [] (Some ErrUnacknowledgedWrite),
     [SelectServerLegacy_ (pinned cmd selector); ConnectionLegacy_;
      Go (Write_goroutine cmd (Description ss) conn).2])
  ∧ (Write_goroutine cmd (Description ss) conn).1 = Returns tt None
  ∧ (Write_goroutine cmd (Description ss) conn).2 =
      [RoundTrip_ (Session cmd) (ReadPref cmd) (Opts cmd) (Description ss) conn;
       Close_ conn].
Proof.
  intros Hack Hss Hconn. unfold Write. rewrite Hss, Hconn, Hack. done.
Qed.

Lemma Write_unacknowledged_is_detached_witness :
  Write env1 (panicking w0) topo1 None =
    (Returns [] (Some ErrUnacknowledgedWrite),
     [SelectServerLegacy_ None; ConnectionLegacy_;
      Go [RoundTrip_ None None [] (Description primary1) 1%nat; Close_ 1%nat]]).
Proof.
  destruct (Write_unacknowledged_is_detached env1 (panicking w0) topo1 None
              primary1 1%nat) as (H1 & _ & H3);
    [reflexivity | reflexivity | reflexivity |].
  rewrite H1, H3. reflexivity.
Defined.

(** C7 as stated fails when no server can be selected: [Write] with
    write concern [w: 0] returns what the topology reports and starts no
    goroutine. *)
Lemma Write_reports_selection_error_first :
  writeconcern.AckWrite (WriteConcern (answering None None w0)) = false
  ∧ Write env1 (answering None None w0) noServer None =
      (Returns [] (Some (Reported "no suitable server")), [SelectServerLegacy_ None])
  ∧ (Write env1 (answering None None w0) noServer None).1
      ≠ Returns [] (Some ErrUnacknowledgedWrite).
Proof. split_and!; [reflexivity .. | discriminate]. Qed.

End LegacyClaims.

(** * Properties of the operation helpers *)

Module DriverFacts.
Import description Driver.

(** **** The order of cluster times *)

Lemma newer_asym a b : session.newer a b = true -> session.newer b a = false.
Proof.
  intros H. unfold session.newer in *.
  apply orb_true_iff in H. apply orb_false_iff.
  rewrite andb_true_iff, !Z.ltb_lt, Z.eqb_eq in H.
  rewrite andb_false_iff, !Z.ltb_ge, Z.eqb_neq. lia.
Qed.

(** [a] is not newer than [b]. *)
Lemma not_newer_trans a b c :
  session.newer a b = false -> session.newer b c = false -> session.newer a c = false.
Proof.
  intros H1 H2. unfold session.newer in *.
  apply orb_false_iff in H1 as [H1 H1'], H2 as [H2 H2']. apply orb_false_iff.
  rewrite !andb_false_iff, !Z.ltb_ge, !Z.eqb_neq in *. lia.
Qed.

Lemma not_newer_refl a : session.newer a a = false.
Proof.
  unfold session.newer. apply orb_false_iff.
  rewrite andb_false_iff, !Z.ltb_ge. lia.
Qed.

Lemma MaxClusterTime_older_then_newer held a b :
  session.newer b a = true -> session.behind held b ->
  session.MaxClusterTime (session.MaxClusterTime held a) b = Some b.
Proof.
  intros Hab Hheld. destruct held as [h|]; simpl in *.
  - destruct (session.newer a h); simpl; [by rewrite Hab | by rewrite Hheld].
  - by rewrite Hab.
Qed.

Lemma MaxClusterTime_newer_then_older held a b :
  session.newer b a = true -> session.behind held b ->
  session.MaxClusterTime (session.MaxClusterTime held b) a = Some b.
Proof.
  intros Hab Hheld. destruct held as [h|]; simpl in *.
  - rewrite Hheld. simpl. by rewrite (newer_asym b a).
  - by rewrite (newer_asym b a).
Qed.

Lemma MaxClusterTime_not_regressed held ct :
  session.not_regressed held (session.MaxClusterTime held ct).
Proof.
  destruct held as [h|]; simpl; [|done].
  destruct (session.newer ct h) eqn:Hn; simpl.
  - by apply newer_asym.
  - apply not_newer_refl.
Qed.

Lemma not_regressed_trans a b c :
  session.not_regressed a b -> session.not_regressed b c -> session.not_regressed a c.
Proof.
  destruct a as [a|], b as [b|], c as [c|]; simpl; try done.
  apply not_newer_trans.
Qed.

Lemma not_regressed_refl a : session.not_regressed a a.
Proof. destruct a; simpl; [apply not_newer_refl | done]. Qed.

Lemma MaxClusterTime_fold_not_regressed l : ∀ held,
  session.not_regressed held (foldl session.MaxClusterTime held l).
Proof.
  induction l as [|ct l IH]; intros held; simpl.
  - apply not_regressed_refl.
  - eapply not_regressed_trans; [apply MaxClusterTime_not_regressed | apply IH].
Qed.

Lemma clock_fold l : ∀ cc,
  session.clusterTime (foldl session.AdvanceClusterTime cc l) =
  foldl session.MaxClusterTime (session.clusterTime cc) l.
Proof. induction l as [|ct l IH]; intros cc; simpl; [done | by rewrite IH]. Qed.

Lemma client_fold l : ∀ c,
  session.ClusterTime_ (foldl session.Client_AdvanceClusterTime c l) =
  foldl session.MaxClusterTime (session.ClusterTime_ c) l.
Proof. induction l as [|ct l IH]; intros c; simpl; [done | by rewrite IH]. Qed.

End DriverFacts.

(** * The claims about the operation helpers *)

Module DriverClaims.
Import description Driver DriverFacts.

(** The six rows of TestOperation/retryable. *)
Example retryable_table :
  retryable (operation (Some deploymentNoRetry) None None RetryNone)
            (mkServer Unknown None) = RetryNone
  ∧ retryable (operation (Some deploymentRetry) (Some sess) (Some wcAck) RetryNone)
              descNotRetryable = RetryNone
  ∧ retryable (operation (Some deploymentRetry) (Some sessInProgressTransaction)
                         (Some wcAck) RetryNone) descRetryable = RetryNone
  ∧ retryable (operation (Some deploymentRetry) (Some sessStartingTransaction)
                         (Some wcAck) RetryNone) descRetryable = RetryNone
  ∧ retryable (operation (Some deploymentRetry) (Some sess) (Some wcUnack) RetryNone)
              descRetryable = RetryNone
  ∧ retryable (operation (Some deploymentRetry) (Some sess) (Some wcAck) RetryWrite)
              descRetryable = RetryWrite.
Proof. split_and!; reflexivity. Qed.

(** For a retryable write the condition of [retryable] is the
    [retrySupported] of the legacy package, the deployment's retry
    support in the place of the topology's session support. *)
Lemma retryable_retrySupported `{Deployment D} (op : Operation D)
    (desc : SelectedServer) (topo : Legacy.Topology) :
  Legacy.SupportsSessions topo = supportsRetry op ->
  RetryType_ op = RetryWrite ->
  retryable op (Server_ desc) =
    if Legacy.retrySupported topo desc (Client op) (WriteConcern op)
    then RetryWrite else RetryNone.
Proof.
  intros Ht Hw. unfold retryable, Legacy.retrySupported, inTransaction. rewrite Ht, Hw.
  by destruct (_ && _).
Qed.

(** C2.  As the retry decision has it: [retrySupported] of the legacy
    package is true exactly when the topology supports sessions, the
    wire version suffices, no transaction is starting or in progress and
    the write concern is acknowledged.  The classification of an
    [Operation] is none whenever the deployment does not support retry,
    or the wire version is below the minimum, or the session has a
    transaction starting or in progress, or - for an operation that is
    not configured retryable-read - the write concern is
    unacknowledged; it is retryable-write exactly when the operation is
    configured retryable-write, the deployment supports retry, the wire
    version suffices, the write concern is acknowledged and no
    transaction is active, which is when [retrySupported] holds of a
    topology with that support. *)
Theorem retryable_matrix `{Deployment D} (op : Operation D) (desc : SelectedServer)
    (topo : Legacy.Topology) :
  (Legacy.retrySupported topo desc (Client op) (WriteConcern op) = true ↔
     Legacy.SupportsSessions topo = true
     ∧ SessionsSupported (WireVersion (Server_ desc)) = true
     ∧ inTransaction op = false
     ∧ writeconcern.AckWrite (WriteConcern op) = true)
  ∧ (supportsRetry op = false
     ∨ SessionsSupported (WireVersion (Server_ desc)) = false
     ∨ inTransaction op = true ->
     retryable op (Server_ desc) = RetryNone)
  ∧ (writeconcern.AckWrite (WriteConcern op) = false ->
     RetryType_ op ≠ RetryRead ->
     retryable op (Server_ desc) = RetryNone)
  ∧ (retryable op (Server_ desc) = RetryWrite ↔
     RetryType_ op = RetryWrite
     ∧ supportsRetry op = true
     ∧ SessionsSupported (WireVersion (Server_ desc)) = true
     ∧ writeconcern.AckWrite (WriteConcern op) = true
     ∧ inTransaction op = false)
  ∧ (Legacy.SupportsSessions topo = supportsRetry op ->
     RetryType_ op = RetryWrite ->
     (retryable op (Server_ desc) = RetryWrite ↔
      Legacy.retrySupported topo desc (Client op) (WriteConcern op) = true)).
Proof.
  unfold retryable, Legacy.retrySupported, inTransaction.
  destruct (RetryType_ op), (supportsRetry op), (Legacy.SupportsSessions topo),
    (SessionsSupported (WireVersion (Server_ desc))),
    (session.TransactionInProgress (Client op) || session.TransactionStarting (Client op)),
    (writeconcern.AckWrite (WriteConcern op)); simpl;
    split_and!;
    try (split; [try done; intros (? & ? & ? & ?); congruence
                | try done; intros (? & ? & ? & ?); congruence]);
    try (intros [? | [? | ?]]; congruence);
    try (intros ? ?; congruence);
    try (split; [try done | intros (? & ? & ? & ? & ?); congruence]);
    try (intros ? ?; split; congruence).
Qed.

Lemma retryable_matrix_witness :
  retryable (operation (Some deploymentRetry) (Some sess) (Some wcUnack) RetryWrite)
            descRetryable = RetryNone
  ∧ retryable (operation (Some deploymentRetry) (Some sess) (Some wcAck) RetryWrite)
              descRetryable = RetryWrite
  ∧ Legacy.retrySupported Legacy.topo1
      (mkSelectedServer descRetryable ReplicaSet) (Some sess) (Some wcAck) = true.
Proof.
  split_and!.
  - destruct (retryable_matrix
                (operation (Some deploymentRetry) (Some sess) (Some wcUnack) RetryWrite)
                (mkSelectedServer descRetryable ReplicaSet) Legacy.topo1)
      as (_ & _ & H & _).
    apply H; [reflexivity | discriminate].
  - destruct (retryable_matrix
                (operation (Some deploymentRetry) (Some sess) (Some wcAck) RetryWrite)
                (mkSelectedServer descRetryable ReplicaSet) Legacy.topo1)
      as (_ & _ & _ & H & _).
    apply H. split_and!; reflexivity.
  - destruct (retryable_matrix
                (operation (Some deploymentRetry) (Some sess) (Some wcAck) RetryWrite)
                (mkSelectedServer descRetryable ReplicaSet) Legacy.topo1)
      as (H & _).
    apply H. split_and!; reflexivity.
Defined.

(** C2 as stated fails for a retryable read: the write concern is looked
    at for writes only, and a read whose operation carries an
    unacknowledged write concern is classified retryable-read, not
    none. *)
Lemma unacknowledged_read_is_retryable :
  writeconcern.AckWrite (Some wcUnack) = false
  ∧ retryable (operation (Some deploymentRetry) (Some sess) (Some wcUnack) RetryRead)
              descRetryable = RetryRead
  ∧ RetryRead ≠ RetryNone.
Proof. split_and!; [reflexivity | reflexivity | discriminate]. Qed.

(** **** The round trip *)

(** The three rows of TestOperation/roundTrip. *)
Example roundTrip_table :
  (roundTrip (mock (Some "write error"%string) [] None) []).2 =
    ([], Some (mkError "write error" ["TransientTransactionError"; "NetworkError"]%string))
  ∧ (roundTrip (mock None [] (Some "read error"%string)) []).2 =
      ([], Some (mkError "read error" ["TransientTransactionError"; "NetworkError"]%string))
  ∧ (roundTrip (mock None [1; 2; 3; 4] None) []).2 = ([1; 2; 3; 4], None).
Proof. split_and!; reflexivity. Qed.

(** C3.  When the write fails, or the write succeeds and the read
    fails, the round trip returns an error whose labels are exactly
    TransientTransactionError and NetworkError (its message is that of
    the failure); when both succeed it returns the bytes the read
    produced and no error. *)
Theorem roundTrip_labels `{Connection C} (conn : C) (wm : bytes) :
  let written := WriteWireMessage conn wm in
  let read := ReadWireMessage written.1 [] in
  (∀ e, written.2 = Some e ->
        (roundTrip conn wm).2 =
          ([], Some (mkError e [TransientTransactionError; NetworkError])))
  ∧ (∀ e, written.2 = None -> read.2.2 = Some e ->
          (roundTrip conn wm).2 =
            ([], Some (mkError e [TransientTransactionError; NetworkError])))
  ∧ (written.2 = None -> read.2.2 = None ->
     (roundTrip conn wm).2 = (read.2.1, None)).
Proof.
  unfold roundTrip. cbv zeta.
  destruct (WriteWireMessage conn wm) as [conn1 [e1|]]; simpl.
  - split_and!; [by intros e [= <-] | done | done].
  - destruct (ReadWireMessage conn1 []) as [conn2 [res [e2|]]]; simpl.
    + split_and!; [done | by intros e _ [= <-] | done].
    + by split_and!.
Qed.

Lemma roundTrip_labels_witness :
  (roundTrip (mock (Some "write error"%string) [] None) []).2 =
    ([], Some (mkError "write error" [TransientTransactionError; NetworkError]))
  ∧ (roundTrip (mock None [] (Some "read error"%string)) []).2 =
      ([], Some (mkError "read error" [TransientTransactionError; NetworkError]))
  ∧ (roundTrip (mock None [1; 2; 3; 4] None) []).2 = ([1; 2; 3; 4], None).
Proof.
  split_and!.
  - destruct (roundTrip_labels (mock (Some "write error"%string) [] None) [])
      as (H & _ & _).
    apply H. reflexivity.
  - destruct (roundTrip_labels (mock None [] (Some "read error"%string)) [])
      as (_ & H & _).
    apply H; reflexivity.
  - destruct (roundTrip_labels (mock None [1; 2; 3; 4] None) []) as (_ & _ & H).
    apply H; reflexivity.
Defined.

(** **** Cluster time *)

(** TestOperation/addClusterTime and TestOperation/updateClusterTimes. *)
Example clusterTime_tests :
  addClusterTime
    (mkOperation (D := mockDeployment) None None None
       (Some (session.Client_AdvanceClusterTime sess older))
       (Some (session.AdvanceClusterTime (session.mkClusterClock None) newer))
       RetryNone) = Some newer
  ∧ (let op := updateClusterTimes
                 (mkOperation (D := mockDeployment) None None None (Some sess)
                    (Some (session.mkClusterClock None)) RetryNone) (Some newer) in
     (Client op ≫= session.ClusterTime_) = Some newer
     ∧ (Clock op ≫= session.GetClusterTime) = Some newer).
Proof. cbv zeta. split_and!; reflexivity. Qed.

(** C5, as amended.  For a clock and for a session whose stored
    cluster time is absent or older than [B], and [A] older than [B]:
    advancing by [A] and [B] in either order leaves [B] stored.  For
    every clock and every session, whatever is stored: no sequence of
    advances takes the stored cluster time back. *)
Theorem cluster_time_advances :
  (∀ (cc : session.ClusterClock) (A B : session.ClusterTime),
     session.newer B A = true ->
     session.behind (session.clusterTime cc) B ->
     session.GetClusterTime
       (session.AdvanceClusterTime (session.AdvanceClusterTime cc A) B) = Some B
     ∧ session.GetClusterTime
         (session.AdvanceClusterTime (session.AdvanceClusterTime cc B) A) = Some B)
  ∧ (∀ (c : session.Client) (A B : session.ClusterTime),
       session.newer B A = true ->
       session.behind (session.ClusterTime_ c) B ->
       session.ClusterTime_
         (session.Client_AdvanceClusterTime (session.Client_AdvanceClusterTime c A) B)
       = Some B
       ∧ session.ClusterTime_
           (session.Client_AdvanceClusterTime (session.Client_AdvanceClusterTime c B) A)
         = Some B)
  ∧ (∀ (cc : session.ClusterClock) (l : list session.ClusterTime),
       session.not_regressed (session.clusterTime cc)
         (session.clusterTime (foldl session.AdvanceClusterTime cc l)))
  ∧ (∀ (c : session.Client) (l : list session.ClusterTime),
       session.not_regressed (session.ClusterTime_ c)
         (session.ClusterTime_ (foldl session.Client_AdvanceClusterTime c l))).
Proof.
  split_and!.
  - intros cc A B HAB Hcc. split.
    + by apply MaxClusterTime_older_then_newer.
    + by apply MaxClusterTime_newer_then_older.
  - intros c A B HAB Hc. split.
    + by apply MaxClusterTime_older_then_newer.
    + by apply MaxClusterTime_newer_then_older.
  - intros cc l. rewrite clock_fold. apply MaxClusterTime_fold_not_regressed.
  - intros c l. rewrite client_fold. apply MaxClusterTime_fold_not_regressed.
Qed.

Lemma cluster_time_advances_witness :
  session.GetClusterTime
    (session.AdvanceClusterTime
       (session.AdvanceClusterTime (session.mkClusterClock None) older) newer)
    = Some newer
  ∧ session.GetClusterTime
      (session.AdvanceClusterTime
         (session.AdvanceClusterTime (session.mkClusterClock None) newer) older)
    = Some newer
  ∧ session.ClusterTime_
      (session.Client_AdvanceClusterTime
         (session.Client_AdvanceClusterTime sess newer) older)
    = Some newer.
Proof.
  destruct cluster_time_advances as (Hclock & Hsess & _).
  destruct (Hclock (session.mkClusterClock None) older newer) as [H1 H2];
    [reflexivity | exact I |].
  destruct (Hsess sess older newer) as [_ H3]; [reflexivity | exact I |].
  split_and!; [exact H1 | exact H2 | exact H3].
Defined.

(** C5 as stated fails for a clock that already holds a cluster time
    newer than [B]: after [A] and [B], in either order, it still holds
    that value, not [B]. *)
Lemma newer_clock_keeps_its_time :
  let ahead := session.mkClusterTime 1234 9999 [] in
  let cc := session.mkClusterClock (Some ahead) in
  session.newer newer older = true
  ∧ session.GetClusterTime
      (session.AdvanceClusterTime (session.AdvanceClusterTime cc older) newer)
    = Some ahead
  ∧ session.GetClusterTime
      (session.AdvanceClusterTime (session.AdvanceClusterTime cc newer) older)
    = Some ahead
  ∧ Some ahead ≠ Some newer.
Proof. split_and!; [reflexivity .. | discriminate]. Qed.

(** **** The read preference document *)

(** The twelve rows of TestOperation/createReadPref. *)
Example createReadPref_table :
  createReadPref (withPref None) Mongos Single false = None
  ∧ createReadPref (withPref None) RSSecondary Single false = rp "primaryPreferred"
  ∧ createReadPref (withPref (Some readpref.Primary)) Mongos Sharded false = None
  ∧ createReadPref (withPref (Some readpref.Primary)) RSPrimary Single false
    = rp "primaryPreferred"
  ∧ createReadPref (withPref (Some readpref.Primary)) RSPrimary ReplicaSet false
    = rp "primary"
  ∧ createReadPref (withPref (Some readpref.PrimaryPreferred)) RSSecondary ReplicaSet false
    = rp "primaryPreferred"
  ∧ createReadPref (withPref (Some readpref.SecondaryPreferred)) Mongos Sharded true
    = None
  ∧ createReadPref (withPref (Some readpref.SecondaryPreferred)) RSSecondary ReplicaSet false
    = rp "secondaryPreferred"
  ∧ createReadPref (withPref (Some readpref.Secondary)) RSSecondary ReplicaSet false
    = rp "secondary"
  ∧ createReadPref (withPref (Some readpref.Nearest)) RSSecondary ReplicaSet false
    = rp "nearest"
  ∧ createReadPref
      (withPref (Some (readpref.mkReadPref readpref.SecondaryPreferredMode
                         [[("disk", "ssd"); ("use", "reporting")]]%string None)))
      RSSecondary ReplicaSet false
    = Some [("mode", String_ "secondaryPreferred");
            ("tags", Array [EmbeddedDocument [("disk", String_ "ssd");
                                              ("use", String_ "reporting")]])]%string
  ∧ createReadPref
      (withPref (Some (readpref.mkReadPref readpref.SecondaryPreferredMode []
                         (Some (25 * 1000000000)))))
      RSSecondary ReplicaSet false
    = Some [("mode", String_ "secondaryPreferred");
            ("maxStalenessSeconds", Int32 25)]%string.
Proof. split_and!; reflexivity. Qed.




End DriverClaims.

(** * More properties of the pool *)

Module PoolBookFacts.
Import Pool PoolFacts PoolBook.

(** [accounting] looks at the pool's address, the heap, the opened map
    and the id counter only. *)
Lemma accounting_ext w w' :
  w_self w' = w_self w -> w_heap w' = w_heap w ->
  p_opened (w_pool w') = p_opened (w_pool w) ->
  p_nextid (w_pool w') = p_nextid (w_pool w) ->
  accounting w -> accounting w'.
Proof.
  unfold accounting, own. intros -> -> -> ->. done.
Qed.

Lemma with_pool_accounting f w :
  p_opened (f (w_pool w)) = p_opened (w_pool w) ->
  p_nextid (f (w_pool w)) = p_nextid (w_pool w) ->
  accounting w -> accounting (with_pool f w).
Proof. intros Ho Hn. by apply accounting_ext. Qed.

(** What [close] does to the opened map and to the heap. *)
Lemma close_effect c w :
  (close c w).1 = w
  ∨ ∃ co, w_heap w !! c = Some co ∧ own w co
          ∧ p_opened (w_pool (close c w).1) = delete (c_poolID co) (p_opened (w_pool w))
          ∧ w_heap (close c w).1 = <[c := set_nc None co]> (w_heap w)
          ∧ w_self (close c w).1 = w_self w
          ∧ p_nextid (w_pool (close c w).1) = p_nextid (w_pool w).
Proof.
  unfold close, own. destruct (w_heap w !! c) as [co|] eqn:Hc; [|by left].
  destruct (decide _) as [Hp|]; [|by left].
  right. exists co. destruct (c_nc co) as [nc|] eqn:Hnc.
  - destruct (nc_Close nc); simpl; done.
  - simpl. split_and!; try done.
    symmetry. apply insert_id. rewrite Hc. f_equal.
    destruct co; simpl in *; by subst.
Qed.

Lemma close_accounting c w : accounting w -> accounting (close c w).1.
Proof.
  intros (HA & HB & HC & HD & HE).
  destruct (close_effect c w) as [-> | (co & Hc & Hown & Ho & Hh & Hs & Hn)];
    [done|].
  unfold accounting, own in *. rewrite Ho, Hh, Hs, Hn. split_and!.
  - intros k a Hk. apply lookup_delete_Some in Hk as [Hne Hk].
    destruct (HA k a Hk) as (ao & Ha & Hao & Hid & Hnc).
    assert (a ≠ c) by (intros ->; congruence).
    exists ao. by rewrite lookup_insert_ne.
  - intros a ao Ha Hao Hnc. destruct (decide (a = c)) as [->|Hne].
    + rewrite lookup_insert_eq in Ha. by injection Ha as <-.
    + rewrite lookup_insert_ne in Ha by done.
      rewrite lookup_delete_ne; [by apply HB|].
      intros Hid. apply Hne. symmetry. by apply (HD c a co ao).
  - intros a ao Ha Hao. destruct (decide (a = c)) as [->|Hne].
    + rewrite lookup_insert_eq in Ha. injection Ha as <-. by apply (HC c co).
    + rewrite lookup_insert_ne in Ha by done. by apply (HC a ao).
  - intros a a' ao ao' Ha Ha' Hao Hao' Hid.
    assert (Hback : ∀ b bo, <[c:=set_nc None co]> (w_heap w) !! b = Some bo ->
              ∃ bo', w_heap w !! b = Some bo' ∧ c_pool bo' = c_pool bo
                     ∧ c_poolID bo' = c_poolID bo).
    { intros b bo Hb. destruct (decide (b = c)) as [->|Hne].
      - rewrite lookup_insert_eq in Hb. injection Hb as <-. by exists co.
      - rewrite lookup_insert_ne in Hb by done. by exists bo. }
    destruct (Hback a ao Ha) as (bo & Hb & Hp & Hi).
    destruct (Hback a' ao' Ha') as (bo' & Hb' & Hp' & Hi').
    apply (HD a a' bo bo'); congruence.
  - done.
Qed.

Lemma put_accounting c w : accounting w -> accounting (put c w).1.
Proof.
  intros H. destruct (put_cases c w) as [-> | [-> | (co & _ & _ & _ & _ & ->)]].
  - done.
  - by apply close_accounting.
  - by apply with_pool_accounting.
Qed.

Lemma foldl_kept (P : world -> Prop) (f : addr -> world -> world) l :
  (∀ c w, P w -> P (f c w)) -> ∀ w, P w -> P (foldl (fun w c => f c w) w l).
Proof.
  intros Hf. induction l as [|c l IH]; intros w Hw; simpl; [done|].
  apply IH, Hf, Hw.
Qed.

Lemma closeIdle_accounting q : ∀ w, accounting w -> accounting (closeIdle q w).
Proof.
  induction q as [|pc q IH]; intros w Hw; simpl; [done|].
  apply IH, close_accounting. by apply with_pool_accounting.
Qed.

Lemma waitLoop_accounting E fires ticks : ∀ k w,
  accounting w -> accounting (waitLoop E fires ticks k w).1.
Proof.
  induction ticks as [|n IH]; intros k w Hw; simpl.
  - by apply (foldl_kept accounting (fun c w => (put c w).1)), Hw; intros; apply put_accounting.
  - assert (accounting (putAll (returned E k) w)) as Hw1.
    { by apply (foldl_kept accounting (fun c w => (put c w).1)), Hw; intros; apply put_accounting. }
    destruct (_ <? _)%nat; [by apply IH | done].
Qed.

Lemma beforeForceClose_accounting E ctx w :
  accounting w -> accounting (beforeForceClose E ctx w).1.
Proof.
  intros Hw. unfold beforeForceClose.
  assert (H2 : accounting (closeIdle (p_conns (w_pool w))
                             (with_pool (set_connected disconnecting) w))).
  { apply closeIdle_accounting. by apply with_pool_accounting. }
  destruct (ctx_Deadline ctx) as [dl|]; [|done].
  unfold gracefulWait. destruct (_ <=? _); [done|]. by apply waitLoop_accounting.
Qed.

(** [close] only takes entries out of the opened map. *)
Lemma close_opened_sub pc w k c :
  p_opened (w_pool (close pc w).1) !! k = Some c -> p_opened (w_pool w) !! k = Some c.
Proof.
  destruct (close_effect pc w) as [-> | (co & _ & _ & -> & _)]; [done|].
  intros H. by apply lookup_delete_Some in H as [_ H].
Qed.

(** What is left in the opened map once the connections of [l] have been
    closed was there before and is not one of them. *)
Lemma closeAll_left l : ∀ w k c,
  accounting w ->
  p_opened (w_pool (closeAll l w)) !! k = Some c ->
  p_opened (w_pool w) !! k = Some c ∧ c ∉ l.
Proof.
  induction l as [|pc l IH]; intros w k c Hw Hk; simpl in *.
  - split; [done|]. apply not_elem_of_nil.
  - destruct (IH (close pc w).1 k c (close_accounting pc w Hw) Hk) as [Hk1 Hnotin].
    split; [by apply (close_opened_sub pc)|].
    apply not_elem_of_cons. split; [|done]. intros ->.
    pose proof (close_opened_sub pc w k pc Hk1) as Hk0.
    destruct Hw as (HA & _).
    destruct (HA k pc Hk0) as (co & Hco & Hown & Hid & _).
    destruct (close_effect pc w) as [Heq | (co' & Hco' & _ & Ho & _)].
    + unfold close in Heq. rewrite Hco in Heq. unfold own in Hown.
      rewrite decide_True in Heq by done.
      unfold close in Hk1. rewrite Hco in Hk1. rewrite decide_True in Hk1 by done.
      destruct (c_nc co) as [nc|]; [destruct (nc_Close nc)|]; simpl in Hk1;
        rewrite Hid in Hk1; by rewrite lookup_delete_eq in Hk1.
    + rewrite Ho in Hk1. rewrite Hco in Hco'. injection Hco' as <-.
      rewrite Hid in Hk1. by rewrite lookup_delete_eq in Hk1.
Qed.

Lemma closeAll_accounting l : ∀ w, accounting w -> accounting (closeAll l w).
Proof.
  intros w Hw. by apply (foldl_kept accounting (fun c w => (close c w).1)), Hw;
    intros; apply close_accounting.
Qed.

(** Closing every value of the opened map empties it. *)
Lemma closeAll_empties w :
  accounting w -> p_opened (w_pool (closeAll (toClose w) w)) = ∅.
Proof.
  intros Hw. apply map_empty. intros k.
  destruct (p_opened (w_pool (closeAll (toClose w) w)) !! k) as [c|] eqn:Hk; [|done].
  destruct (closeAll_left (toClose w) w k c Hw Hk) as [Hk0 Hnotin].
  exfalso. apply Hnotin. unfold toClose.
  apply list_elem_of_fmap. exists (k, c). split; [done|].
  by apply elem_of_map_to_list.
Qed.

(** With an empty opened map no connection of the pool is open. *)
Lemma accounting_empty_closed w :
  accounting w -> p_opened (w_pool w) = ∅ -> all_closed w.
Proof.
  intros (_ & HB & _) Hempty c co Hc Hown.
  destruct (c_nc co) as [nc|] eqn:Hnc; [|done]. exfalso.
  assert (Hopen : c_nc co ≠ None) by congruence.
  pose proof (HB c co Hc Hown Hopen) as Hk. rewrite Hempty in Hk.
  by rewrite lookup_empty in Hk.
Qed.

(** Making the new connection keeps the accounts, with an id to spare. *)
Lemma get_new_accounting E w :
  (∀ w, accounting w -> accounting (during_dial E w)) ->
  p_nextid (w_pool (during_dial E w)) < uint64_max ->
  accounting w -> accounting (get_new E w).1.
Proof.
  intros HE Hmax Hw. pose proof (HE w Hw) as Hw1.
  set (w1 := during_dial E w) in *.
  destruct (get_new_cases E w) as [(e & _ & ->) | (id & nc & _ & Hcases)]; [done|].
  fold w1 in Hcases. cbv zeta in Hcases.
  set (c := fresh (dom (w_heap w1))) in *.
  set (poolID := AddUint64 (p_nextid (w_pool w1)) 1) in *.
  set (co := mkConnection (Some (w_self w1)) poolID (gen w1) id (Some nc)) in *.
  set (w2 := mkWorld (w_self w1) (set_nextid poolID (w_pool w1))
                     (<[c := co]> (w_heap w1))) in *.
  destruct Hw1 as (HA & HB & HC & HD & HE').
  assert (HpoolID : poolID = p_nextid (w_pool w1) + 1).
  { unfold poolID, AddUint64. apply Z.mod_small. unfold uint64_max in Hmax. lia. }
  assert (Hfresh : w_heap w1 !! c = None) by apply fresh_heap.
  (* the world in which the connection is registered *)
  assert (Hreg : accounting
            (with_pool (fun p => set_opened (<[poolID := c]> (p_opened p)) p) w2)).
  { unfold accounting, own. simpl. split_and!.
    - intros k a Hk. destruct (decide (k = poolID)) as [->|Hne].
      + rewrite lookup_insert_eq in Hk. injection Hk as <-.
        exists co. by rewrite lookup_insert_eq.
      + rewrite lookup_insert_ne in Hk by done.
        destruct (HA k a Hk) as (ao & Ha & Hao & Hid & Hnc).
        exists ao. rewrite lookup_insert_ne; [done|]. congruence.
    - intros a ao Ha Hao Hnc. destruct (decide (a = c)) as [->|Hne].
      + rewrite lookup_insert_eq in Ha. injection Ha as <-. simpl.
        by rewrite lookup_insert_eq.
      + rewrite lookup_insert_ne in Ha by done.
        pose proof (HC a ao Ha Hao). rewrite lookup_insert_ne by lia.
        by apply HB.
    - intros a ao Ha Hao. destruct (decide (a = c)) as [->|Hne].
      + rewrite lookup_insert_eq in Ha. injection Ha as <-. simpl. lia.
      + rewrite lookup_insert_ne in Ha by done. pose proof (HC a ao Ha Hao). lia.
    - intros a a' ao ao' Ha Ha' Hao Hao' Hid.
      destruct (decide (a = c)) as [->|Hne], (decide (a' = c)) as [->|Hne'];
        [done | | |].
      + rewrite lookup_insert_eq in Ha. injection Ha as <-.
        rewrite lookup_insert_ne in Ha' by done.
        pose proof (HC a' ao' Ha' Hao'). simpl in Hid. lia.
      + rewrite lookup_insert_eq in Ha'. injection Ha' as <-.
        rewrite lookup_insert_ne in Ha by done.
        pose proof (HC a ao Ha Hao). simpl in Hid. lia.
      + rewrite lookup_insert_ne in Ha, Ha' by done. by apply (HD a a' ao ao').
    - lia. }
  destruct Hcases as [[_ ->] | [_ ->]]; simpl fst; [exact Hreg|].
  (* the pool has been disconnected: the connection is closed instead;
     closing it in [w2] is closing it once registered *)
  apply (close_accounting c) in Hreg.
  eapply accounting_ext; [| | | | exact Hreg].
  - by destruct (close_pool_fields c w2) as (-> & _),
      (close_pool_fields c (with_pool (fun p => set_opened (<[poolID := c]> (p_opened p)) p) w2))
      as (-> & _).
  - unfold close. simpl. rewrite !lookup_insert_eq. rewrite !decide_True by done.
    simpl. by destruct (nc_Close nc).
  - unfold close. simpl. rewrite !lookup_insert_eq. rewrite !decide_True by done.
    simpl. destruct (nc_Close nc); simpl; by rewrite delete_insert_eq.
  - by destruct (close_pool_fields c w2) as (_ & _ & _ & _ & -> & _),
      (close_pool_fields c (with_pool (fun p => set_opened (<[poolID := c]> (p_opened p)) p) w2))
      as (_ & _ & _ & _ & -> & _).
Qed.

Lemma get_loop_accounting E ctx q : ∀ n w,
  (∀ w, accounting w -> accounting (during_dial E w)) ->
  (∀ w', p_nextid (w_pool w') = p_nextid (w_pool w) ->
         p_nextid (w_pool (during_dial E w')) < uint64_max) ->
  accounting w -> accounting (get_loop E ctx n q w).1.
Proof.
  induction q as [|c q IH]; intros n w HE Hids Hw; simpl.
  - destruct (decide _); [|done].
    destruct (ctx_Err ctx); [done | apply get_new_accounting; auto].
  - destruct (decide _); [|done].
    assert (Hrecv : accounting
              (if conn_expired (with_pool (set_conns q) w) c
               then get_loop E ctx (S n) q (close c (with_pool (set_conns q) w)).1
               else (with_pool (set_conns q) w, (Some c, None))).1).
    { destruct (conn_expired _ c); simpl.
      - apply IH; [done | |].
        + intros w' Hw'. apply Hids. rewrite Hw'.
          by destruct (close_pool_fields c (with_pool (set_conns q) w))
            as (_ & _ & _ & _ & -> & _).
        + apply close_accounting. by apply with_pool_accounting.
      - by apply with_pool_accounting. }
    destruct (ctx_Err ctx); [|exact Hrecv].
    destruct (pick E n); [exact Hrecv | done].
Qed.

Lemma disconnect_accounting E ctx w :
  accounting w -> accounting (disconnect E ctx w).1.
Proof.
  intros Hw. unfold disconnect. destruct (decide _); [|done]. simpl fst.
  apply with_pool_accounting; [done | done |].
  by apply closeAll_accounting, beforeForceClose_accounting.
Qed.

Lemma run_accounting k w :
  keeps accounting k -> ids_left k w -> accounting w -> accounting (run k w).
Proof.
  intros Hk Hids Hw. destruct k as [| |E ctx|E ctx|c|c]; simpl.
  - unfold connect. destruct (decide _); [|done]. simpl.
    apply with_pool_accounting; [done | done |]. by apply with_pool_accounting.
  - by apply with_pool_accounting.
  - by apply disconnect_accounting.
  - by apply get_loop_accounting.
  - by apply put_accounting.
  - by apply close_accounting.
Qed.

(** **** The idle channel stays within its capacity *)

Lemma bounded_ext w w' :
  p_conns (w_pool w') = p_conns (w_pool w) -> p_size (w_pool w') = p_size (w_pool w) ->
  bounded w -> bounded w'.
Proof. unfold bounded. by intros -> ->. Qed.

Lemma close_bounded c w : bounded w -> bounded (close c w).1.
Proof.
  destruct (close_pool_fields c w) as (_ & _ & _ & Hq & _ & Hs).
  by apply bounded_ext.
Qed.

Lemma put_bounded c w : bounded w -> bounded (put c w).1.
Proof.
  intros Hw. unfold put. destruct (w_heap w !! c) as [co|]; [|done].
  destruct (decide _); [|done].
  destruct (negb _ || _); [by apply close_bounded|].
  destruct (_ <? _)%nat eqn:Hroom; [|by apply close_bounded].
  apply Nat.ltb_lt in Hroom. unfold bounded. simpl. rewrite length_app. simpl. lia.
Qed.

Lemma closeIdle_conns q w : p_conns (w_pool w) = q -> p_conns (w_pool (closeIdle q w)) = [].
Proof.
  intros Hq. destruct (closeIdle_quiet q w) as (_ & _ & _ & _ & ->).
  - by intros c; rewrite Hq.
  - by destruct q.
Qed.

Lemma closeIdle_size q : ∀ w, p_size (w_pool (closeIdle q w)) = p_size (w_pool w).
Proof.
  induction q as [|pc q IH]; intros w; simpl; [done|]. rewrite IH.
  by destruct (close_pool_fields pc (with_pool (set_conns q) w)) as (_ & _ & _ & _ & _ & ->).
Qed.

Lemma waitLoop_bounded E fires ticks : ∀ k w,
  bounded w -> bounded (waitLoop E fires ticks k w).1.
Proof.
  induction ticks as [|n IH]; intros k w Hw; simpl.
  - by apply (foldl_kept bounded (fun c w => (put c w).1)), Hw; intros; apply put_bounded.
  - assert (bounded (putAll (returned E k) w)) as Hw1.
    { by apply (foldl_kept bounded (fun c w => (put c w).1)), Hw; intros; apply put_bounded. }
    destruct (_ <? _)%nat; [by apply IH | done].
Qed.

Lemma disconnect_bounded E ctx w : bounded w -> bounded (disconnect E ctx w).1.
Proof.
  intros Hw. unfold disconnect. destruct (decide _); [|done]. simpl fst.
  apply (bounded_ext (closeAll (toClose (beforeForceClose E ctx w).1)
                        (beforeForceClose E ctx w).1)); [done | done |].
  apply (foldl_kept bounded (fun c w => (close c w).1)); [intros; by apply close_bounded|].
  unfold beforeForceClose.
  set (w1 := with_pool (set_connected disconnecting) w).
  assert (H2 : bounded (closeIdle (p_conns (w_pool w1)) w1)).
  { unfold bounded. rewrite closeIdle_conns by done. simpl. lia. }
  destruct (ctx_Deadline ctx) as [dl|]; [|done].
  unfold gracefulWait. destruct (_ <=? _); [done|]. by apply waitLoop_bounded.
Qed.

Lemma get_new_bounded E w :
  (∀ w, bounded w -> bounded (during_dial E w)) ->
  bounded w -> bounded (get_new E w).1.
Proof.
  intros HE Hw. pose proof (HE w Hw) as Hw1.
  destruct (get_new_cases E w) as [(e & _ & ->) | (id & nc & _ & [[_ ->] | [_ ->]])];
    cbv zeta; simpl fst; [done | done |].
  by apply close_bounded.
Qed.

Lemma get_loop_bounded E ctx q : ∀ n w,
  (∀ w, bounded w -> bounded (during_dial E w)) ->
  (length q <= p_size (w_pool w))%nat ->
  bounded w -> bounded (get_loop E ctx n q w).1.
Proof.
  induction q as [|c q IH]; intros n w HE Hq Hw; simpl.
  - destruct (decide _); [|done].
    destruct (ctx_Err ctx); [done | by apply get_new_bounded].
  - destruct (decide _); [|done]. simpl in Hq.
    assert (Hw1 : bounded (with_pool (set_conns q) w)) by (unfold bounded; simpl; lia).
    assert (Hrecv : bounded
              (if conn_expired (with_pool (set_conns q) w) c
               then get_loop E ctx (S n) q (close c (with_pool (set_conns q) w)).1
               else (with_pool (set_conns q) w, (Some c, None))).1).
    { destruct (conn_expired _ c); simpl; [|done].
      apply IH; [done | | by apply close_bounded].
      destruct (close_pool_fields c (with_pool (set_conns q) w))
        as (_ & _ & _ & _ & _ & ->). simpl. lia. }
    destruct (ctx_Err ctx); [|exact Hrecv].
    destruct (pick E n); [exact Hrecv | done].
Qed.

Lemma run_bounded k w : keeps bounded k -> bounded w -> bounded (run k w).
Proof.
  intros Hk Hw. destruct k as [| |E ctx|E ctx|c|c]; simpl.
  - unfold connect. by destruct (decide _).
  - done.
  - by apply disconnect_bounded.
  - by apply get_loop_bounded.
  - by apply put_bounded.
  - by apply close_bounded.
Qed.

Lemma runs_kept (P : world -> Prop) (ok : call -> Prop) :
  (∀ k w, ok k -> P w -> P (run k w)) ->
  ∀ ks w, Forall ok ks -> P w -> P (runs ks w).
Proof.
  intros Hrun ks. induction ks as [|k ks IH]; intros w Hok Hw; simpl; [done|].
  apply Forall_cons in Hok as [Hk Hks]. by apply IH, Hrun.
Qed.

Lemma newPool_accounting self address size : accounting (newPool self address size).
Proof.
  unfold accounting. simpl. split_and!; try done;
    intros; match goal with H : ∅ !! _ = Some _ |- _ => by rewrite lookup_empty in H end.
Qed.

Lemma runs_accounting ks : ∀ w,
  orderly ks w -> accounting w -> accounting (runs ks w).
Proof.
  induction ks as [|k ks IH]; intros w Hks Hw; simpl; [done|].
  destruct Hks as (Hk & Hids & Hrest). by apply IH, run_accounting.
Qed.

Lemma quiet_keeps (P : world -> Prop) ctx : keeps P (Get quiet ctx).
Proof. intros w H. exact H. Qed.

Lemma oneCheckedOut_accounting : accounting oneCheckedOut.
Proof.
  apply (runs_accounting [Connect; Get quiet background]
           (newPool 1%positive "localhost:27017" 1)); [|apply newPool_accounting].
  simpl. split_and!; try exact I; [intros w H; exact H|].
  intros w' Hw'. rewrite Hw'. vm_compute. reflexivity.
Qed.

Lemma closeAll_conns l : ∀ w, p_conns (w_pool (closeAll l w)) = p_conns (w_pool w).
Proof.
  unfold closeAll. induction l as [|c l IH]; intros w; simpl; [done|].
  rewrite IH. by destruct (close_pool_fields c w) as (_ & _ & _ & -> & _).
Qed.

(** **** [put] on a pool that is not connected *)

Lemma put_not_connected c w :
  p_connected (w_pool w) ≠ connected ->
  p_conns (w_pool (put c w).1) = p_conns (w_pool w)
  ∧ p_connected (w_pool (put c w).1) = p_connected (w_pool w).
Proof.
  intros Hc. destruct (put_quiet c w) as (_ & _ & Hflag & _). split; [|done].
  destruct (put_cases c w) as [-> | [-> | (co & _ & _ & Hconn & _)]]; [done | | done].
  by destruct (close_pool_fields c w) as (_ & _ & _ & -> & _).
Qed.

Lemma putAll_not_connected l : ∀ w,
  p_connected (w_pool w) ≠ connected ->
  p_conns (w_pool (putAll l w)) = p_conns (w_pool w)
  ∧ p_connected (w_pool (putAll l w)) = p_connected (w_pool w).
Proof.
  induction l as [|c l IH]; intros w Hc; simpl; [done|].
  destruct (put_not_connected c w Hc) as [Hq Hf].
  destruct (IH (put c w).1) as [Hq' Hf']; [by rewrite Hf|].
  split; congruence.
Qed.

Lemma waitLoop_not_connected E fires ticks : ∀ k w,
  p_connected (w_pool w) ≠ connected ->
  p_conns (w_pool (waitLoop E fires ticks k w).1) = p_conns (w_pool w).
Proof.
  induction ticks as [|n IH]; intros k w Hc; simpl;
    destruct (putAll_not_connected (returned E k) w Hc) as [Hq Hf]; [done|].
  destruct (_ <? _)%nat; [|done]. rewrite IH; [done | by rewrite Hf].
Qed.

(** **** The connections [closeIdle] closes *)

Lemma close_closed_kept pc w a co :
  w_heap w !! a = Some co -> c_nc co = None ->
  ∃ co', w_heap (close pc w).1 !! a = Some co' ∧ c_nc co' = None.
Proof.
  intros Ha Hnc. destruct (close_heap_static pc w a co Ha) as (co' & ? & _ & _ & _ & Hk).
  exists co'. auto.
Qed.

Lemma closeIdle_closed_kept q : ∀ w a co,
  w_heap w !! a = Some co -> c_nc co = None ->
  ∃ co', w_heap (closeIdle q w) !! a = Some co' ∧ c_nc co' = None.
Proof.
  induction q as [|pc q IH]; intros w a co Ha Hnc; simpl; [by exists co|].
  destruct (close_closed_kept pc (with_pool (set_conns q) w) a co Ha Hnc)
    as (co' & Ha' & Hnc').
  by apply (IH _ a co').
Qed.

Lemma closeIdle_closes q : ∀ w c,
  (∀ a, a ∈ q -> ∃ co, w_heap w !! a = Some co ∧ c_pool co = Some (w_self w)) ->
  c ∈ q ->
  ∃ co', w_heap (closeIdle q w) !! c = Some co' ∧ c_nc co' = None.
Proof.
  induction q as [|pc q IH]; intros w c Hown Hc; [by apply elem_of_nil in Hc|].
  simpl. set (w1 := with_pool (set_conns q) w).
  assert (Hown1 : ∀ a, a ∈ q ->
            ∃ co, w_heap (close pc w1).1 !! a = Some co
                  ∧ c_pool co = Some (w_self (close pc w1).1)).
  { intros a Ha. destruct (Hown a) as (co & Hco & Hp); [by right|].
    destruct (close_heap_static pc w1 a co Hco) as (co' & Hco' & Hp' & _).
    exists co'. split; [done|].
    destruct (close_pool_fields pc w1) as (-> & _). by rewrite Hp'. }
  apply elem_of_cons in Hc as [-> | Hc]; [|by apply IH].
  destruct (Hown pc) as (co & Hco & Hp); [by left|].
  destruct (close_closes pc w1 co Hco Hp) as (co' & Hco' & Hnc & _).
  by apply (closeIdle_closed_kept q _ pc co').
Qed.

(** **** The heap under [close] *)

Lemma close_dom c w : dom (w_heap (close c w).1) = dom (w_heap w).
Proof.
  destruct (close_effect c w) as [-> | (co & Hc & _ & _ & -> & _)]; [done|].
  apply dom_insert_lookup_L. by exists co.
Qed.

(** **** The wait of [disconnect] *)

Lemma waitLoop_exit E fires ticks : ∀ k w,
  (ticks = 0%nat ∨ now E + Z.of_nat (k + ticks - 1) * Second < fires) ->
  now E <= fires ->
  let r := waitLoop E fires ticks k w in
  now E <= r.2 <= fires
  ∧ (r.2 < fires -> p_opened (w_pool r.1) = ∅).
Proof.
  induction ticks as [|n IH]; intros k w Hlast Hk; simpl.
  - split; [lia | intros; lia].
  - destruct Hlast as [|Hlast]; [done|].
    destruct (0 <? size (p_opened (w_pool (putAll (returned E k) w))))%nat eqn:Hsize.
    + apply IH; [|done]. destruct n; [by left | right].
      replace (S k + S n - 1)%nat with (k + S (S n) - 1)%nat by lia. done.
    + simpl. apply Nat.ltb_ge in Hsize. split.
      * assert (Z.of_nat k <= Z.of_nat (k + S n - 1)) by lia.
        unfold Second in *. nia.
      * intros _. apply map_size_empty_iff. lia.
Qed.

(** *** [get] with a context that is done *)

Lemma get_loop_done E ctx e q : ∀ n w,
  ctx_Err ctx = Some e ->
  p_nextid (w_pool (get_loop E ctx n q w).1) = p_nextid (w_pool w)
  ∧ dom (w_heap (get_loop E ctx n q w).1) = dom (w_heap w)
  ∧ ((∃ c, (get_loop E ctx n q w).2 = (Some c, None) ∧ c ∈ q)
     ∨ (get_loop E ctx n q w).2 = (None, Some (ContextError e))
     ∨ (get_loop E ctx n q w).2 = (None, Some ErrPoolDisconnected)).
Proof.
  induction q as [|c q IH]; intros n w He; simpl.
  - destruct (decide _); rewrite ?He; simpl; split_and!; auto.
  - destruct (decide _); [|simpl; split_and!; auto].
    rewrite He. destruct (pick E n); [|simpl; split_and!; auto].
    destruct (conn_expired _ c).
    + destruct (IH (S n) (close c (with_pool (set_conns q) w)).1 He) as (Hn & Hd & Hr).
      destruct (close_pool_fields c (with_pool (set_conns q) w)) as (_ & _ & _ & _ & Hid & _).
      split_and!.
      * exact (eq_trans Hn Hid).
      * exact (eq_trans Hd (close_dom c (with_pool (set_conns q) w))).
      * destruct Hr as [(a & Ha & Hin) | Hr]; [left | right; exact Hr].
        exists a. split; [exact Ha | apply elem_of_cons; by right].
    + simpl. split_and!; [done | done |]. left. exists c. split; [done | apply elem_of_cons; by left].
Qed.

Lemma fresh_pool_wf : wf fresh_pool.
Proof.
  split.
  - intros c Hc. by apply elem_of_nil in Hc.
  - intros c co Hc. change (w_heap fresh_pool) with (∅ : gmap addr connection) in Hc.
    by rewrite lookup_empty in Hc.
Qed.

Lemma drain_expires w c co :
  wf w -> gen w < uint64_max ->
  w_heap w !! c = Some co -> own w co ->
  conn_expired (drain w) c = true.
Proof.
  intros [_ Hgen] Hmax Hc Hown. pose proof (Hgen c co Hc Hown) as Hle.
  pose proof (AddUint64_grows _ Hmax) as Hgrow.
  unfold conn_expired, expired. simpl. rewrite Hc. apply Z.ltb_lt. unfold gen in *. lia.
Qed.

(** *** What [disconnect] leaves behind *)

Lemma disconnect_result E ctx w :
  accounting w ->
  p_connected (w_pool w) = connected ->
  (disconnect E ctx w).2 = None
  ∧ p_connected (w_pool (disconnect E ctx w).1) = disconnected
  ∧ p_conns (w_pool (disconnect E ctx w).1) = []
  ∧ p_opened (w_pool (disconnect E ctx w).1) = ∅
  ∧ all_closed (disconnect E ctx w).1.
Proof.
  intros Hw Hc.
  pose proof (disconnect_accounting E ctx w Hw) as Hacc.
  unfold disconnect in *. rewrite decide_True in * by done. simpl in *.
  set (w3 := (beforeForceClose E ctx w).1) in *.
  assert (Hw3 : accounting w3) by by apply beforeForceClose_accounting.
  assert (Hq3 : p_conns (w_pool w3) = []).
  { unfold w3, beforeForceClose.
    set (w1 := with_pool (set_connected disconnecting) w).
    assert (Hq2 : p_conns (w_pool (closeIdle (p_conns (w_pool w1)) w1)) = [])
      by by apply closeIdle_conns.
    destruct (ctx_Deadline ctx) as [dl|]; [|done].
    unfold gracefulWait. destruct (_ <=? _); [done|].
    rewrite waitLoop_not_connected; [done|].
    destruct (closeIdle_quiet (p_conns (w_pool w1)) w1) as (_ & _ & -> & _); done. }
  assert (Hempty : p_opened (w_pool (closeAll (toClose w3) w3)) = ∅)
    by by apply closeAll_empties.
  split_and!; [done | done | | done |].
  - by rewrite closeAll_conns.
  - apply accounting_empty_closed; [exact Hacc | exact Hempty].
Qed.

(** The wait of [disconnect] lasts until a tick finds the opened map
    empty, and no longer than the timer. *)
Lemma gracefulWait_exit E dl w :
  dl < now E ->
  now E <= (gracefulWait E dl w).2 <= now E + (now E - dl)
  ∧ ((gracefulWait E dl w).2 < now E + (now E - dl) ->
     p_opened (w_pool (gracefulWait E dl w).1) = ∅).
Proof.
  intros Hdl. unfold gracefulWait. cbv zeta.
  destruct (Z.leb_spec (now E - dl) 0) as [Hle | Hgt]; [lia|].
  apply waitLoop_exit; [|lia].
  destruct (Z.to_nat ((now E - dl - 1) / Second)) as [|t] eqn:Ht; [by left | right].
  rewrite <- Ht. replace (1 + Z.to_nat ((now E - dl - 1) / Second) - 1)%nat
    with (Z.to_nat ((now E - dl - 1) / Second)) by lia.
  assert (0 < Second) by (unfold Second; lia).
  assert (0 <= (now E - dl - 1) / Second) by (apply Z.div_pos; lia).
  rewrite Z2Nat.id by done.
  pose proof (Z.mul_div_le (now E - dl - 1) Second). lia.
Qed.

End PoolBookFacts.

(** * Further properties of the pool *)

Module PoolExtras.
Import Pool PoolFacts PoolBook PoolBookFacts.

(** X1.  Whatever calls are made on a new pool, the idle channel never
    holds more connections than the capacity of the pool (as long as the
    goroutines that run during a dial respect that too). *)
Theorem idle_cache_bounded (self : addr) (address : string) (size : nat)
    (ks : list call) :
  Forall (keeps bounded) ks ->
  bounded (runs ks (newPool self address size)).
Proof.
  intros Hks. apply (runs_kept bounded (keeps bounded) run_bounded); [done|].
  unfold bounded. simpl. lia.
Qed.

Lemma idle_cache_bounded_witness :
  bounded (runs [Connect; Get quiet background; Put 1%positive; Get quiet background;
                 Get quiet background; Put 1%positive; Put 2%positive]
             (newPool 1%positive "localhost:27017" 1)).
Proof.
  apply idle_cache_bounded. repeat constructor; intros w H; exact H.
Defined.

(** X2.  Whatever calls are made on a new pool, the opened map accounts
    for the open connections: each entry is an open connection of the
    pool under its own id, each open connection of the pool has its
    entry, and no two connections of the pool share an id (as long as the
    id counter has not reached 2^64-1 when a connection is made, and the
    goroutines that run during a dial keep the accounts too). *)
Theorem opened_accounts_for_open_connections (self : addr) (address : string)
    (size : nat) (ks : list call) :
  orderly ks (newPool self address size) ->
  accounting (runs ks (newPool self address size)).
Proof.
  intros Hks. apply runs_accounting; [done | apply newPool_accounting].
Qed.

Lemma opened_accounts_for_open_connections_witness :
  accounting oneCheckedOut.
Proof.
  apply (opened_accounts_for_open_connections 1%positive "localhost:27017" 1
           [Connect; Get quiet background]).
  simpl. split_and!; try exact I; [intros w H; exact H|].
  intros w' Hw'. rewrite Hw'. vm_compute. reflexivity.
Defined.

(** X3.  [disconnect] on a connected pool whose opened map accounts for
    the open connections returns nil and leaves the pool disconnected,
    the idle channel and the opened map empty, and every connection of
    the pool closed - whatever the context and whatever is returned
    during the wait. *)
Theorem disconnect_closes_every_connection (E : disconnectEnv) (ctx : context)
    (w : world) :
  accounting w ->
  p_connected (w_pool w) = connected ->
  (disconnect E ctx w).2 = None
  ∧ p_connected (w_pool (disconnect E ctx w).1) = disconnected
  ∧ p_conns (w_pool (disconnect E ctx w).1) = []
  ∧ p_opened (w_pool (disconnect E ctx w).1) = ∅
  ∧ all_closed (disconnect E ctx w).1.
Proof. apply disconnect_result. Qed.

Lemma disconnect_closes_every_connection_witness :
  p_opened (w_pool (disconnect (mkDisconnectEnv 100 (fun _ => []))
                      (mkContext None (Some 0)) oneCheckedOut).1) = ∅
  ∧ all_closed (disconnect (mkDisconnectEnv 100 (fun _ => []))
                  (mkContext None (Some 0)) oneCheckedOut).1.
Proof.
  destruct (disconnect_closes_every_connection (mkDisconnectEnv 100 (fun _ => []))
              (mkContext None (Some 0)) oneCheckedOut) as (_ & _ & _ & H4 & H5).
  - exact oneCheckedOut_accounting.
  - reflexivity.
  - split; [exact H4 | exact H5].
Defined.

(** X4.  Below the last value of the generation counter, a [drain]
    leaves every connection of the pool expired, and so does the
    [connect] of a disconnected pool. *)
Theorem drain_expires_every_connection (w : world) (c : addr) (co : connection) :
  wf w ->
  p_generation (w_pool w) < uint64_max ->
  w_heap w !! c = Some co ->
  own w co ->
  conn_expired (drain w) c = true
  ∧ (p_connected (w_pool w) = disconnected -> conn_expired (connect w).1 c = true).
Proof.
  intros [_ Hgen] Hmax Hc Hown. pose proof (Hgen c co Hc Hown) as Hle.
  pose proof (AddUint64_grows _ Hmax) as Hgrow. split.
  - unfold conn_expired, expired. simpl. rewrite Hc. apply Z.ltb_lt. lia.
  - intros Hd. unfold connect. rewrite decide_True by done.
    unfold conn_expired, expired. simpl. rewrite Hc. apply Z.ltb_lt. lia.
Qed.

Lemma drain_expires_every_connection_witness :
  conn_expired (drain oneCheckedOut) 1%positive = true.
Proof.
  destruct (drain_expires_every_connection oneCheckedOut 1%positive
              (mkConnection (Some 1%positive) 1 1 "conn" (Some (mkNetConn None))))
    as [H _]; [| vm_compute; reflexivity | vm_compute; reflexivity | reflexivity | exact H].
  apply (runs_sound [Connect; Get quiet background]
           (newPool 1%positive "localhost:27017" 1)); [|apply newPool_wf].
  simpl. split_and!; try exact I; [vm_compute; reflexivity | vm_compute; reflexivity |].
  apply quiet_steady.
Defined.

(** X5.  A connection that is [put] into the empty idle channel of a
    connected pool is the one the next [get] hands out, without a dial,
    and the pool is then as it was before the [put]. *)
Theorem put_then_get_reuses (E : getEnv) (ctx : context) (w : world) (c : addr)
    (co : connection) :
  p_connected (w_pool w) = connected ->
  p_conns (w_pool w) = [] ->
  (0 < p_size (w_pool w))%nat ->
  w_heap w !! c = Some co ->
  own w co ->
  conn_expired w c = false ->
  ctx_Err ctx = None ∨ pick E 0 = true ->
  put c w = (with_pool (set_conns [c]) w, None)
  ∧ get E ctx (with_pool (set_conns [c]) w) = (w, (Some c, None)).
Proof.
  intros Hconn Hq Hsize Hc Hown Hexp Hctx. split.
  - unfold put. rewrite Hc. unfold own in Hown. rewrite decide_True by done.
    rewrite bool_decide_eq_true_2 by done. rewrite Hexp. simpl. rewrite Hq. simpl.
    apply Nat.ltb_lt in Hsize. rewrite Hsize. unfold with_pool. simpl. by rewrite Hq.
  - unfold get. simpl. rewrite decide_True by done.
    assert (conn_expired (with_pool (set_conns [])
                            (with_pool (set_conns [c]) w)) c = false) as -> by exact Hexp.
    assert (Hw : with_pool (set_conns []) (with_pool (set_conns [c]) w) = w).
    { destruct w as [self [] heap]. simpl in *. by subst. }
    rewrite Hw. destruct Hctx as [-> | Hpick]; [done|].
    destruct (ctx_Err ctx); [by rewrite Hpick | done].
Qed.

Lemma put_then_get_reuses_witness :
  put 1%positive oneCheckedOut = (with_pool (set_conns [1%positive]) oneCheckedOut, None)
  ∧ get quiet background (with_pool (set_conns [1%positive]) oneCheckedOut)
    = (oneCheckedOut, (Some 1%positive, None)).
Proof.
  apply (put_then_get_reuses quiet background oneCheckedOut 1%positive
           (mkConnection (Some 1%positive) 1 1 "conn" (Some (mkNetConn None))));
    first [left; reflexivity | vm_compute; reflexivity | vm_compute; lia].
Defined.

(** X6.  Closing a connection of the pool a second time returns nil and
    changes nothing. *)
Theorem close_twice (c : addr) (w : world) (co : connection) :
  w_heap w !! c = Some co ->
  own w co ->
  close c (close c w).1 = ((close c w).1, None).
Proof.
  intros Hc Hown. unfold own in Hown.
  destruct (close_closes c w co Hc Hown) as (co' & Hco' & Hnc & Hid & Ho).
  destruct (close_heap_static c w c co Hc) as (co2 & Hco2 & Hp & _).
  rewrite Hco' in Hco2. injection Hco2 as <-.
  destruct (close_pool_fields c w) as (Hs & _).
  set (w1 := (close c w).1) in *.
  unfold close at 1. rewrite Hco'. rewrite decide_True by congruence.
  rewrite Hnc. f_equal.
  destruct w1 as [self1 [] heap1]. unfold with_pool. simpl in *. do 2 f_equal.
  rewrite Ho, Hid. unfold set_opened. simpl. f_equal. apply delete_delete_eq.
Qed.

Lemma close_twice_witness :
  close 1%positive (close 1%positive oneCheckedOut).1
  = ((close 1%positive oneCheckedOut).1, None).
Proof.
  apply (close_twice 1%positive oneCheckedOut
           (mkConnection (Some 1%positive) 1 1 "conn" (Some (mkNetConn None))));
    reflexivity.
Defined.

(** X7.  [get] with a context that is already done never dials: the id
    counter and the set of connections stay as they are, and the call
    hands out a connection that was idle, or returns [ctx.Err()], or
    [ErrPoolDisconnected]; on a connected pool with nothing idle it
    returns [ctx.Err()] and changes nothing. *)
Theorem get_done_context_never_dials (E : getEnv) (ctx : context) (w : world)
    (e : ctxError) :
  ctx_Err ctx = Some e ->
  p_nextid (w_pool (get E ctx w).1) = p_nextid (w_pool w)
  ∧ dom (w_heap (get E ctx w).1) = dom (w_heap w)
  ∧ ((∃ c, (get E ctx w).2 = (Some c, None) ∧ c ∈ p_conns (w_pool w))
     ∨ (get E ctx w).2 = (None, Some (ContextError e))
     ∨ (get E ctx w).2 = (None, Some ErrPoolDisconnected))
  ∧ (p_connected (w_pool w) = connected -> p_conns (w_pool w) = [] ->
     get E ctx w = (w, (None, Some (ContextError e)))).
Proof.
  intros He. destruct (get_loop_done E ctx e (p_conns (w_pool w)) 0 w He) as (Hn & Hd & Hr).
  split_and!; [exact Hn | exact Hd | exact Hr |].
  intros Hc Hq. unfold get. rewrite Hq. simpl. rewrite decide_True by done. by rewrite He.
Qed.

Lemma get_done_context_never_dials_witness :
  get quiet cancelled fresh_pool = (fresh_pool, (None, Some (ContextError Canceled))).
Proof.
  destruct (get_done_context_never_dials quiet cancelled fresh_pool Canceled)
    as (_ & _ & _ & H); [reflexivity|].
  apply H; reflexivity.
Defined.

(** X8.  A connection that [get] hands out is a connection of this pool
    and carries the generation the pool has then: [get] never hands out
    an expired connection. *)
Theorem get_hands_out_current_generation (E : getEnv) (ctx : context)
    (w w1 : world) (c : addr) :
  wf w ->
  get E ctx w = (w1, (Some c, None)) ->
  ∃ co, w_heap w1 !! c = Some co ∧ own w1 co ∧ c_generation co = gen w1
        ∧ conn_expired w1 c = false.
Proof.
  intros Hw Hget.
  destruct (get_loop_returns E ctx (p_conns (w_pool w)) 0 w w1 c) as (co & Hc & Hown & Hg);
    [done | done | exact Hget |].
  exists co. split_and!; [done | done | done |].
  unfold conn_expired, expired. rewrite Hc, Hg. apply Z.ltb_irrefl.
Qed.

Lemma get_hands_out_current_generation_witness :
  ∃ co, w_heap oneCheckedOut !! 1%positive = Some co ∧ own oneCheckedOut co
        ∧ c_generation co = gen oneCheckedOut
        ∧ conn_expired oneCheckedOut 1%positive = false.
Proof.
  apply (get_hands_out_current_generation quiet background fresh_pool).
  - exact fresh_pool_wf.
  - reflexivity.
Defined.

(** X9.  After a [drain] (below the last value of the generation
    counter) the next [get] of a connected pool, with a context that is
    not done, takes every idle connection off the channel and closes it,
    and then dials a new one. *)
Theorem get_after_drain_discards_idle (E : getEnv) (ctx : context) (w : world) :
  wf w ->
  gen w < uint64_max ->
  p_connected (w_pool w) = connected ->
  ctx_Err ctx = None ->
  get E ctx (drain w) = get_new E (closeIdle (p_conns (w_pool w)) (drain w))
  ∧ p_conns (w_pool (closeIdle (p_conns (w_pool w)) (drain w))) = []
  ∧ ∀ c, c ∈ p_conns (w_pool w) ->
         ∃ co, w_heap (closeIdle (p_conns (w_pool w)) (drain w)) !! c = Some co
               ∧ c_nc co = None.
Proof.
  intros Hw Hmax Hc He. split_and!.
  - unfold get. apply get_loop_all_expired; [done | done |].
    apply Forall_forall. intros c Hin. destruct Hw as [Hidle Hgen].
    destruct (Hidle c Hin) as (co & Hco & Hown).
    by apply (drain_expires w c co).
  - by apply closeIdle_conns.
  - intros c Hin. apply closeIdle_closes; [|done].
    intros a Ha. destruct Hw as [Hidle _]. exact (Hidle a Ha).
Qed.

Lemma get_after_drain_discards_idle_witness :
  ∃ co, w_heap (closeIdle [1%positive] (drain (put 1%positive oneCheckedOut).1))
          !! 1%positive = Some co ∧ c_nc co = None.
Proof.
  destruct (get_after_drain_discards_idle quiet background (put 1%positive oneCheckedOut).1)
    as (_ & _ & H).
  - apply (runs_sound [Connect; Get quiet background; Put 1%positive]
             (newPool 1%positive "localhost:27017" 1)); [|apply newPool_wf].
    simpl. split_and!; try exact I; try (vm_compute; reflexivity). apply quiet_steady.
  - vm_compute. reflexivity.
  - reflexivity.
  - reflexivity.
  - apply (H 1%positive). vm_compute. apply elem_of_cons; by left.
Defined.

(** X10.  A pool that is disconnected and connected again starts anew:
    [connect] returns nil, the generation has moved on, nothing is idle,
    nothing is open, and every connection the pool made before is closed
    and expired. *)
Theorem reconnect_starts_clean (E : disconnectEnv) (ctx : context) (w : world) :
  wf w ->
  accounting w ->
  p_connected (w_pool w) = connected ->
  gen w < uint64_max ->
  (connect (disconnect E ctx w).1).2 = None
  ∧ p_connected (w_pool (connect (disconnect E ctx w).1).1) = connected
  ∧ gen w < gen (connect (disconnect E ctx w).1).1
  ∧ p_conns (w_pool (connect (disconnect E ctx w).1).1) = []
  ∧ p_opened (w_pool (connect (disconnect E ctx w).1).1) = ∅
  ∧ ∀ c co, w_heap (connect (disconnect E ctx w).1).1 !! c = Some co ->
            own (connect (disconnect E ctx w).1).1 co ->
            c_nc co = None ∧ conn_expired (connect (disconnect E ctx w).1).1 c = true.
Proof.
  intros Hw Hacc Hc Hmax.
  destruct (disconnect_result E ctx w Hacc Hc) as (_ & Hd & Hq & Ho & Hclosed).
  destruct (disconnect_sound E ctx w) as [Hwf Hgen]. specialize (Hwf Hw).
  set (w1 := (disconnect E ctx w).1) in *.
  pose proof (AddUint64_grows _ Hmax) as Hgrow.
  unfold connect. rewrite decide_True by done. simpl.
  split_and!; [done | done | | done | done |].
  - unfold gen in *. simpl. rewrite Hgen. exact Hgrow.
  - intros c co Hco Hown. split; [exact (Hclosed c co Hco Hown)|].
    destruct Hwf as [_ Hle]. specialize (Hle c co Hco Hown).
    unfold conn_expired, expired. simpl. rewrite Hco. apply Z.ltb_lt.
    unfold gen in *. rewrite Hgen. lia.
Qed.

Lemma reconnect_starts_clean_witness :
  gen oneCheckedOut
  < gen (connect (disconnect (mkDisconnectEnv 0 (fun _ => [])) background oneCheckedOut).1).1
  ∧ p_opened (w_pool (connect (disconnect (mkDisconnectEnv 0 (fun _ => [])) background
                                 oneCheckedOut).1).1) = ∅.
Proof.
  destruct (reconnect_starts_clean (mkDisconnectEnv 0 (fun _ => [])) background oneCheckedOut)
    as (_ & _ & H3 & _ & H5 & _).
  - apply (runs_sound [Connect; Get quiet background]
             (newPool 1%positive "localhost:27017" 1)); [|apply newPool_wf].
    simpl. split_and!; try exact I; try (vm_compute; reflexivity). apply quiet_steady.
  - exact oneCheckedOut_accounting.
  - reflexivity.
  - vm_compute. reflexivity.
  - split; [exact H3 | exact H5].
Defined.

(** X11.  With a deadline that passed [d] ago, the wait of [disconnect]
    ends when a tick of the ticker finds the opened map empty, and at the
    latest [d] after it began, when the timer fires. *)
Theorem wait_ends_by_timer (E : disconnectEnv) (dl : Z) (w : world) :
  dl < now E ->
  now E <= (gracefulWait E dl w).2 <= now E + (now E - dl)
  ∧ ((gracefulWait E dl w).2 < now E + (now E - dl) ->
     p_opened (w_pool (gracefulWait E dl w).1) = ∅).
Proof. apply gracefulWait_exit. Qed.

Lemma wait_ends_by_timer_witness :
  100 * Second <= (gracefulWait (mkDisconnectEnv (100 * Second) (fun _ => []))
                     (97 * Second) oneCheckedOut).2 <= 103 * Second.
Proof.
  destruct (wait_ends_by_timer (mkDisconnectEnv (100 * Second) (fun _ => []))
              (97 * Second) oneCheckedOut) as [H _].
  - vm_compute. reflexivity.
  - exact H.
Defined.

(** X12.  [put] of a connection of the pool either caches it - only on
    a connected pool, for a connection that is not expired, with room in
    the channel, and then nothing else changes - or closes it and strikes
    it from the opened map; the idle channel never loses a connection by
    a [put]. *)
Theorem put_caches_or_closes (c : addr) (w : world) (co : connection) :
  w_heap w !! c = Some co ->
  own w co ->
  ((put c w).2 = None
   ∧ p_conns (w_pool (put c w).1) = p_conns (w_pool w) ++ [c]
   ∧ w_heap (put c w).1 = w_heap w
   ∧ p_opened (w_pool (put c w).1) = p_opened (w_pool w)
   ∧ p_connected (w_pool w) = connected
   ∧ conn_expired w c = false
   ∧ (length (p_conns (w_pool w)) < p_size (w_pool w))%nat)
  ∨ (p_conns (w_pool (put c w).1) = p_conns (w_pool w)
     ∧ p_opened (w_pool (put c w).1) = delete (c_poolID co) (p_opened (w_pool w))
     ∧ ∃ co', w_heap (put c w).1 !! c = Some co' ∧ c_nc co' = None).
Proof.
  intros Hc Hown. unfold own in Hown.
  assert (Hclose : p_conns (w_pool (close c w).1) = p_conns (w_pool w)
     ∧ p_opened (w_pool (close c w).1) = delete (c_poolID co) (p_opened (w_pool w))
     ∧ ∃ co', w_heap (close c w).1 !! c = Some co' ∧ c_nc co' = None).
  { destruct (close_closes c w co Hc Hown) as (co' & Hco' & Hnc & _ & Ho).
    destruct (close_pool_fields c w) as (_ & _ & _ & Hq & _).
    split_and!; [done | done | by exists co']. }
  unfold put. rewrite Hc. rewrite decide_True by done.
  destruct (decide (p_connected (w_pool w) = connected)) as [Hconn | Hconn].
  - rewrite bool_decide_eq_true_2 by done. simpl.
    destruct (conn_expired w c) eqn:Hexp; [by right|].
    destruct (Nat.ltb_spec (length (p_conns (w_pool w))) (p_size (w_pool w))); [|by right].
    left. split_and!; done.
  - rewrite bool_decide_eq_false_2 by done. simpl. by right.
Qed.

Lemma put_caches_or_closes_witness :
  p_conns (w_pool (put 1%positive oneCheckedOut).1) = [1%positive]
  ∨ p_opened (w_pool (put 1%positive oneCheckedOut).1) = ∅.
Proof.
  destruct (put_caches_or_closes 1%positive oneCheckedOut
              (mkConnection (Some 1%positive) 1 1 "conn" (Some (mkNetConn None))))
    as [(_ & H & _) | (_ & H & _)]; [reflexivity | reflexivity | left; exact H |].
  right. rewrite H. reflexivity.
Defined.

(** X13.  When the pool stops being connected while [get] is dialling,
    [get] returns [ErrPoolDisconnected], and the connection it has just
    made is closed and is not entered in the opened map. *)
Theorem get_closes_connection_dialled_too_late (E : getEnv) (ctx : context)
    (w : world) (id : string) (nc : netConn) :
  p_connected (w_pool w) = connected ->
  p_conns (w_pool w) = [] ->
  ctx_Err ctx = None ->
  newConnection E (during_dial E w) = DialOk id nc ->
  p_connected (w_pool (during_dial E w)) ≠ connected ->
  (get E ctx w).2 = (None, Some ErrPoolDisconnected)
  ∧ (∃ co, w_heap (get E ctx w).1 !! fresh (dom (w_heap (during_dial E w))) = Some co
           ∧ own (get E ctx w).1 co ∧ c_nc co = None)
  ∧ p_opened (w_pool (get E ctx w).1) !! AddUint64 (p_nextid (w_pool (during_dial E w))) 1
    = None
  ∧ p_conns (w_pool (get E ctx w).1) = p_conns (w_pool (during_dial E w)).
Proof.
  intros Hc Hq He Hdial Hgone.
  unfold get. rewrite Hq. simpl. rewrite decide_True by done. rewrite He.
  unfold get_new. rewrite Hdial. cbv zeta. simpl.
  rewrite decide_False by done. simpl.
  set (w1 := during_dial E w) in *.
  set (c := fresh (dom (w_heap w1))).
  set (poolID := AddUint64 (p_nextid (w_pool w1)) 1).
  set (co := mkConnection (Some (w_self w1)) poolID (p_generation (w_pool w1)) id (Some nc)).
  set (w2 := mkWorld (w_self w1) (set_nextid poolID (w_pool w1)) (<[c := co]> (w_heap w1))).
  assert (Hco : w_heap w2 !! c = Some co) by apply lookup_insert_eq.
  destruct (close_closes c w2 co Hco eq_refl) as (co' & Hco' & Hnc & _ & Ho).
  destruct (close_heap_static c w2 c co Hco) as (co2 & Hco2 & Hp & _).
  rewrite Hco' in Hco2. injection Hco2 as <-.
  destruct (close_pool_fields c w2) as (Hs & _ & _ & Hcq & _).
  split_and!.
  - done.
  - exists co'. split_and!; [done | | done]. unfold own. rewrite Hp, Hs. done.
  - rewrite Ho. apply lookup_delete_eq.
  - rewrite Hcq. done.
Qed.

Lemma get_closes_connection_dialled_too_late_witness :
  (get racing_disconnect background fresh_pool).2 = (None, Some ErrPoolDisconnected).
Proof.
  destruct (get_closes_connection_dialled_too_late racing_disconnect background fresh_pool
              "late" (mkNetConn None)) as (H & _);
    [reflexivity | reflexivity | reflexivity | reflexivity | vm_compute; discriminate |].
  exact H.
Defined.

End PoolExtras.

(** * Further properties of the dispatch functions *)

Module LegacyBookFacts.
Import Legacy LegacyBook.

Lemma getReadPref_running current s :
  session.TransactionRunning s = true ->
  getReadPrefBasedOnTransaction current (Some s)
  = match checkTransactionReadPref (session.CurrentRp s) with
    | Some err => (None, Some err)
    | None => (session.CurrentRp s, None)
    end.
Proof. intros Hrun. unfold getReadPrefBasedOnTransaction. by rewrite Hrun. Qed.

Lemma checkTransactionReadPref_cases rp :
  (checkTransactionReadPref rp = None
   ∧ ∀ p, rp = Some p -> readpref.Mode_ p = readpref.PrimaryMode)
  ∨ (checkTransactionReadPref rp = Some ErrNonPrimaryRP
     ∧ ∃ p, rp = Some p ∧ readpref.Mode_ p ≠ readpref.PrimaryMode).
Proof.
  destruct rp as [p|]; simpl; [|left; split; [done | intros p Hp; discriminate Hp]].
  destruct (readpref.Mode_ p) eqn:Hm; simpl;
    first [left; split; [done | intros p' Hp'; injection Hp' as <-; exact Hm]
          | right; split; [done | exists p; split; [done | rewrite Hm; discriminate]]].
Qed.

End LegacyBookFacts.

Module LegacyExtras.
Import Legacy LegacyBook LegacyFacts LegacyBookFacts.

(** X14.  A dispatched call closes the connection it obtained exactly
    once, and closes nothing else - whichever of the six functions it
    is, and whether it returns a result, returns an error, panics in the
    round trip or leaves the round trip to a goroutine; a call that
    obtained no connection closes none. *)
Theorem connection_closed_exactly_once (env : Env) (topo : Topology) (d : dispatch) :
  closes (trace env topo d)
  = match obtained topo d with
    | Some (_, conn) => [conn]
    | None => []
    end.
Proof.
  open_call d; paths; reflexivity.
Qed.

(** X15.  A call whose command comes with a session, or whose topology
    does not support sessions, or that is a [Write] with an
    unacknowledged write concern, makes no session and ends none, in its
    goroutine neither; its round trip runs under the session the command
    came with. *)
Theorem no_session_made_or_ended (env : Env) (topo : Topology) (d : dispatch) :
  session_of d ≠ None ∨ SupportsSessions topo = false ∨ acknowledged d = false ->
  (∀ e, e ∈ everything (trace env topo d) -> ¬ sessionEvent e)
  ∧ ∀ s rp opts desc conn,
      RoundTrip_ s rp opts desc conn ∈ everything (trace env topo d) ->
      s = session_of d.
Proof.
  open_call d; intros H; paths;
    try (destruct H as [H | [H | H]];
         first [congruence | rewrite H in *; simpl in *; congruence]);
    (split; [intros ev Hin | intros s' rp' opts' desc' conn' Hin]);
    repeat (apply elem_of_cons in Hin as [Hin | Hin];
            [first [subst ev; simpl; tauto | discriminate Hin
                   | injection Hin as -> _ _ _ _; done]|]);
    by apply elem_of_nil in Hin.
Qed.

Lemma no_session_made_or_ended_witness :
  (∀ e, e ∈ everything (trace env1 topo1 (CallWrite (answering None None w0) None)) ->
        ¬ sessionEvent e)
  ∧ ∀ s rp opts desc conn,
      RoundTrip_ s rp opts desc conn
        ∈ everything (trace env1 topo1 (CallWrite (answering None None w0) None)) ->
      s = None.
Proof.
  apply (no_session_made_or_ended env1 topo1 (CallWrite (answering None None w0) None)).
  right. right. reflexivity.
Defined.

(** X16.  A dispatched call makes at most one round trip, and makes it
    to the server it selected, over the connection it obtained from that
    server. *)
Theorem round_trip_goes_to_the_selected_server (env : Env) (topo : Topology)
    (d : dispatch) :
  roundTrips (trace env topo d) = []
  ∨ ∃ ss conn, obtained topo d = Some (ss, conn)
               ∧ roundTrips (trace env topo d) = [(Description ss, conn)].
Proof.
  open_call d; paths; eauto.
Qed.

(** X17.  A call that fails to select a server, to get a connection or
    to make its implicit session returns that very error and makes no
    round trip: after a failed selection it has done nothing else, after
    a failed connection it has nothing to close, and after a failed
    session it closes the connection. *)
Theorem failure_returns_before_round_trip (env : Env) (topo : Topology)
    (d : dispatch) :
  (∀ err, SelectServerLegacy topo (selects d) = inl err ->
     ends env topo d = Returned (Some err)
     ∧ trace env topo d = [SelectServerLegacy_ (selects d)])
  ∧ (∀ ss err,
       SelectServerLegacy topo (selects d) = inr ss ->
       ConnectionLegacy ss = inl err ->
       ends env topo d = Returned (Some err)
       ∧ trace env topo d = [SelectServerLegacy_ (selects d); ConnectionLegacy_])
  ∧ (∀ ss conn err,
       obtained topo d = Some (ss, conn) ->
       session_of d = None ->
       SupportsSessions topo = true ->
       acknowledged d = true ->
       NewClientSession env session.Implicit = inl err ->
       ends env topo d = Returned (Some err)
       ∧ trace env topo d = [SelectServerLegacy_ (selects d); ConnectionLegacy_;
                             NewClientSession_ session.Implicit; Close_ conn]).
Proof.
  split_and!.
  - intros err. open_call d; intros H; rewrite H; done.
  - intros ss err. open_call d; intros H1 H2; rewrite H1; simpl; rewrite H2; done.
  - intros ss conn err. open_call d; intros H1 H2 H3 H4 H5; unfold Raw in *; paths;
      first [congruence | split; congruence | rewrite H4 in *; simpl in *; congruence
            | rewrite H2 in *; simpl in *; congruence].
Qed.

Lemma failure_returns_before_round_trip_witness :
  ends env1 noServer (CallRead (answering None None None) None)
  = Returned (Some (Reported "no suitable server"))
  ∧ trace noSession topo1 (CallDropCollection (answering None None None) None)
    = [SelectServerLegacy_ None; ConnectionLegacy_;
       NewClientSession_ session.Implicit; Close_ 1%nat].
Proof.
  split.
  - destruct (failure_returns_before_round_trip env1 noServer
                (CallRead (answering None None None) None)) as (H & _ & _).
    destruct (H (Reported "no suitable server") eq_refl) as [H1 _]. exact H1.
  - destruct (failure_returns_before_round_trip noSession topo1
                (CallDropCollection (answering None None None) None)) as (_ & _ & H).
    destruct (H primary1 1%nat (Reported "no session") eq_refl eq_refl eq_refl eq_refl eq_refl)
      as [_ H2].
    exact H2.
Defined.

(** X18.  When the session of the command is pinned to a server, [Read],
    [Write] and [CountDocuments] select with the pinned server, whatever
    selector they were given, while [DropIndexes], [ListDatabases] and
    [DropCollection] select with the selector they were given; each call
    selects once. *)
Theorem pinned_server_overrides (env : Env) (topo : Topology) (d : dispatch)
    (s : session.Client) (ps : string) :
  session_of d = Some s ->
  session.PinnedServer s = Some ps ->
  ∃ t, trace env topo d
       = SelectServerLegacy_
           match d with
           | CallRead _ _ | CallWrite _ _ | CallCountDocuments _ _ _ => Some ps
           | CallDropIndexes _ _ _ | CallListDatabases _ _ _ | CallDropCollection _ _ =>
               given d
           end :: t
       ∧ ∀ selector, SelectServerLegacy_ selector ∉ everything t.
Proof.
  open_call d; unfold pinned; intros Hs Hp; rewrite ?Hs, ?Hp; simpl;
    (eexists; split; [reflexivity|]);
    intros sel' Hin; paths;
    repeat (apply elem_of_cons in Hin as [Hin | Hin]; [discriminate Hin|]);
    by apply elem_of_nil in Hin.
Qed.

Lemma pinned_server_overrides_witness :
  ∃ t, trace env1 topo1 (CallRead (answering (Some (pinnedTo "rs0-1")) None None)
                           (Some "any"%string))
       = SelectServerLegacy_ (Some "rs0-1"%string) :: t
       ∧ ∀ selector, SelectServerLegacy_ selector ∉ everything t.
Proof.
  apply (pinned_server_overrides env1 topo1
           (CallRead (answering (Some (pinnedTo "rs0-1")) None None) (Some "any"%string))
           (pinnedTo "rs0-1") "rs0-1"); reflexivity.
Defined.

(** X19.  In a running transaction [CountDocuments] reads with the read
    preference of the transaction, not with the one of the command: its
    round trip carries the session's [CurrentRp], which is then nil or
    primary, and with any other [CurrentRp] the call returns
    [ErrNonPrimaryRP] once it has its connection, and closes it. *)
Theorem CountDocuments_uses_transaction_read_preference (env : Env) (cmd : Command Z)
    (topo : Topology) (selector : option ServerSelector) (o : CountOptions.t)
    (s : session.Client) :
  Session cmd = Some s ->
  session.TransactionRunning s = true ->
  (∀ s' rp opts desc conn,
     RoundTrip_ s' rp opts desc conn ∈ (CountDocuments env cmd topo selector o).2 ->
     rp = session.CurrentRp s
     ∧ ∀ p, rp = Some p -> readpref.Mode_ p = readpref.PrimaryMode)
  ∧ (∀ p ss conn,
       session.CurrentRp s = Some p ->
       readpref.Mode_ p ≠ readpref.PrimaryMode ->
       SelectServerLegacy topo (pinned cmd selector) = inr ss ->
       ConnectionLegacy ss = inr conn ->
       CountDocuments env cmd topo selector o
       = (Returns 0 (Some ErrNonPrimaryRP),
          [SelectServerLegacy_ (pinned cmd selector); ConnectionLegacy_; Close_ conn])).
Proof.
  intros Hs Hrun.
  split.
  - intros s' rp opts desc conn.
    unfold CountDocuments. cbv zeta. rewrite Hs, (getReadPref_running _ _ Hrun).
    destruct (checkTransactionReadPref_cases (session.CurrentRp s))
      as [[Hchk Hprim] | [Hchk _]]; rewrite Hchk;
      unfold withImplicitSession, roundTrip, defer, after, ret, panic; simpl; rewrite ?Hs;
      intros Hin; paths;
      repeat (apply elem_of_cons in Hin as [Hin | Hin]; [try discriminate Hin|]);
      try (by apply elem_of_nil in Hin);
      injection Hin as -> -> -> -> ->; (split; [done | exact Hprim]).
  - intros p ss conn Hp Hmode Hss Hconn.
    unfold CountDocuments. cbv zeta. rewrite Hs, (getReadPref_running _ _ Hrun), Hss.
    simpl. rewrite Hconn.
    destruct (checkTransactionReadPref_cases (session.CurrentRp s))
      as [[Hchk Hprim] | [Hchk _]]; rewrite Hchk; [|done].
    by specialize (Hprim p Hp).
Qed.

Lemma CountDocuments_uses_transaction_read_preference_witness :
  CountDocuments env1
    (mkCommand (Some (txnWith (Some readpref.Secondary))) (Some readpref.Primary) None []
       (fun _ _ _ _ _ => Returns 5 None))
    topo1 None (CountOptions.mk None None None)
  = (Returns 0 (Some ErrNonPrimaryRP),
     [SelectServerLegacy_ None; ConnectionLegacy_; Close_ 1%nat]).
Proof.
  destruct (CountDocuments_uses_transaction_read_preference env1
              (mkCommand (Some (txnWith (Some readpref.Secondary))) (Some readpref.Primary)
                 None [] (fun _ _ _ _ _ => Returns 5 None))
              topo1 None (CountOptions.mk None None None)
              (txnWith (Some readpref.Secondary)) eq_refl eq_refl) as [_ H].
  apply (H readpref.Secondary primary1 1%nat); [reflexivity | discriminate | reflexivity..].
Defined.

(** X20.  [CountDocuments] with a collation makes no round trip on a
    server whose maximum wire version is below 5: it returns
    [ErrCollation], before it looks at the collation document or the
    hint; and on a server description that has no wire version it
    panics. *)
Theorem CountDocuments_collation_needs_wire_version_5 (env : Env) (cmd : Command Z)
    (topo : Topology) (selector : option ServerSelector) (o : CountOptions.t)
    (ss : SelectedServer) (conn : Connection) (collation : error + Raw) :
  SelectServerLegacy topo (pinned cmd selector) = inr ss ->
  ConnectionLegacy ss = inr conn ->
  CountOptions.Collation o = Some collation ->
  (getReadPrefBasedOnTransaction (ReadPref cmd) (Session cmd)).2 = None ->
  (Session cmd = None -> SupportsSessions topo = true ->
   ∃ s, NewClientSession env session.Implicit = inr s) ->
  (∀ v, description.WireVersion (description.Server_ (Description ss)) = Some v ->
        description.Max v < 5 ->
        how (CountDocuments env cmd topo selector o) = Returned (Some ErrCollation)
        ∧ roundTrips (CountDocuments env cmd topo selector o).2 = [])
  ∧ (description.WireVersion (description.Server_ (Description ss)) = None ->
     how (CountDocuments env cmd topo selector o) = Panicked
     ∧ roundTrips (CountDocuments env cmd topo selector o).2 = []).
Proof.
  intros Hss Hconn Hcoll Hrp Hsess.
  unfold how, CountDocuments, withImplicitSession, roundTrip, defer, after, ret, panic.
  cbv zeta. rewrite Hss. simpl. rewrite Hconn.
  destruct (getReadPrefBasedOnTransaction _ _) as [rp [err|]]; [done|]. simpl.
  destruct (Session cmd) eqn:Hs; simpl;
    [|destruct (SupportsSessions topo); simpl;
      [destruct Hsess as [s ->]; [done | done |]; simpl |]];
    rewrite Hcoll;
    (split; [intros v Hv Hlt; apply Z.ltb_lt in Hlt; rewrite Hv, Hlt; done
            | intros Hv; rewrite Hv; done]).
Qed.

Lemma CountDocuments_collation_needs_wire_version_5_witness :
  how (CountDocuments env1 (mkCommand None None None [] (fun _ _ _ _ _ => Returns 5 None))
         topoOld None (CountOptions.mk None (Some (inr [5; 0; 0; 0; 0])) None))
  = Returned (Some ErrCollation).
Proof.
  destruct (CountDocuments_collation_needs_wire_version_5 env1
              (mkCommand None None None [] (fun _ _ _ _ _ => Returns 5 None))
              topoOld None (CountOptions.mk None (Some (inr [5; 0; 0; 0; 0])) None)
              oldServer 1%nat (inr [5; 0; 0; 0; 0])) as [H _];
    [reflexivity | reflexivity | reflexivity | reflexivity | intros _ _; eexists; reflexivity |].
  destruct (H (description.mkVersionRange 0 4) eq_refl) as [H1 _]; [reflexivity | exact H1].
Defined.

(** X21.  [DropIndexes] with a [MaxTime], once it has its server, its
    connection and a session, makes its one round trip with the options
    the command came with followed by [maxTimeMS], the number of whole
    milliseconds that fit into the duration: a duration below one
    millisecond is sent as 0. *)
Theorem DropIndexes_sends_whole_milliseconds (env : Env) (cmd : Command Raw)
    (topo : Topology) (selector : option ServerSelector) (dio : DropIndexesOptions.t)
    (d : Z) (ss : SelectedServer) (conn : Connection) :
  DropIndexesOptions.MaxTime dio = Some d ->
  0 <= d ->
  SelectServerLegacy topo selector = inr ss ->
  ConnectionLegacy ss = inr conn ->
  (Session cmd = None -> SupportsSessions topo = true ->
   ∃ s, NewClientSession env session.Implicit = inr s) ->
  ∃ s ms pre post,
    (DropIndexes env cmd topo selector dio).2
    = pre ++ [RoundTrip_ s (ReadPref cmd) (Opts cmd ++ [("maxTimeMS"%string, Int64 ms)])
                (Description ss) conn] ++ post
    ∧ roundTrips (pre ++ post) = []
    ∧ ms * Millisecond <= d < (ms + 1) * Millisecond
    ∧ (d < Millisecond -> ms = 0).
Proof.
  intros Hd Hpos Hss Hconn Hsess.
  assert (Hms : (d ÷ Millisecond) * Millisecond <= d < (d ÷ Millisecond + 1) * Millisecond
                ∧ (d < Millisecond -> d ÷ Millisecond = 0)).
  { assert (0 < Millisecond) by (unfold Millisecond; lia).
    rewrite Z.quot_div_nonneg by lia.
    pose proof (Z.mul_div_le d Millisecond).
    pose proof (Z.mul_succ_div_gt d Millisecond).
    split; [lia|]. intros Hlt. apply Z.div_small. lia. }
  destruct Hms as [Hb H0].
  unfold DropIndexes, withImplicitSession, roundTrip, defer, after, ret, panic.
  rewrite Hd, Hss. simpl. rewrite Hconn. simpl.
  destruct (Session cmd) as [s|] eqn:Hs; simpl.
  - exists (Some s), (d ÷ Millisecond), [SelectServerLegacy_ selector; ConnectionLegacy_],
      [Close_ conn]. split_and!; first [done | lia | exact H0].
  - destruct (SupportsSessions topo); simpl.
    + destruct Hsess as [s Hnew]; [done | done |]. rewrite Hnew. simpl.
      exists (Some s), (d ÷ Millisecond),
        [SelectServerLegacy_ selector; ConnectionLegacy_; NewClientSession_ session.Implicit],
        [EndSession_ s; Close_ conn].
      rewrite ?Hs. split_and!; first [done | lia | exact H0].
    + exists None, (d ÷ Millisecond), [SelectServerLegacy_ selector; ConnectionLegacy_],
        [Close_ conn]. rewrite ?Hs. split_and!; first [done | lia | exact H0].
Qed.

Lemma DropIndexes_sends_whole_milliseconds_witness :
  ∃ s ms pre post,
    (DropIndexes env1 (answering None None None) topo1 None
       (DropIndexesOptions.mk (Some 500000))).2
    = pre ++ [RoundTrip_ s None ([] ++ [("maxTimeMS"%string, Int64 ms)])
                (Description primary1) 1%nat] ++ post
    ∧ roundTrips (pre ++ post) = []
    ∧ ms * Millisecond <= 500000 < (ms + 1) * Millisecond
    ∧ (500000 < Millisecond -> ms = 0).
Proof.
  apply (DropIndexes_sends_whole_milliseconds env1 (answering None None None) topo1 None
           (DropIndexesOptions.mk (Some 500000)) 500000 primary1 1%nat);
    [reflexivity | lia | reflexivity | reflexivity | intros _ _; eexists; reflexivity].
Defined.

End LegacyExtras.

(** * A property of [CommandOperation] *)

Module CommandOperationExtras.
Import CommandOperation.

(** X22.  [command] appends to [dst] the command document without its
    frame - the four bytes at its head and the one byte at its end - and
    returns no error; on a command of fewer than five bytes it panics. *)
Theorem command_appends_the_elements {D} (co : t D) (dst : bytes) :
  (∀ header elems terminator,
     length header = 4%nat ->
     cmd co = header ++ elems ++ [terminator] ->
     command co dst = Some (dst ++ elems, None))
  ∧ ((length (cmd co) < 5)%nat -> command co dst = None).
Proof.
  split.
  - intros header elems terminator Hh Hcmd. unfold command, slice. rewrite Hcmd.
    rewrite !length_app, Hh. change (length [terminator]) with 1%nat.
    match goal with
    | |- context [if ?b then _ else _] =>
        assert (Hb : b = true) by (rewrite !andb_true_iff, !Z.leb_le; lia); rewrite Hb
    end.
    match goal with
    | |- context [take ?n (drop ?m _)] =>
        replace n with (length elems) by lia; replace m with (length header) by lia
    end.
    by rewrite drop_app_length, take_app_length.
  - intros Hlen. unfold command, slice.
    match goal with
    | |- context [if ?b then _ else _] =>
        assert (Hb : b = false); [|by rewrite Hb]
    end.
    apply andb_false_iff. left. apply andb_false_iff. right. apply Z.leb_gt. lia.
Qed.

Lemma command_appends_the_elements_witness :
  command (mk emptyDocument "admin" (Some tt) []) [1; 2] = Some ([1; 2], None)
  ∧ command (mk [5; 0] "admin" (Some tt) []) [1; 2] = None.
Proof.
  destruct (command_appends_the_elements (mk emptyDocument "admin" (Some tt) []) [1; 2])
    as [H1 _].
  destruct (command_appends_the_elements (mk [5; 0] "admin" (Some tt) []) [1; 2])
    as [_ H2].
  split.
  - apply (H1 [5; 0; 0; 0] [] 0); reflexivity.
  - apply H2. simpl. lia.
Defined.

End CommandOperationExtras.
